(** * SQIL agent of mod/agents/sqil.py: embedding and verified properties

    The agent is embedded shallowly.  Tensors of float32 are lists of real
    numbers (rounding, infinities and NaN are outside the model), Python
    integers are [Z], lengths and indices are [nat].  Statements that may
    raise return a [Result]; methods that mutate the agent before raising
    return the agent together with the [Result].  Sources of randomness
    (the expert dataset, the buffers' index sampler) are explicit tapes. *)

From Stdlib Require Import Reals Lra Lia List ZArith String Bool Arith Sorted.
Import ListNotations.

(* ================================================================== *)
(** * Part I: definitions                                              *)
(* ================================================================== *)

(** ** Exceptions *)

Inductive Exn : Type :=
| AssertionError
| ValueError
| ZeroDivisionError
| AttributeError
| IndexError
| KeyError
| TypeError.

Inductive Result (A : Type) : Type :=
| Ok (a : A)
| Raise (e : Exn).
Arguments Ok {A} a.
Arguments Raise {A} e.

Definition bind {A B} (r : Result A) (k : A -> Result B) : Result B :=
  match r with
  | Ok a => k a
  | Raise e => Raise e
  end.

Notation "x <- r ;; k" := (bind r (fun x => k))
  (at level 61, r at next level, right associativity).

(** [assert c] *)
Definition assert (c : bool) : Result unit :=
  if c then Ok tt else Raise AssertionError.

Definition is_ok {A} (r : Result A) : bool :=
  match r with Ok _ => true | Raise _ => false end.

(** ** Tensors *)

Module Tensor.
Local Open Scope R_scope.

(** Element-wise binary operation on two tensors of one shape. *)
Fixpoint zip_with {A B C} (f : A -> B -> C) (xs : list A) (ys : list B)
  : list C :=
  match xs, ys with
  | x :: xs', y :: ys' => f x y :: zip_with f xs' ys'
  | _, _ => []
  end.

Definition add : list R -> list R -> list R := zip_with Rplus.
Definition sub : list R -> list R -> list R := zip_with Rminus.
Definition mul : list R -> list R -> list R := zip_with Rmult.

(** [c - x] for a Python scalar [c]. *)
Definition rsub (c : R) (x : list R) : list R := map (fun v => c - v) x.

(** [x.sum()] *)
Definition sum (x : list R) : R := fold_right Rplus 0 x.

(** Maximum over a dimension (of size at least one). *)
Definition max (x : list R) : R :=
  match x with
  | [] => 0
  | v :: r => fold_left Rmax r v
  end.

(** [q.max(dim=-1, keepdim=True)[0]]: shape (B, A) to (B, 1). *)
Definition max_keepdim (q : list (list R)) : list (list R) :=
  map (fun row => [max row]) q.

(** [torch.broadcast_tensors(m, q)[0]] for [m] of shape (B, 1) and [q] of
    shape (B, A): every row of [m] is repeated along the last dimension. *)
Definition broadcast_to (m q : list (list R)) : list (list R) :=
  zip_with (fun mrow qrow => map (fun _ => nth 0 mrow 0) qrow) m q.

(** [m[:, 0]] *)
Definition column0 (m : list (list R)) : list R :=
  map (fun row => nth 0 row 0) m.

(** [(a - b)] on shape (B, A), [.exp()], [.sum(dim=-1)], [.log()]. *)
Definition sub2 (a b : list (list R)) : list (list R) := zip_with sub a b.
Definition exp2 (a : list (list R)) : list (list R) := map (map exp) a.
Definition sum_lastdim (a : list (list R)) : list R := map sum a.
Definition log (a : list R) : list R := map ln a.
End Tensor.

(** ** Data model *)

(** An observation is an array indexed [channel, row, column]. *)
Definition Obs := list (list (list R)).

Record Transition : Type := mkTransition {
  state : Obs;
  action : nat;
  reward : R;
  next_state : Obs;
  next_action : option nat;
  is_state_terminal : bool;
  weight : option R
}.

(** An experience is the list of the transitions of one n-step frame. *)
Definition Experience := list Transition.

(** The batch dictionary built by the batch assembler: one entry per key,
    one row per sampled experience. *)
Record Batch : Type := mkBatch {
  batch_state : list Obs;
  batch_action : list nat;
  batch_reward : list R;
  batch_next_state : list Obs;
  batch_is_state_terminal : list R;
  batch_discount : list R;
  batch_weights : option (list R)
}.

(** Boolean flags are stored in the batch as float32 0.0 / 1.0. *)
Definition float_of_bool (b : bool) : R := if b then 1%R else 0%R.

(** A Q-function: its architecture (the forward pass as a function of the
    weights), its weights (the state dict) and its train/eval flag. *)
Record QFunction : Type := mkQFunction {
  arch : list R -> Obs -> list R;
  weights : list R;
  training_mode : bool
}.

(** [net(batch)].q_values: one row of action values per state. *)
Definition forward (net : QFunction) (xs : list Obs) : list (list R) :=
  map (arch net (weights net)) xs.

(** [qout.evaluate_actions(actions)]: the value of the taken action. *)
Definition evaluate_actions (q : list (list R)) (acts : list nat) : list R :=
  Tensor.zip_with (fun row a => nth a row 0%R) q acts.

(** ** Loss engine *)

Section LossEngine.
Local Open Scope R_scope.

(** Lines 453-459: the soft value of every row of target Q-values. *)
Definition next_q_soft (q_values : list (list R)) : list R :=
  let next_q_max :=
    Tensor.broadcast_to (Tensor.max_keepdim q_values) q_values in
  Tensor.add
    (Tensor.column0 next_q_max)
    (Tensor.log
       (Tensor.sum_lastdim (Tensor.exp2 (Tensor.sub2 q_values next_q_max)))).

(** [SQIL._compute_target_values] *)
Definition _compute_target_values (target_model : QFunction)
    (exp_batch : Batch) : list R :=
  let target_next_qout := forward target_model (batch_next_state exp_batch) in
  let soft := next_q_soft target_next_qout in
  let batch_rewards := batch_reward exp_batch in
  let batch_terminal := batch_is_state_terminal exp_batch in
  let discount := batch_discount exp_batch in
  Tensor.add batch_rewards
    (Tensor.mul (Tensor.mul discount (Tensor.rsub 1 batch_terminal)) soft).

(** [SQIL._compute_y_and_t] (non-recurrent forward pass). *)
Definition _compute_y_and_t (model target_model : QFunction)
    (exp_batch : Batch) : list R * list R :=
  let qout := forward model (batch_state exp_batch) in
  let batch_q := evaluate_actions qout (batch_action exp_batch) in
  let batch_q_target := _compute_target_values target_model exp_batch in
  (batch_q, batch_q_target).

(** [F.smooth_l1_loss] with beta = 1, element-wise. *)
Definition smooth_l1 (y t : R) : R :=
  let z := Rabs (y - t) in
  if Rlt_dec z 1 then z * z / 2 else z - / 2.

(** [F.mse_loss], element-wise. *)
Definition mse (y t : R) : R := (y - t) * (y - t).

Definition accumulator_ok (batch_accumulator : string) : bool :=
  String.eqb batch_accumulator "mean" || String.eqb batch_accumulator "sum".

(** Reduction of element-wise losses over [n] rows. *)
Definition reduce (batch_accumulator : string) (n : nat) (total : R) : R :=
  if String.eqb batch_accumulator "mean" then total / INR n else total.

(** [compute_value_loss] *)
Definition compute_value_loss (y t : list R) (clip_delta : bool)
    (batch_accumulator : string) : Result R :=
  _ <- assert (accumulator_ok batch_accumulator) ;;
  if clip_delta then
    Ok (reduce batch_accumulator (List.length y)
          (Tensor.sum (Tensor.zip_with smooth_l1 y t)))
  else
    Ok (reduce batch_accumulator (List.length y)
          (Tensor.sum (Tensor.zip_with mse y t)) / 2).

(** [compute_weighted_value_loss] *)
Definition compute_weighted_value_loss (y t w : list R) (clip_delta : bool)
    (batch_accumulator : string) : Result R :=
  _ <- assert (accumulator_ok batch_accumulator) ;;
  let losses :=
    if clip_delta then Tensor.zip_with smooth_l1 y t
    else map (fun l => l / 2) (Tensor.zip_with mse y t) in
  let loss_sum := Tensor.sum (Tensor.mul losses w) in
  Ok (reduce batch_accumulator (List.length y) loss_sum).
End LossEngine.

(** ** Sources of randomness *)

(** The expert dataset: [sample()] returns the next draw
    [(obs, action, _, next_obs, done)] of its tape. *)
Definition Draw : Type := Obs * nat * R * Obs * bool.

Record ExpertDataset : Type := mkExpertDataset {
  draws : nat -> Draw;
  cursor : nat
}.

Definition dataset_sample (d : ExpertDataset) : Draw * ExpertDataset :=
  (draws d (cursor d), mkExpertDataset (draws d) (S (cursor d))).

(** The generator behind the buffers' index sampler. *)
Record Rng : Type := mkRng {
  tape : nat -> nat;
  pos : nat
}.

Definition rng_next (g : Rng) : nat * Rng :=
  (tape g (pos g), mkRng (tape g) (S (pos g))).

(** [k] distinct positions taken from [pool], one tape entry per position. *)
Fixpoint pick_distinct (g : Rng) (pool : list nat) (k : nat)
  : list nat * Rng :=
  match k with
  | O => ([], g)
  | S k' =>
      let (r, g1) := rng_next g in
      let j := Nat.modulo r (List.length pool) in
      let i := nth j pool O in
      let (rest, g2) :=
        pick_distinct g1 (firstn j pool ++ skipn (S j) pool) k' in
      (i :: rest, g2)
  end.

(** [sample_n_k(n, k)]: [k] distinct elements of [range(n)]. *)
Definition sample_n_k (g : Rng) (n k : nat) : Result (list nat * Rng) :=
  if Nat.leb k n then Ok (pick_distinct g (seq 0 n) k) else Raise ValueError.

(** ** The buckets: [pfrl.replay_buffers.ReplayBuffer(capacity, 1)] *)

Module ReplayBuffer.
(** A bounded FIFO memory of one-step experiences. *)
Record t : Type := mk {
  capacity : option nat;
  memory : list Experience
}.

Definition new (capacity : nat) : t := mk (Some capacity) [].

Definition len (b : t) : nat := List.length (memory b).

(** [append] with [num_steps = 1]: the transition enters the
    memory at once, the oldest entry leaves when the capacity is passed. *)
Definition append (b : t) (tr : Transition) : t :=
  let m := memory b ++ [[tr]] in
  match capacity b with
  | Some c => if Nat.ltb c (List.length m) then mk (capacity b) (tl m)
              else mk (capacity b) m
  | None => mk (capacity b) m
  end.

(** [sample(n)]: asserts that the memory holds [n] entries, then draws
    [n] distinct ones. *)
Definition sample (b : t) (g : Rng) (n : nat)
  : Result (list Experience * Rng) :=
  _ <- assert (Nat.leb n (len b)) ;;
  r <- sample_n_k g (len b) n ;;
  Ok (map (fun i => nth i (memory b) []) (fst r), snd r).
End ReplayBuffer.

(** ** The reward-stratified demonstration sampler *)

Module RewardBasedSampler.
Local Open Scope R_scope.

Record t : Type := mk {
  expert_dataset : ExpertDataset;
  reward_boundaries : list R;
  replay_buffers : list ReplayBuffer.t;
  reward_scale : R;
  rng : Rng
}.

(** The comparison tolerance [1e-8]. *)
Definition tolerance : R := / 100000000.

(** [x > y] as a boolean. *)
Definition gtb (x y : R) : bool := if Rlt_dec y x then true else false.

(** [np.array(ob)[-1, 0, 0]] *)
Definition last_channel_scalar (ob : Obs) : Result R :=
  match rev ob with
  | [] => Raise IndexError
  | ch :: _ =>
      match ch with
      | [] => Raise IndexError
      | row :: _ =>
          match row with
          | [] => Raise IndexError
          | v :: _ => Ok v
          end
      end
  end.

(** [np.sum] of a boolean array. *)
Definition count_true (bs : list bool) : nat :=
  fold_right (fun (b : bool) n => if b then S n else n) O bs.

(** [_policy_index] *)
Definition _policy_index (reward_boundaries : list R) (ob : Obs)
  : Result nat :=
  cum_reward <- last_channel_scalar ob ;;
  match rev reward_boundaries with
  | [] => Raise IndexError
  | b_last :: _ =>
      Ok (count_true
            (map (fun b => gtb cum_reward (b / b_last - tolerance))
                 reward_boundaries))
  end.

(** [self.replay_buffers[k].append(...)] *)
Fixpoint append_at (bufs : list ReplayBuffer.t) (k : nat) (tr : Transition)
  : Result (list ReplayBuffer.t) :=
  match bufs, k with
  | [], _ => Raise IndexError
  | b :: rest, O => Ok (ReplayBuffer.append b tr :: rest)
  | b :: rest, S k' =>
      rest' <- append_at rest k' tr ;;
      Ok (b :: rest')
  end.

(** [_update_buffer(n)].  The sampler is returned with the state reached,
    also when a draw raises. *)
Fixpoint _update_buffer (s : t) (n : nat) : t * Result unit :=
  match n with
  | O => (s, Ok tt)
  | S n' =>
      let '((ob, act, _, next_ob, done), ds) :=
        dataset_sample (expert_dataset s) in
      let s1 := mk ds (reward_boundaries s) (replay_buffers s)
                   (reward_scale s) (rng s) in
      match
        (k <- _policy_index (reward_boundaries s) ob ;;
         append_at (replay_buffers s) k
           (mkTransition ob act (reward_scale s) next_ob None done None))
      with
      | Raise e => (s1, Raise e)
      | Ok bufs =>
          _update_buffer
            (mk ds (reward_boundaries s) bufs (reward_scale s) (rng s)) n'
      end
  end.

Definition update_needed (bufs : list ReplayBuffer.t) (max_buffer_size : nat)
  : bool :=
  existsb (fun rbuf => Nat.ltb (ReplayBuffer.len rbuf) max_buffer_size) bufs.

(** The filling loop of [__init__]; [None] when [fuel] rounds do not
    fill every bucket. *)
Fixpoint fill (fuel : nat) (s : t) (max_buffer_size : nat)
  : option (Result t) :=
  if update_needed (replay_buffers s) max_buffer_size then
    match fuel with
    | O => None
    | S fuel' =>
        match _update_buffer s max_buffer_size with
        | (_, Raise e) => Some (Raise e)
        | (s', Ok _) => fill fuel' s' max_buffer_size
        end
    end
  else Some (Ok s).

(** [__init__] *)
Definition __init__ (fuel : nat) (expert_dataset : ExpertDataset)
    (reward_boundaries : list R) (max_buffer_size : nat) (reward : R)
    (g : Rng) : option (Result t) :=
  fill fuel
    (mk expert_dataset reward_boundaries
        (map (fun _ => ReplayBuffer.new max_buffer_size)
             (seq 0 (List.length reward_boundaries + 1)))
        reward g)
    max_buffer_size.

(** [n_samples[k] += 1] *)
Fixpoint incr_at (ns : list nat) (k : nat) : Result (list nat) :=
  match ns, k with
  | [], _ => Raise IndexError
  | n :: rest, O => Ok (S n :: rest)
  | n :: rest, S k' =>
      rest' <- incr_at rest k' ;;
      Ok (n :: rest')
  end.

(** The loop computing [n_samples] over the frames of [experiences]. *)
Fixpoint count_samples (reward_boundaries : list R)
    (experiences : list Experience) (n_samples : list nat)
  : Result (list nat) :=
  match experiences with
  | [] => Ok n_samples
  | frame :: rest =>
      match frame with
      | [] => Raise IndexError
      | tr :: _ =>
          k <- _policy_index reward_boundaries (state tr) ;;
          ns <- incr_at n_samples k ;;
          count_samples reward_boundaries rest ns
      end
  end.

(** The loop over [zip(self.replay_buffers, n_samples)]. *)
Fixpoint draw_all (bufs : list ReplayBuffer.t) (n_samples : list nat)
    (g : Rng) (ret : list Experience) : Rng * Result (list Experience) :=
  match bufs, n_samples with
  | rbuf :: bufs', n_sample :: ns' =>
      match ReplayBuffer.sample rbuf g n_sample with
      | Raise e => (g, Raise e)
      | Ok (samples, g') => draw_all bufs' ns' g' (ret ++ samples)
      end
  | _, _ => (g, Ok ret)
  end.

(** [sample(experiences)] *)
Definition sample (s : t) (experiences : list Experience)
  : t * Result (list Experience) :=
  match _update_buffer s (List.length experiences) with
  | (s1, Raise e) => (s1, Raise e)
  | (s1, Ok _) =>
      let n_samples :=
        map (fun _ => O) (seq 0 (List.length (reward_boundaries s1) + 1)) in
      match count_samples (reward_boundaries s1) experiences n_samples with
      | Raise e => (s1, Raise e)
      | Ok ns =>
          let (g, r) := draw_all (replay_buffers s1) ns (rng s1) [] in
          (mk (expert_dataset s1) (reward_boundaries s1) (replay_buffers s1)
              (reward_scale s1) g, r)
      end
  end.
End RewardBasedSampler.

(** ** External collaborators of the agent *)

(** The replay buffer handed to the agent, through the interface the agent
    uses: [capacity], [len], [append(env_id=i, ...)],
    [stop_current_episode(env_id=i)], [sample(n)] and, for the weighted
    path of [update], [update_errors(errors)]. *)
Class ReplayBufferLike (B : Type) : Type := {
  rb_capacity : B -> option Z;
  rb_len : B -> nat;
  rb_append : B -> nat -> Transition -> B;
  rb_stop_current_episode : B -> nat -> B;
  rb_sample : B -> nat -> Result (list Experience) * B;
  rb_update_errors : B -> list R -> Result B
}.

(** A bucket buffer with its own generator is such a buffer.  It is the
    plain buffer, which has no [update_errors] attribute. *)
#[export] Instance ReplayBuffer_like : ReplayBufferLike (ReplayBuffer.t * Rng) := {
  rb_capacity b := option_map Z.of_nat (ReplayBuffer.capacity (fst b));
  rb_len b := ReplayBuffer.len (fst b);
  rb_append b _ tr := (ReplayBuffer.append (fst b) tr, snd b);
  rb_stop_current_episode b _ := b;
  rb_sample b n :=
    match ReplayBuffer.sample (fst b) (snd b) n with
    | Ok (xs, g) => (Ok xs, (fst b, g))
    | Raise e => (Raise e, b)
    end;
  rb_update_errors _ _ := Raise AttributeError
}.

(** The optimizer: [zero_grad(); loss.backward(); step()] maps the loss, as
    a function of the online weights, and the weights to the new weights. *)
Record Optimizer : Type := mkOptimizer {
  opt_step : (list R -> R) -> list R -> list R
}.

(** The explorer: [select_action(t, greedy_action_func, action_value)]. *)
Record Explorer : Type := mkExplorer {
  select_action : Z -> nat -> list R -> nat
}.

(** [ReplayUpdater]: the attributes read by [update_if_necessary]. *)
Record ReplayUpdater : Type := mkReplayUpdater {
  batchsize : nat;
  n_times_update : nat;
  ru_replay_start_size : Z;
  ru_update_interval : Z
}.

(** Modelled from the spec: the batch assembler
    (pfrl.replay_buffer.batch_experiences, not under src/).  Every
    experience contributes one row: state and action of its first
    transition, the discounted sum of its rewards, the next state of its
    last transition, whether any transition is terminal, and
    gamma ** (number of transitions) as discount.  Empty input raises. *)
Section BatchAssembler.
Local Open Scope R_scope.

Fixpoint discounted_return (gamma : R) (i : nat) (e : Experience) : R :=
  match e with
  | [] => 0
  | tr :: rest => gamma ^ i * reward tr + discounted_return gamma (S i) rest
  end.

Definition batch_row (gamma : R) (e : Experience)
  : Result (Obs * nat * R * Obs * R * R) :=
  match e with
  | [] => Raise IndexError
  | first :: _ =>
      Ok (state first, action first, discounted_return gamma 0 e,
          next_state (last e first),
          float_of_bool (existsb is_state_terminal e),
          gamma ^ List.length e)
  end.

Fixpoint batch_rows (gamma : R) (es : list Experience) : Result Batch :=
  match es with
  | [] => Ok (mkBatch [] [] [] [] [] [] None)
  | e :: rest =>
      r <- batch_row gamma e ;;
      b <- batch_rows gamma rest ;;
      let '(s, a, rw, ns, term, d) := r in
      Ok (mkBatch (s :: batch_state b) (a :: batch_action b)
            (rw :: batch_reward b) (ns :: batch_next_state b)
            (term :: batch_is_state_terminal b) (d :: batch_discount b)
            None)
  end.

Definition batch_experiences (experiences : list Experience) (gamma : R)
  : Result Batch :=
  match experiences with
  | [] => Raise IndexError
  | _ => batch_rows gamma experiences
  end.
End BatchAssembler.

(** [load_experiences_from_demonstrations] *)
Fixpoint load_loop (d : ExpertDataset) (batch_size : nat) (reward : R)
  : list Experience * ExpertDataset :=
  match batch_size with
  | O => ([], d)
  | S n =>
      let '((ob, act, _, next_ob, done), d1) := dataset_sample d in
      let (ret, d2) := load_loop d1 n reward in
      ([mkTransition ob act reward next_ob None done None] :: ret, d2)
  end.

Definition load_experiences_from_demonstrations
    (expert_dataset : option ExpertDataset) (batch_size : nat) (reward : R)
  : Result (list Experience * ExpertDataset) :=
  match expert_dataset with
  | None => Raise ValueError
  | Some d => Ok (load_loop d batch_size reward)
  end.

(** ** The agent *)

(** The embedding covers the non-recurrent agent ([recurrent=False], the
    default: the class notes that recurrent support was removed) with the
    identity feature extractor; the statistics deques [q_record] and
    [loss_record] and the priority errors [errors_out], which influence no
    value below, are left out. *)

(** Attributes fixed at construction. *)
Record Hyper : Type := mkHyper {
  optimizer : Optimizer;
  gamma : R;
  explorer : Explorer;
  target_update_interval : Z;
  clip_delta : bool;
  target_update_method : string;
  soft_update_tau : R;
  batch_accumulator : string;
  replay_updater : ReplayUpdater;
  minibatch_size : nat;
  replay_start_size : Z;
  update_interval : Z;
  reward_scale : R;
  experience_lambda : R
}.

(** Attributes that change while the agent runs.  [batch_last_obs] and
    [batch_last_action] do not exist before the first [batch_act]. *)
Record SQIL (B : Type) : Type := mkSQIL {
  hyper : Hyper;
  expert_dataset : option ExpertDataset;
  model : QFunction;
  replay_buffer : B;
  reward_based_sampler : option RewardBasedSampler.t;
  t : Z;
  optim_t : Z;
  _cumulative_steps : Z;
  target_model : option QFunction;
  batch_last_obs : option (list (option Obs));
  batch_last_action : option (list (option nat));
  training : bool
}.
Arguments mkSQIL {B}.
Arguments hyper {B}.
Arguments expert_dataset {B}.
Arguments model {B}.
Arguments replay_buffer {B}.
Arguments reward_based_sampler {B}.
Arguments t {B}.
Arguments optim_t {B}.
Arguments _cumulative_steps {B}.
Arguments target_model {B}.
Arguments batch_last_obs {B}.
Arguments batch_last_action {B}.
Arguments training {B}.

Section Setters.
Context {B : Type}.
Implicit Type a : SQIL B.

Definition set_expert_dataset a v :=
  mkSQIL (hyper a) v (model a) (replay_buffer a) (reward_based_sampler a)
    (t a) (optim_t a) (_cumulative_steps a) (target_model a)
    (batch_last_obs a) (batch_last_action a) (training a).
Definition set_model a v :=
  mkSQIL (hyper a) (expert_dataset a) v (replay_buffer a)
    (reward_based_sampler a) (t a) (optim_t a) (_cumulative_steps a)
    (target_model a) (batch_last_obs a) (batch_last_action a) (training a).
Definition set_replay_buffer a (v : B) :=
  mkSQIL (hyper a) (expert_dataset a) (model a) v (reward_based_sampler a)
    (t a) (optim_t a) (_cumulative_steps a) (target_model a)
    (batch_last_obs a) (batch_last_action a) (training a).
Definition set_reward_based_sampler a v :=
  mkSQIL (hyper a) (expert_dataset a) (model a) (replay_buffer a) v
    (t a) (optim_t a) (_cumulative_steps a) (target_model a)
    (batch_last_obs a) (batch_last_action a) (training a).
Definition set_t a v :=
  mkSQIL (hyper a) (expert_dataset a) (model a) (replay_buffer a)
    (reward_based_sampler a) v (optim_t a) (_cumulative_steps a)
    (target_model a) (batch_last_obs a) (batch_last_action a) (training a).
Definition set_optim_t a v :=
  mkSQIL (hyper a) (expert_dataset a) (model a) (replay_buffer a)
    (reward_based_sampler a) (t a) v (_cumulative_steps a)
    (target_model a) (batch_last_obs a) (batch_last_action a) (training a).
Definition set_cumulative_steps a v :=
  mkSQIL (hyper a) (expert_dataset a) (model a) (replay_buffer a)
    (reward_based_sampler a) (t a) (optim_t a) v
    (target_model a) (batch_last_obs a) (batch_last_action a) (training a).
Definition set_target_model a v :=
  mkSQIL (hyper a) (expert_dataset a) (model a) (replay_buffer a)
    (reward_based_sampler a) (t a) (optim_t a) (_cumulative_steps a)
    v (batch_last_obs a) (batch_last_action a) (training a).
Definition set_batch_last a vo va :=
  mkSQIL (hyper a) (expert_dataset a) (model a) (replay_buffer a)
    (reward_based_sampler a) (t a) (optim_t a) (_cumulative_steps a)
    (target_model a) vo va (training a).
Definition set_training a v :=
  mkSQIL (hyper a) (expert_dataset a) (model a) (replay_buffer a)
    (reward_based_sampler a) (t a) (optim_t a) (_cumulative_steps a)
    (target_model a) (batch_last_obs a) (batch_last_action a) v.
End Setters.

(** *** Target synchronisation *)

Section TargetSync.
Local Open Scope R_scope.

(** Modelled from the spec: pfrl.utils.copy_param.synchronize_parameters
    (not under src/).  ['hard'] copies every parameter of [src] into
    [dst]; ['soft'] blends, [dst <- (1 - tau) * dst + tau * src],
    component by component; any other method is a key error. *)
Definition soft_copy (tau : R) (dst_w src_w : list R) : list R :=
  Tensor.zip_with (fun tv sv => (1 - tau) * tv + tau * sv) dst_w src_w.

Definition synchronize_parameters (src dst : QFunction) (method : string)
    (tau : R) : Result QFunction :=
  if String.eqb method "hard" then
    Ok (mkQFunction (arch dst) (weights src) (training_mode dst))
  else if String.eqb method "soft" then
    Ok (mkQFunction (arch dst) (soft_copy tau (weights dst) (weights src))
          (training_mode dst))
  else Raise KeyError.

(** [copy.deepcopy(self.model)] followed by [.eval()]. *)
Definition clone_eval (m : QFunction) : QFunction :=
  mkQFunction (arch m) (weights m) false.

(** [SQIL.sync_target_network] *)
Definition sync_target_network {B} (a : SQIL B) : SQIL B * Result unit :=
  match target_model a with
  | None => (set_target_model a (Some (clone_eval (model a))), Ok tt)
  | Some tm =>
      match synchronize_parameters (model a) tm
              (target_update_method (hyper a)) (soft_update_tau (hyper a))
      with
      | Ok tm' => (set_target_model a (Some tm'), Ok tt)
      | Raise e => (a, Raise e)
      end
  end.
End TargetSync.

(** *** The blended loss *)

Section CombinedLoss.
Local Open Scope R_scope.
Context {B : Type}.

(** [SQIL.__compute_loss] *)
Definition __compute_loss (a : SQIL B) (exp_batch : Batch) : Result R :=
  match target_model a with
  | None => Raise TypeError
  | Some tm =>
      let (y, t) := _compute_y_and_t (model a) tm exp_batch in
      match batch_weights exp_batch with
      | Some w =>
          compute_weighted_value_loss y t w (clip_delta (hyper a))
            (batch_accumulator (hyper a))
      | None =>
          compute_value_loss y t (clip_delta (hyper a))
            (batch_accumulator (hyper a))
      end
  end.

(** [SQIL._compute_loss] *)
Definition _compute_loss (a : SQIL B) (exp_batch demo_batch : Batch)
  : Result R :=
  exp_loss <- __compute_loss a exp_batch ;;
  demo_loss <- __compute_loss a demo_batch ;;
  Ok ((exp_loss * experience_lambda (hyper a) + demo_loss) / 2).

(** Lines 496-503 of [SQIL.__compute_loss]: the errors appended to
    [errors_out], [|y - t|] summed over the trailing dimension of size 1. *)
Definition td_errors (y t : list R) : list R :=
  Tensor.zip_with (fun a b => Rabs (a - b)) y t.

(** The TD errors [SQIL.__compute_loss] writes into [errors_out]. *)
Definition __compute_loss_errors (a : SQIL B) (exp_batch : Batch)
  : Result (list R) :=
  match target_model a with
  | None => Raise TypeError
  | Some tm =>
      let (y, t) := _compute_y_and_t (model a) tm exp_batch in
      Ok (td_errors y t)
  end.
End CombinedLoss.

(** *** Updates *)

Section Update.
Context {B : Type} `{ReplayBufferLike B}.

(** [[elem[0]["weight"] for elem in experiences]] *)
Fixpoint weights_of (experiences : list Experience) : Result (list R) :=
  match experiences with
  | [] => Ok []
  | e :: rest =>
      match e with
      | [] => Raise IndexError
      | tr :: _ =>
          match weight tr with
          | None => Raise KeyError
          | Some w => ws <- weights_of rest ;; Ok (w :: ws)
          end
      end
  end.

Definition with_weights (b : Batch) (w : list R) : Batch :=
  mkBatch (batch_state b) (batch_action b) (batch_reward b)
    (batch_next_state b) (batch_is_state_terminal b) (batch_discount b)
    (Some w).

(** The experience batch of [update], with the importance weights when the
    first transition carries one. *)
Definition experience_batch (a : SQIL B) (experiences : list Experience)
    (has_weight : bool) : Result Batch :=
  b <- batch_experiences experiences (gamma (hyper a)) ;;
  if has_weight then
    w <- weights_of experiences ;;
    Ok (with_weights b w)
  else Ok b.

(** The demonstrations of [update]: from the reward-based sampler when
    there is one, else drawn directly.  The sampler and the agent hold
    the same dataset object. *)
Definition demo_experiences (a : SQIL B) (experiences : list Experience)
  : SQIL B * Result (list Experience) :=
  match reward_based_sampler a with
  | Some s =>
      let (s', r) := RewardBasedSampler.sample s experiences in
      (set_expert_dataset (set_reward_based_sampler a (Some s'))
         (Some (RewardBasedSampler.expert_dataset s')), r)
  | None =>
      match load_experiences_from_demonstrations (expert_dataset a)
              (batchsize (replay_updater (hyper a))) (reward_scale (hyper a))
      with
      | Raise e => (a, Raise e)
      | Ok (demo, d) => (set_expert_dataset a (Some d), Ok demo)
      end
  end.

Definition with_model_weights (m : QFunction) (w : list R) : QFunction :=
  mkQFunction (arch m) w (training_mode m).

(** Lines 405-406 of [SQIL.update]: on the weighted path the TD errors of
    the experience batch, left in [errors_out] by [_compute_loss], are
    handed to the replay buffer. *)
Definition report_errors (a : SQIL B) (exp_batch : Batch) (has_weight : bool)
  : Result B :=
  if has_weight then
    errors_out <- __compute_loss_errors a exp_batch ;;
    rb_update_errors (replay_buffer a) errors_out
  else Ok (replay_buffer a).

(** [SQIL.update] *)
Definition update (a : SQIL B) (experiences : list Experience)
  : SQIL B * Result unit :=
  match experiences with
  | [] => (a, Raise IndexError)
  | [] :: _ => (a, Raise IndexError)
  | (first :: _) :: _ =>
      let has_weight :=
        match weight first with Some _ => true | None => false end in
      match experience_batch a experiences has_weight with
      | Raise e => (a, Raise e)
      | Ok exp_batch =>
          match demo_experiences a experiences with
          | (a1, Raise e) => (a1, Raise e)
          | (a1, Ok demo) =>
              match
                (demo_batch <- batch_experiences demo (gamma (hyper a1)) ;;
                 _ <- _compute_loss a1 exp_batch demo_batch ;;
                 Ok demo_batch)
              with
              | Raise e => (a1, Raise e)
              | Ok demo_batch =>
                  match report_errors a1 exp_batch has_weight with
                  | Raise e => (a1, Raise e)
                  | Ok rb =>
                      let a2 := set_replay_buffer a1 rb in
                      let loss_of w :=
                        match
                          _compute_loss
                            (set_model a2 (with_model_weights (model a2) w))
                            exp_batch demo_batch
                        with
                        | Ok l => l
                        | Raise _ => 0%R
                        end in
                      let w' := opt_step (optimizer (hyper a2)) loss_of
                                  (weights (model a2)) in
                      (set_optim_t
                         (set_model a2 (with_model_weights (model a2) w'))
                         (optim_t a2 + 1)%Z,
                       Ok tt)
                  end
              end
          end
      end
  end.

(** The repetitions of one triggered update. *)
Fixpoint update_n_times (a : SQIL B) (n : nat) : SQIL B * Result unit :=
  match n with
  | O => (a, Ok tt)
  | S n' =>
      let (r, rb) :=
        rb_sample (replay_buffer a) (batchsize (replay_updater (hyper a))) in
      let a0 := set_replay_buffer a rb in
      match r with
      | Raise e => (a0, Raise e)
      | Ok transitions =>
          match update a0 transitions with
          | (a1, Raise e) => (a1, Raise e)
          | (a1, Ok _) => update_n_times a1 n'
          end
      end
  end.

(** Modelled from the spec: the update scheduler
    (pfrl.replay_buffer.ReplayUpdater.update_if_necessary, not under
    src/).  Nothing happens while the buffer holds fewer than
    [replay_start_size] transitions or when the step count is not a
    multiple of [update_interval]; otherwise a minibatch is sampled and
    the update function runs, [n_times_update] times. *)
Definition update_if_necessary (a : SQIL B) (iteration : Z)
  : SQIL B * Result unit :=
  let ru := replay_updater (hyper a) in
  if (Z.of_nat (rb_len (replay_buffer a)) <? ru_replay_start_size ru)%Z
  then (a, Ok tt)
  else if (ru_update_interval ru =? 0)%Z then (a, Raise ZeroDivisionError)
  else if negb (iteration mod ru_update_interval ru =? 0)%Z then (a, Ok tt)
  else update_n_times a (n_times_update ru).

(** [SQIL._can_start_replay] *)
Definition _can_start_replay (a : SQIL B) : bool :=
  if (Z.of_nat (rb_len (replay_buffer a)) <? replay_start_size (hyper a))%Z
  then false
  else true.
End Update.

(** *** Acting and observing *)

Section ActObserve.
Context {B : Type} `{ReplayBufferLike B}.

(** Index of the first largest entry of a row. *)
Fixpoint argmax_from (best_i : nat) (best : R) (i : nat) (row : list R)
  : nat :=
  match row with
  | [] => best_i
  | x :: r =>
      if Rlt_dec best x then argmax_from i x (S i) r
      else argmax_from best_i best (S i) r
  end.

Definition argmax (row : list R) : nat :=
  match row with
  | [] => O
  | x :: r => argmax_from O x 1 r
  end.

(** [SQIL.batch_act] *)
Definition batch_act (a : SQIL B) (batch_obs : list Obs)
  : SQIL B * list nat :=
  let batch_av := forward (model a) batch_obs in
  let batch_action :=
    map (fun av => select_action (explorer (hyper a)) (t a) (argmax av) av)
        batch_av in
  if training a then
    (set_batch_last a (Some (map Some batch_obs))
       (Some (map Some batch_action)), batch_action)
  else (a, batch_action).

(** [xs[i] = None] *)
Fixpoint clear_at {A} (xs : list (option A)) (i : nat) : list (option A) :=
  match xs, i with
  | [], _ => []
  | _ :: r, O => None :: r
  | x :: r, S i' => x :: clear_at r i'
  end.

(** Lines 586-612: the transition of slot [i], if any, enters the buffer. *)
Definition record_transition (a : SQIL B) (i : nat) (batch_obs : list Obs)
    (batch_reward : list R) (batch_done batch_reset : list bool)
  : SQIL B * Result unit :=
  match batch_last_obs a with
  | None => (a, Raise AttributeError)
  | Some last_obs =>
      match nth_error last_obs i with
      | None => (a, Raise IndexError)
      | Some None => (a, Ok tt)
      | Some (Some s) =>
          match batch_last_action a with
          | None => (a, Raise AttributeError)
          | Some last_action =>
              match nth_error last_action i with
              | None => (a, Raise IndexError)
              | Some None => (a, Raise AssertionError)
              | Some (Some act) =>
                  match nth_error batch_reward i, nth_error batch_obs i,
                        nth_error batch_done i with
                  | Some r, Some ob, Some done =>
                      let tr := mkTransition s act r ob None done None in
                      let a1 :=
                        set_replay_buffer a
                          (rb_append (replay_buffer a) i tr) in
                      match nth_error batch_reset i with
                      | None => (a1, Raise IndexError)
                      | Some reset =>
                          if reset || done then
                            (set_replay_buffer
                               (set_batch_last a1
                                  (Some (clear_at last_obs i))
                                  (Some (clear_at last_action i)))
                               (rb_stop_current_episode (replay_buffer a1) i),
                             Ok tt)
                          else (a1, Ok tt)
                      end
                  | _, _, _ => (a, Raise IndexError)
                  end
              end
          end
      end
  end.

(** Lines 581-612 for slot [i]: the counters, the target sync and the
    recording of the transition, up to the call of the scheduler. *)
Definition before_update (a : SQIL B) (i : nat) (batch_obs : list Obs)
    (batch_reward : list R) (batch_done batch_reset : list bool)
  : SQIL B * Result unit :=
  let a1 := set_t a (t a + 1)%Z in
  let a2 := set_cumulative_steps a1 (_cumulative_steps a1 + 1)%Z in
  if (target_update_interval (hyper a2) =? 0)%Z
  then (a2, Raise ZeroDivisionError)
  else
    match
      (if (t a2 mod target_update_interval (hyper a2) =? 0)%Z
       then sync_target_network a2 else (a2, Ok tt))
    with
    | (a3, Raise e) => (a3, Raise e)
    | (a3, Ok _) =>
        record_transition a3 i batch_obs batch_reward batch_done batch_reset
    end.

(** One round of the loop of [_batch_observe_train]. *)
Definition observe_slot (a : SQIL B) (i : nat) (batch_obs : list Obs)
    (batch_reward : list R) (batch_done batch_reset : list bool)
  : SQIL B * Result unit :=
  match before_update a i batch_obs batch_reward batch_done batch_reset with
  | (a4, Raise e) => (a4, Raise e)
  | (a4, Ok _) => update_if_necessary a4 (t a4)
  end.

Fixpoint observe_loop (a : SQIL B) (slots : list nat) (batch_obs : list Obs)
    (batch_reward : list R) (batch_done batch_reset : list bool)
  : SQIL B * Result unit :=
  match slots with
  | [] => (a, Ok tt)
  | i :: rest =>
      match observe_slot a i batch_obs batch_reward batch_done batch_reset
      with
      | (a', Raise e) => (a', Raise e)
      | (a', Ok _) =>
          observe_loop a' rest batch_obs batch_reward batch_done batch_reset
      end
  end.

(** [SQIL._batch_observe_train] *)
Definition _batch_observe_train (a : SQIL B) (batch_obs : list Obs)
    (batch_reward : list R) (batch_done batch_reset : list bool)
  : SQIL B * Result unit :=
  observe_loop a (seq 0 (List.length batch_obs)) batch_obs batch_reward
    batch_done batch_reset.

(** [SQIL._batch_observe_eval]: nothing to do without recurrent state. *)
Definition _batch_observe_eval (a : SQIL B) (batch_obs : list Obs)
    (batch_reward : list R) (batch_done batch_reset : list bool)
  : SQIL B * Result unit := (a, Ok tt).

(** [SQIL.batch_observe] *)
Definition batch_observe (a : SQIL B) (batch_obs : list Obs)
    (batch_reward : list R) (batch_done batch_reset : list bool)
  : SQIL B * Result unit :=
  if training a then
    _batch_observe_train a batch_obs batch_reward batch_done batch_reset
  else _batch_observe_eval a batch_obs batch_reward batch_done batch_reset.

(** [SQIL.cumulative_steps] *)
Definition cumulative_steps (a : SQIL B) : Z := _cumulative_steps a.

(** [SQIL.get_statistics]: the entries cumulative_steps, n_updates, rlen. *)
Definition get_statistics (a : SQIL B) : Z * Z * nat :=
  (cumulative_steps a, optim_t a, rb_len (replay_buffer a)).

(** [SQIL.stop_episode] *)
Definition stop_episode (a : SQIL B) : SQIL B := a.
End ActObserve.

(** *** Construction *)

(** The arguments of [SQIL.__init__]. *)
Module Args.
Record t (B : Type) : Type := mk {
  q_function : QFunction;
  optimizer : Optimizer;
  replay_buffer : B;
  gamma : R;
  explorer : Explorer;
  gpu : option Z;
  replay_start_size : Z;
  minibatch_size : nat;
  update_interval : Z;
  target_update_interval : Z;
  clip_delta : bool;
  target_update_method : string;
  soft_update_tau : R;
  n_times_update : nat;
  batch_accumulator : string;
  expert_dataset : option ExpertDataset;
  reward_scale : R;
  experience_lambda : R;
  reward_boundaries : option (list R)
}.
Arguments mk {B}.
Arguments q_function {B}.
Arguments optimizer {B}.
Arguments replay_buffer {B}.
Arguments gamma {B}.
Arguments explorer {B}.
Arguments gpu {B}.
Arguments replay_start_size {B}.
Arguments minibatch_size {B}.
Arguments update_interval {B}.
Arguments target_update_interval {B}.
Arguments clip_delta {B}.
Arguments target_update_method {B}.
Arguments soft_update_tau {B}.
Arguments n_times_update {B}.
Arguments batch_accumulator {B}.
Arguments expert_dataset {B}.
Arguments reward_scale {B}.
Arguments experience_lambda {B}.
Arguments reward_boundaries {B}.
End Args.

Section Construction.
Context {B : Type} `{ReplayBufferLike B}.

(** The default [max_buffer_size] of [RewardBasedSampler]. *)
Definition default_max_buffer_size : nat := 1000.

Definition hyper_of (args : Args.t B) : Hyper :=
  mkHyper (Args.optimizer args) (Args.gamma args) (Args.explorer args)
    (Args.target_update_interval args) (Args.clip_delta args)
    (Args.target_update_method args) (Args.soft_update_tau args)
    (Args.batch_accumulator args)
    (mkReplayUpdater (Args.minibatch_size args) (Args.n_times_update args)
       (Args.replay_start_size args) (Args.update_interval args))
    (Args.minibatch_size args) (Args.replay_start_size args)
    (Args.update_interval args) (Args.reward_scale args)
    (Args.experience_lambda args).

(** Lines 300-322: the counters, the first target sync and the capacity
    check, once the sampler (if any) exists. *)
Definition finish_init (args : Args.t B)
    (sampler : option RewardBasedSampler.t)
    (dataset : option ExpertDataset) : Result (SQIL B) :=
  let a0 :=
    mkSQIL (hyper_of args) dataset (Args.q_function args)
      (Args.replay_buffer args) sampler 0%Z 0%Z 0%Z None None None true in
  match sync_target_network a0 with
  | (a1, Raise e) => Raise e
  | (a1, Ok _) =>
      match rb_capacity (replay_buffer a1) with
      | Some c =>
          if (c <? ru_replay_start_size (replay_updater (hyper a1)))%Z
          then Raise ValueError
          else Ok a1
      | None => Ok a1
      end
  end.

(** [SQIL.__init__].  [cuda_available] and the generator [g] stand for
    [torch.cuda.is_available()] and the global random state; [None] when
    [fuel] rounds do not fill the sampler's buckets. *)
Definition __init__ (fuel : nat) (cuda_available : bool) (g : Rng)
    (args : Args.t B) : option (Result (SQIL B)) :=
  let gpu_requested :=
    match Args.gpu args with
    | Some n => (0 <=? n)%Z
    | None => false
    end in
  if gpu_requested && negb cuda_available then Some (Raise AssertionError)
  else if negb (accumulator_ok (Args.batch_accumulator args))
  then Some (Raise AssertionError)
  else if (Args.update_interval args =? 0)%Z
  then Some (Raise ZeroDivisionError)
  else if negb (Args.target_update_interval args
                  mod Args.update_interval args =? 0)%Z
  then Some (Raise AssertionError)
  else
    match Args.reward_boundaries args, Args.expert_dataset args with
    | Some reward_boundaries, Some d =>
        match RewardBasedSampler.__init__ fuel d reward_boundaries
                default_max_buffer_size (Args.reward_scale args) g with
        | None => None
        | Some (Raise e) => Some (Raise e)
        | Some (Ok s) =>
            Some (finish_init args (Some s)
                    (Some (RewardBasedSampler.expert_dataset s)))
        end
    | _, _ => Some (finish_init args None (Args.expert_dataset args))
    end.
End Construction.

(** *** The operations of an agent *)

Inductive Op : Type :=
| Op_batch_act (batch_obs : list Obs)
| Op_batch_observe (batch_obs : list Obs) (batch_reward : list R)
    (batch_done batch_reset : list bool)
| Op_update (experiences : list Experience)
| Op_sync_target_network
| Op_stop_episode
| Op_get_statistics
| Op_cumulative_steps
| Op_can_start_replay
| Op_set_training (flag : bool).

Section Operations.
Context {B : Type} `{ReplayBufferLike B}.

(** The agent after an operation (also after one that raises). *)
Definition run_op (a : SQIL B) (op : Op) : SQIL B :=
  match op with
  | Op_batch_act batch_obs => fst (batch_act a batch_obs)
  | Op_batch_observe batch_obs batch_reward batch_done batch_reset =>
      fst (batch_observe a batch_obs batch_reward batch_done batch_reset)
  | Op_update experiences => fst (update a experiences)
  | Op_sync_target_network => fst (sync_target_network a)
  | Op_stop_episode => stop_episode a
  | Op_get_statistics => a
  | Op_cumulative_steps => a
  | Op_can_start_replay => a
  | Op_set_training flag => set_training a flag
  end.

Definition run_ops (a : SQIL B) (ops : list Op) : SQIL B :=
  fold_left run_op ops a.

(** The agents on which the update scheduler is called, in order, while
    the slots of one [_batch_observe_train] are processed. *)
Fixpoint scheduler_calls_loop (a : SQIL B) (slots : list nat)
    (batch_obs : list Obs) (batch_reward : list R)
    (batch_done batch_reset : list bool) : list (SQIL B) :=
  match slots with
  | [] => []
  | i :: rest =>
      match before_update a i batch_obs batch_reward batch_done batch_reset
      with
      | (_, Raise _) => []
      | (a4, Ok _) =>
          a4 ::
          match update_if_necessary a4 (t a4) with
          | (_, Raise _) => []
          | (a', Ok _) =>
              scheduler_calls_loop a' rest batch_obs batch_reward
                batch_done batch_reset
          end
      end
  end.

Definition scheduler_calls (a : SQIL B) (op : Op) : list (SQIL B) :=
  match op with
  | Op_batch_observe batch_obs batch_reward batch_done batch_reset =>
      if training a then
        scheduler_calls_loop a (seq 0 (List.length batch_obs)) batch_obs
          batch_reward batch_done batch_reset
      else []
  | _ => []
  end.

(** The same along a sequence of operations. *)
Fixpoint scheduler_calls_ops (a : SQIL B) (ops : list Op)
  : list (SQIL B) :=
  match ops with
  | [] => []
  | op :: rest => scheduler_calls a op ++ scheduler_calls_ops (run_op a op) rest
  end.

(** No operation of the sequence calls [update] directly. *)
Definition is_update (op : Op) : bool :=
  match op with Op_update _ => true | _ => false end.
End Operations.

(** ** Notions used to state the properties *)

Section Notions.
Local Open Scope R_scope.

(** [m] is the largest entry of [q]. *)
Definition is_max (m : R) (q : list R) : Prop :=
  In m q /\ forall x, In x q -> x <= m.

(** The soft value as the specification writes it:
    [m + log(sum_a exp(q_a - m))] for the largest entry [m] of [q]. *)
Definition log_sum_exp (m : R) (q : list R) : R :=
  m + ln (Tensor.sum (map (fun x => exp (x - m)) q)).

(** All columns of a batch have one row per experience. *)
Definition batch_wf (b : Batch) : Prop :=
  List.length (batch_state b) = List.length (batch_reward b) /\
  List.length (batch_action b) = List.length (batch_reward b) /\
  List.length (batch_next_state b) = List.length (batch_reward b) /\
  List.length (batch_is_state_terminal b) = List.length (batch_reward b) /\
  List.length (batch_discount b) = List.length (batch_reward b).

(** The target network's action values at the next state of row [i]. *)
Definition target_q (tm : QFunction) (b : Batch) (i : nat) : list R :=
  arch tm (weights tm) (nth i (batch_next_state b) []).

(** Entry [k] of [q] is [m] and every other entry is at least [d] below. *)
Definition spread_at_least (d : R) (q : list R) (m : R) : Prop :=
  exists k, (k < List.length q)%nat /\ nth k q 0 = m /\
    forall i, (i < List.length q)%nat -> i <> k -> nth i q 0 <= m - d.


(** The bucket of an experience: the policy index of the state of its
    first transition. *)
Definition policy_bucket (reward_boundaries : list R) (frame : Experience)
  : option nat :=
  match frame with
  | [] => None
  | tr :: _ =>
      match RewardBasedSampler._policy_index reward_boundaries (state tr) with
      | Ok k => Some k
      | Raise _ => None
      end
  end.

(** How many of the experiences fall into bucket [k]. *)
Definition bucket_count (reward_boundaries : list R)
    (experiences : list Experience) (k : nat) : nat :=
  List.length
    (filter (fun frame =>
               match policy_bucket reward_boundaries frame with
               | Some j => Nat.eqb j k
               | None => false
               end) experiences).

(** The observation of the [j]-th coming draw of a dataset. *)
Definition coming_obs (d : ExpertDataset) (j : nat) : Obs :=
  let '(ob, _, _, _, _) := draws d (cursor d + j) in ob.

(** [x] lies strictly between [u] and [v]. *)
Definition strictly_between (u v x : R) : Prop :=
  Rmin u v < x < Rmax u v.
End Notions.

(** ** Relations between states *)

(** The bucket [b'] holds at least as many demonstrations as [b]. *)
Definition grows (b b' : ReplayBuffer.t) : Prop :=
  ReplayBuffer.len b <= ReplayBuffer.len b'.

Section StateRelations.
Context {B : Type} `{ReplayBufferLike B}.
Implicit Type a : SQIL B.

(** [a'] has the step counters and the setup of [a]. *)
Definition same_steps a a' : Prop :=
  t a' = t a /\ _cumulative_steps a' = _cumulative_steps a /\
  hyper a' = hyper a.

(** [a'] has moreover the update counter of [a]. *)
Definition no_update a a' : Prop :=
  same_steps a a' /\ optim_t a' = optim_t a.

(** The buffer of [a] holds fewer than [replay_start_size] transitions. *)
Definition below_start a : Prop :=
  (Z.of_nat (rb_len (replay_buffer a)) < replay_start_size (hyper a))%Z.

(** The scheduler and the agent agree on the start size. *)
Definition start_size_shared a : Prop :=
  ru_replay_start_size (replay_updater (hyper a)) = replay_start_size (hyper a).
End StateRelations.

(** ** Example data *)

Section Examples.
Local Open Scope R_scope.

(** A network with two actions valued 0 at every state. *)
Definition flat_net : QFunction := mkQFunction (fun _ _ => [0; 0]) [] false.

(** One non-terminal row with reward 1 and discount 1/2. *)
Definition running_row : Batch :=
  mkBatch [[]] [O] [1] [[]] [float_of_bool false] [/ 2] None.

(** One terminal row with reward 1 and discount 1/2. *)
Definition terminal_row : Batch :=
  mkBatch [[]] [O] [1] [[]] [float_of_bool true] [/ 2] None.

(** A generator that always yields 0, an optimizer that leaves the weights
    alone and an explorer that follows the greedy action. *)
Definition zero_rng : Rng := mkRng (fun _ => O) O.
Definition idle_optimizer : Optimizer := mkOptimizer (fun _ w => w).
Definition greedy_explorer : Explorer := mkExplorer (fun _ greedy _ => greedy).

(** An empty replay buffer of capacity 10. *)
Definition small_buffer : ReplayBuffer.t * Rng :=
  (ReplayBuffer.new 10, zero_rng).

(** Arguments without expert dataset: start size 2, every interval 1. *)
Definition plain_args : Args.t (ReplayBuffer.t * Rng) :=
  Args.mk flat_net idle_optimizer small_buffer (/ 2) greedy_explorer None
    2%Z 1%nat 1%Z 1%Z true "hard" (/ 100) 1%nat "mean" None 1 1 None.

(** The agent these arguments construct. *)
Definition plain_agent : SQIL (ReplayBuffer.t * Rng) :=
  mkSQIL (hyper_of plain_args) None flat_net small_buffer None 0%Z 0%Z 0%Z
    (Some (clone_eval flat_net)) None None true.
End Examples.


Section SamplerExamples.
Local Open Scope R_scope.

(** The observation whose entry at [-1, 0, 0] is [c]. *)
Definition obs_of (c : R) : Obs := [[[c]]].

(** A dataset whose draws alternate between cumulative returns 0 and 1. *)
Definition alternating_dataset : ExpertDataset :=
  mkExpertDataset
    (fun n => if Nat.even n then (obs_of 0, O, 0, obs_of 0, false)
              else (obs_of 1, O, 0, obs_of 1, false))
    O.

(** An on-policy experience at cumulative return 0. *)
Definition early_experience : Experience :=
  [mkTransition (obs_of 0) O 0 (obs_of 0) None false None].

(** An on-policy experience at cumulative return 1. *)
Definition late_experience : Experience :=
  [mkTransition (obs_of 1) O 0 (obs_of 1) None false None].
End SamplerExamples.

Section TinySampler.
Local Open Scope R_scope.

(** The demonstrations stored for cumulative returns 0 and 1. *)
Definition demo_at (c : R) : Transition :=
  mkTransition (obs_of c) O 1 (obs_of c) None false None.

(** The sampler built from [alternating_dataset] with the single boundary 1,
    reward 1 and buckets of size 1: after two draws each of the two buckets
    holds one demonstration. *)
Definition tiny_sampler : RewardBasedSampler.t :=
  RewardBasedSampler.mk
    (mkExpertDataset (draws alternating_dataset) 2)
    [1]
    [ReplayBuffer.mk (Some 1%nat) [[demo_at 0]];
     ReplayBuffer.mk (Some 1%nat) [[demo_at 1]]]
    1 zero_rng.
End TinySampler.

Section SyncExamples.
Local Open Scope R_scope.

(** A one-weight network. *)
Definition one_weight (w : R) : QFunction :=
  mkQFunction (fun ws _ => ws) [w] false.

(** An agent in soft mode with coefficient [tau], online weight 1 and
    target weight 0. *)
Definition soft_agent (tau : R) : SQIL (ReplayBuffer.t * Rng) :=
  mkSQIL
    (mkHyper idle_optimizer (/ 2) greedy_explorer 1%Z true "soft" tau "mean"
       (mkReplayUpdater 1 1 2%Z 1%Z) 1%nat 2%Z 1%Z 1 1)
    None (one_weight 1) small_buffer None 0%Z 0%Z 0%Z
    (Some (one_weight 0)) None None true.
End SyncExamples.

Section AgentExamples.
Local Open Scope R_scope.


(** One environment slot: act on an observation, then observe the next. *)
Definition one_step : list Op :=
  [Op_batch_act [obs_of 0];
   Op_batch_observe [obs_of 0] [0] [false] [false]].

(** The plain agent, given the alternating expert dataset. *)
Definition taught_agent : SQIL (ReplayBuffer.t * Rng) :=
  set_expert_dataset plain_agent (Some alternating_dataset).

End AgentExamples.
(** ** Further functions of the module *)

Section Statistics.
Local Open Scope R_scope.

(** [_mean_or_nan]: the mean of a non-empty sequence; [None] stands for
    [numpy.nan], returned for an empty one. *)
Definition _mean_or_nan (xs : list R) : option R :=
  match xs with
  | [] => None
  | _ => Some (Tensor.sum xs / INR (List.length xs))
  end.

(** The unstabilised soft value [log(sum_a exp(q_a))]. *)
Definition plain_log_sum_exp (q : list R) : R :=
  ln (Tensor.sum (map exp q)).
End Statistics.

Section EpisodeEnds.

(** The list comprehension of lines 96-100, counting positions from [i]. *)
Fixpoint indices_that_ended_from (i : nat) (batch_done batch_reset : list bool)
  : list nat :=
  match batch_done, batch_reset with
  | done :: ds, reset :: rs =>
      if done || reset then i :: indices_that_ended_from (S i) ds rs
      else indices_that_ended_from (S i) ds rs
  | _, _ => []
  end.

Definition indices_that_ended (batch_done batch_reset : list bool)
  : list nat :=
  indices_that_ended_from O batch_done batch_reset.

(** [_batch_reset_recurrent_states_when_episodes_end], over any type of
    recurrent states and the masking function it is given. *)
Definition _batch_reset_recurrent_states_when_episodes_end {S : Type}
    (mask_recurrent_state_at : S -> list nat -> S)
    (batch_done batch_reset : list bool) (recurrent_states : S) : S :=
  match indices_that_ended batch_done batch_reset with
  | [] => recurrent_states
  | indices => mask_recurrent_state_at recurrent_states indices
  end.
End EpisodeEnds.

Section DemonstrationNotions.
Local Open Scope R_scope.

(** The demonstration built from one draw of the expert dataset, labelled
    with [reward] (lines 114-120 and 153-159). *)
Definition demonstration_of (reward : R) (dr : Draw) : Transition :=
  let '(ob, act, _, next_ob, done) := dr in
  mkTransition ob act reward next_ob None done None.

(** [frame] is a single demonstration labelled [reward_scale] whose state
    has policy index [k]. *)
Definition sorted_frame (reward_boundaries : list R) (reward_scale : R)
    (k : nat) (frame : Experience) : Prop :=
  exists tr,
    frame = [tr] /\
    RewardBasedSampler._policy_index reward_boundaries (state tr) = Ok k /\
    reward tr = reward_scale /\
    next_action tr = None.

(** Bucket [k], [k + 1], ... hold only frames sorted into them. *)
Fixpoint stratified_from (reward_boundaries : list R) (reward_scale : R)
    (k : nat) (bufs : list ReplayBuffer.t) : Prop :=
  match bufs with
  | [] => True
  | rbuf :: rest =>
      Forall (sorted_frame reward_boundaries reward_scale k)
             (ReplayBuffer.memory rbuf) /\
      stratified_from reward_boundaries reward_scale (S k) rest
  end.

Definition stratified (s : RewardBasedSampler.t) : Prop :=
  stratified_from (RewardBasedSampler.reward_boundaries s)
    (RewardBasedSampler.reward_scale s) O
    (RewardBasedSampler.replay_buffers s).

(** Every bucket has capacity [size] and holds exactly [size] frames. *)
Definition buckets_full (size : nat) (bufs : list ReplayBuffer.t) : Prop :=
  Forall (fun rbuf => ReplayBuffer.capacity rbuf = Some size /\
                      ReplayBuffer.len rbuf = size) bufs.

(** A bucket of capacity [size] holding at most [size] frames. *)
Definition bounded_bucket (size : nat) (rbuf : ReplayBuffer.t) : Prop :=
  ReplayBuffer.capacity rbuf = Some size /\
  (ReplayBuffer.len rbuf <= size)%nat.
End DemonstrationNotions.

Section AgentNotions.
Context {B : Type}.

(** [a'] differs from [a] at most in the expert dataset and the
    reward-based sampler (the state consumed when demonstrations are
    drawn). *)
Definition only_demonstrations_drawn (a a' : SQIL B) : Prop :=
  hyper a' = hyper a /\ model a' = model a /\
  replay_buffer a' = replay_buffer a /\ t a' = t a /\
  optim_t a' = optim_t a /\ _cumulative_steps a' = _cumulative_steps a /\
  target_model a' = target_model a /\
  batch_last_obs a' = batch_last_obs a /\
  batch_last_action a' = batch_last_action a /\ training a' = training a.

(** The transition recorded for a slot: cached observation and action, the
    reward and the new observation, terminal exactly when [done]. *)
Definition recorded_transition (s : Obs) (act : nat) (r : R) (ob : Obs)
    (done : bool) : Transition :=
  mkTransition s act r ob None done None.
End AgentNotions.

Section LabelNotions.

(** [frame] is a single transition labelled [label], without next action. *)
Definition labelled_demonstration (label : R) (frame : Experience) : Prop :=
  exists tr, frame = [tr] /\ reward tr = label /\ next_action tr = None.
End LabelNotions.

(* ================================================================== *)
(** * Part II: properties                                              *)
(* ================================================================== *)

(** ** Tensors *)

Section TensorFacts.
Local Open Scope R_scope.

Lemma zip_with_length {A B C} (f : A -> B -> C) xs ys :
  List.length (Tensor.zip_with f xs ys)
  = Nat.min (List.length xs) (List.length ys).
Proof.
  revert ys; induction xs as [|x xs IH]; intros [|y ys]; simpl; auto.
Qed.

Lemma nth_zip_with {A B C} (f : A -> B -> C) xs ys i dx dy dz :
  (i < List.length xs)%nat -> (i < List.length ys)%nat ->
  nth i (Tensor.zip_with f xs ys) dz = f (nth i xs dx) (nth i ys dy).
Proof.
  revert ys i; induction xs as [|x xs IH]; intros [|y ys] [|i];
    simpl; intros Hx Hy; try lia; auto.
  apply IH; lia.
Qed.

Lemma zip_with_const_r {A C} (f : A -> R -> C) (xs : list A) (c : R) :
  Tensor.zip_with f xs (map (fun _ => c) xs) = map (fun x => f x c) xs.
Proof. induction xs as [|x xs IH]; simpl; congruence. Qed.

Lemma fold_left_Rmax_ge r : forall v, v <= fold_left Rmax r v.
Proof.
  induction r as [|x r IH]; intro v; simpl; [lra|].
  eapply Rle_trans; [apply (Rmax_l v x) | apply IH].
Qed.

Lemma fold_left_Rmax_upper r :
  forall v x, In x r -> x <= fold_left Rmax r v.
Proof.
  induction r as [|y r IH]; intros v x Hin; simpl in *; [tauto|].
  destruct Hin as [->|Hin]; [|now apply IH].
  eapply Rle_trans; [apply (Rmax_r v x) | apply fold_left_Rmax_ge].
Qed.

Lemma fold_left_Rmax_in r : forall v, In (fold_left Rmax r v) (v :: r).
Proof.
  induction r as [|y r IH]; intro v; simpl; [auto|].
  destruct (IH (Rmax v y)) as [Heq|Hin]; [|auto].
  rewrite <- Heq.
  unfold Rmax; destruct (Rle_dec v y); auto.
Qed.

(** [Tensor.max] computes the largest entry of a non-empty row. *)
Lemma max_is_max q : q <> [] -> is_max (Tensor.max q) q.
Proof.
  destruct q as [|v r]; [congruence|]; intros _; split.
  - apply fold_left_Rmax_in.
  - intros x [<-|Hin]; simpl.
    + apply fold_left_Rmax_ge.
    + now apply fold_left_Rmax_upper.
Qed.

Lemma is_max_unique m1 m2 q : is_max m1 q -> is_max m2 q -> m1 = m2.
Proof.
  intros [Hin1 Hub1] [Hin2 Hub2].
  apply Rle_antisym; auto.
Qed.

(** The soft value of one row, as the tensor pipeline computes it. *)
Lemma next_q_soft_cons q qs :
  next_q_soft (q :: qs)
  = log_sum_exp (Tensor.max q) q :: next_q_soft qs.
Proof.
  unfold next_q_soft, log_sum_exp; simpl.
  f_equal.
  unfold Tensor.sub; rewrite zip_with_const_r, map_map.
  destruct q; reflexivity.
Qed.

Lemma next_q_soft_length qs :
  List.length (next_q_soft qs) = List.length qs.
Proof.
  induction qs as [|q qs IH]; [reflexivity|].
  rewrite next_q_soft_cons; simpl; congruence.
Qed.

Lemma next_q_soft_nth qs i :
  (i < List.length qs)%nat ->
  nth i (next_q_soft qs) 0
  = log_sum_exp (Tensor.max (nth i qs [])) (nth i qs []).
Proof.
  revert i; induction qs as [|q qs IH]; intros i Hi; simpl in Hi; [lia|].
  rewrite next_q_soft_cons.
  destruct i as [|i]; simpl; [reflexivity|].
  apply IH; lia.
Qed.
End TensorFacts.

(** ** The soft value *)

Section SoftValue.
Local Open Scope R_scope.

Lemma ln_le_mono x y : 0 < x -> x <= y -> ln x <= ln y.
Proof.
  intros Hx [Hlt| ->]; [left; now apply ln_increasing | right; reflexivity].
Qed.

Lemma exp_le_mono x y : x <= y -> exp x <= exp y.
Proof.
  intros [Hlt| ->]; [left; now apply exp_increasing | right; reflexivity].
Qed.

Lemma ln_one_plus_le x : 0 <= x -> ln (1 + x) <= x.
Proof.
  intros [Hpos| <-]; [|rewrite Rplus_0_r, ln_1; lra].
  rewrite <- (ln_exp x) at 2.
  apply ln_le_mono; [lra|].
  left; apply exp_ineq1; lra.
Qed.

Section Sums.
Variable f : R -> R.
Hypothesis f_pos : forall x, 0 < f x.

Lemma sum_map_nonneg q : 0 <= Tensor.sum (map f q).
Proof.
  induction q as [|x q IH]; simpl; [lra|].
  specialize (f_pos x); lra.
Qed.

Lemma sum_map_pos q : q <> [] -> 0 < Tensor.sum (map f q).
Proof.
  destruct q as [|x q]; [congruence|]; intros _; simpl.
  pose proof (sum_map_nonneg q); specialize (f_pos x); lra.
Qed.

Lemma sum_map_ge_member m q : In m q -> f m <= Tensor.sum (map f q).
Proof.
  induction q as [|x q IH]; simpl; [tauto|].
  intros [->|Hin].
  - pose proof (sum_map_nonneg q); lra.
  - specialize (IH Hin); specialize (f_pos x); lra.
Qed.

Lemma sum_map_gt_member m q :
  In m q -> (2 <= List.length q)%nat -> f m < Tensor.sum (map f q).
Proof.
  destruct q as [|x q]; simpl; [tauto|].
  intros [->|Hin] Hlen.
  - assert (q <> []) by (destruct q; simpl in Hlen; [lia|congruence]).
    pose proof (sum_map_pos q H); lra.
  - pose proof (sum_map_ge_member m q Hin); specialize (f_pos x); lra.
Qed.

(** One entry contributes 1, every other at most [c]. *)
Lemma sum_map_spread (c : R) q :
  0 <= c ->
  forall k, (k < List.length q)%nat -> f (nth k q 0) = 1 ->
  (forall i, (i < List.length q)%nat -> i <> k -> f (nth i q 0) <= c) ->
  Tensor.sum (map f q) <= 1 + INR (List.length q - 1) * c.
Proof.
  intros Hc.
  assert (Hall : forall r, (forall i, (i < List.length r)%nat ->
                              f (nth i r 0) <= c) ->
                 Tensor.sum (map f r) <= INR (List.length r) * c).
  { induction r as [|x r IH]; intros Hr.
    - simpl; lra.
    - change (List.length (x :: r)) with (S (List.length r)).
      rewrite S_INR; simpl Tensor.sum.
      assert (f x <= c) by (apply (Hr O); simpl; lia).
      assert (Tensor.sum (map f r) <= INR (List.length r) * c).
      { apply IH; intros i Hi; apply (Hr (S i)); simpl; lia. }
      simpl in *; lra. }
  induction q as [|x q IH]; intros k Hk Hone Hoth; simpl in Hk; [lia|].
  simpl List.length; rewrite Nat.sub_succ, Nat.sub_0_r; simpl Tensor.sum.
  destruct k as [|k].
  - simpl in Hone.
    assert (Tensor.sum (map f q) <= INR (List.length q) * c).
    { apply Hall; intros i Hi.
      apply (Hoth (S i)); simpl; [lia|discriminate]. }
    simpl in *; lra.
  - assert (f x <= c) by (apply (Hoth O); simpl; [lia|discriminate]).
    assert (Tensor.sum (map f q) <= 1 + INR (List.length q - 1) * c).
    { apply (IH k); [lia|exact Hone|].
      intros i Hi Hne; apply (Hoth (S i)); simpl; [lia|congruence]. }
    assert (INR (List.length q) = INR (List.length q - 1) + 1).
    { rewrite <- S_INR; f_equal; lia. }
    simpl in *; nra.
Qed.
End Sums.

Lemma exp_shift_pos m : forall x, 0 < exp (x - m).
Proof. intro x; apply exp_pos. Qed.

Lemma sum_exp_ge_1 m q :
  is_max m q -> 1 <= Tensor.sum (map (fun x => exp (x - m)) q).
Proof.
  intros [Hin _].
  pose proof (sum_map_ge_member _ (exp_shift_pos m) m q Hin) as Hge.
  simpl in Hge; rewrite Rminus_diag, exp_0 in Hge; exact Hge.
Qed.

Lemma log_sum_exp_ge_max m q : is_max m q -> m <= log_sum_exp m q.
Proof.
  intro Hmax; unfold log_sum_exp.
  pose proof (sum_exp_ge_1 m q Hmax) as Hge.
  pose proof (ln_le_mono 1 _ Rlt_0_1 Hge) as Hln.
  rewrite ln_1 in Hln; lra.
Qed.

Lemma log_sum_exp_gt_max m q :
  is_max m q -> (2 <= List.length q)%nat -> m < log_sum_exp m q.
Proof.
  intros [Hin _] Hlen; unfold log_sum_exp.
  pose proof (sum_map_gt_member _ (exp_shift_pos m) m q Hin Hlen) as Hgt.
  simpl in Hgt; rewrite Rminus_diag, exp_0 in Hgt.
  pose proof (ln_increasing 1 _ Rlt_0_1 Hgt) as Hln.
  rewrite ln_1 in Hln; lra.
Qed.

Lemma log_sum_exp_single m : log_sum_exp m [m] = m.
Proof.
  unfold log_sum_exp; simpl.
  rewrite Rminus_diag, exp_0, Rplus_0_r, ln_1; lra.
Qed.

Lemma log_sum_exp_eq_max_iff m q :
  is_max m q -> (log_sum_exp m q = m <-> List.length q = 1%nat).
Proof.
  intro Hmax; split.
  - intro Heq.
    destruct (le_lt_dec 2 (List.length q)) as [Hge|Hlt].
    + pose proof (log_sum_exp_gt_max m q Hmax Hge); lra.
    + destruct Hmax as [Hin _].
      destruct q as [|x q]; [destruct Hin|].
      simpl in *; lia.
  - intro Hlen.
    destruct q as [|x [|y q]]; simpl in Hlen; try discriminate.
    destruct Hmax as [[->|[]] _].
    apply log_sum_exp_single.
Qed.

Lemma log_sum_exp_spread m q d :
  spread_at_least d q m ->
  log_sum_exp m q - m <= INR (List.length q - 1) * exp (- d).
Proof.
  intros (k & Hk & Hkm & Hoth); unfold log_sum_exp.
  assert (Hsum : Tensor.sum (map (fun x => exp (x - m)) q)
                 <= 1 + INR (List.length q - 1) * exp (- d)).
  { apply (sum_map_spread (fun x => exp (x - m)) (exp (- d)) q
             (Rlt_le _ _ (exp_pos _)) k Hk).
    - rewrite Hkm, Rminus_diag; apply exp_0.
    - intros i Hi Hne; apply exp_le_mono.
      specialize (Hoth i Hi Hne); lra. }
  assert (Hpos : 0 < Tensor.sum (map (fun x => exp (x - m)) q)).
  { apply (sum_map_pos _ (exp_shift_pos m)).
    destruct q; simpl in Hk; [lia|congruence]. }
  pose proof (ln_le_mono _ _ Hpos Hsum) as Hln.
  assert (Hnn : 0 <= INR (List.length q - 1) * exp (- d)).
  { apply Rmult_le_pos; [apply pos_INR | left; apply exp_pos]. }
  pose proof (ln_one_plus_le _ Hnn).
  lra.
Qed.
End SoftValue.

(** ** The soft-Bellman target *)

Section Target.
Local Open Scope R_scope.

Lemma target_values_length tm b :
  batch_wf b ->
  List.length (_compute_target_values tm b) = List.length (batch_reward b).
Proof.
  intros (_ & _ & Hns & Hterm & Hdisc).
  unfold _compute_target_values, Tensor.add, Tensor.mul, Tensor.rsub, forward.
  rewrite !zip_with_length, next_q_soft_length, !length_map.
  lia.
Qed.

Lemma target_values_nth tm b i :
  batch_wf b -> (i < List.length (batch_reward b))%nat ->
  nth i (_compute_target_values tm b) 0
  = nth i (batch_reward b) 0
    + nth i (batch_discount b) 0
      * (1 - nth i (batch_is_state_terminal b) 0)
      * log_sum_exp (Tensor.max (target_q tm b i)) (target_q tm b i).
Proof.
  intros (_ & _ & Hns & Hterm & Hdisc) Hi.
  unfold _compute_target_values, Tensor.add, Tensor.mul, Tensor.rsub, forward.
  rewrite (nth_zip_with Rplus _ _ i 0 0 0);
    [|lia|rewrite !zip_with_length, next_q_soft_length, !length_map; lia].
  rewrite (nth_zip_with Rmult _ _ i 0 0 0);
    [|rewrite !zip_with_length, !length_map; lia
     |rewrite next_q_soft_length, !length_map; lia].
  rewrite (nth_zip_with Rmult _ _ i 0 0 0);
    [|lia|rewrite length_map; lia].
  rewrite next_q_soft_nth by (rewrite length_map; lia).
  rewrite (nth_indep (map (fun v => 1 - v) _) 0 (1 - 0))
    by (rewrite length_map; lia).
  rewrite (map_nth (fun v => 1 - v)).
  unfold target_q.
  rewrite (nth_indep (map _ (batch_next_state b)) []
             (arch tm (weights tm) []))
    by (rewrite length_map; lia).
  rewrite (map_nth (arch tm (weights tm))).
  reflexivity.
Qed.

(** Every batch built by the batch assembler is well formed. *)
Lemma batch_rows_wf gamma es : forall b,
  batch_rows gamma es = Ok b -> batch_wf b.
Proof.
  induction es as [|e es IH]; intros b Hb; simpl in Hb.
  - injection Hb as <-; repeat split.
  - destruct (batch_row gamma e) as [[[[[[s a] rw] ns] term] d]|x];
      [|discriminate].
    simpl in Hb.
    destruct (batch_rows gamma es) as [b0|x]; [|discriminate].
    injection Hb as <-.
    destruct (IH b0 eq_refl) as (H1 & H2 & H3 & H4 & H5).
    repeat split; simpl; congruence.
Qed.

Lemma batch_experiences_wf es gamma b :
  batch_experiences es gamma = Ok b -> batch_wf b.
Proof.
  unfold batch_experiences; destruct es; [discriminate|].
  apply batch_rows_wf.
Qed.

(** C1: for every well-formed batch the target has one entry per row,
    entry [i] is reward + discount * (1 - terminal) * softvalue where
    softvalue is max + log(sum exp(Q - max)) over the target network's
    action values at the next state, and with two or more actions and a
    non-zero factor it differs from the hard-max target. *)
Theorem compute_target_values_soft_bellman (tm : QFunction) (b : Batch) :
  batch_wf b ->
  List.length (_compute_target_values tm b) = List.length (batch_reward b) /\
  forall i m,
    (i < List.length (batch_reward b))%nat ->
    is_max m (target_q tm b i) ->
    nth i (_compute_target_values tm b) 0
    = nth i (batch_reward b) 0
      + nth i (batch_discount b) 0
        * (1 - nth i (batch_is_state_terminal b) 0)
        * (m + ln (Tensor.sum (map (fun x => exp (x - m)) (target_q tm b i))))
    /\ ((2 <= List.length (target_q tm b i))%nat ->
        nth i (batch_discount b) 0
          * (1 - nth i (batch_is_state_terminal b) 0) <> 0 ->
        nth i (_compute_target_values tm b) 0
        <> nth i (batch_reward b) 0
           + nth i (batch_discount b) 0
             * (1 - nth i (batch_is_state_terminal b) 0) * m).
Proof.
  intro Hwf; split; [now apply target_values_length|].
  intros i m Hi Hmax.
  assert (Hm : Tensor.max (target_q tm b i) = m).
  { apply (is_max_unique _ _ (target_q tm b i)); [|exact Hmax].
    apply max_is_max; destruct Hmax as [Hin _].
    intro Hnil; rewrite Hnil in Hin; destruct Hin. }
  rewrite target_values_nth, Hm by assumption.
  split; [reflexivity|].
  intros Hlen Hfactor Heq.
  pose proof (log_sum_exp_gt_max m _ Hmax Hlen) as Hgt.
  apply Hfactor.
  apply (Rmult_eq_reg_r (log_sum_exp m (target_q tm b i) - m)); [|lra].
  lra.
Qed.

(** C7: a row whose terminal flag is set has its reward as target,
    whatever the target network computes. *)
Theorem terminal_target_is_reward (tm : QFunction) (b : Batch) (i : nat) :
  batch_wf b ->
  (i < List.length (batch_reward b))%nat ->
  nth i (batch_is_state_terminal b) 0 = float_of_bool true ->
  nth i (_compute_target_values tm b) 0 = nth i (batch_reward b) 0.
Proof.
  intros Hwf Hi Hterm.
  rewrite target_values_nth, Hterm by assumption.
  simpl; ring.
Qed.

(** C9: the soft value of a row of action values is at least its largest
    entry, equals it exactly when there is a single action, and tends to
    it as all other entries fall further below the largest one. *)
Theorem soft_value_dominates_hard_max :
  (forall (qs : list (list R)) (i : nat) (m : R),
      (i < List.length qs)%nat ->
      is_max m (nth i qs []) ->
      m <= nth i (next_q_soft qs) 0 /\
      (nth i (next_q_soft qs) 0 = m <-> List.length (nth i qs []) = 1%nat)) /\
  (forall (n : nat) (eps : R),
      0 < eps ->
      exists D, forall (d : R) (qs : list (list R)) (i : nat) (m : R),
        D <= d ->
        (i < List.length qs)%nat ->
        List.length (nth i qs []) = n ->
        is_max m (nth i qs []) ->
        spread_at_least d (nth i qs []) m ->
        Rabs (nth i (next_q_soft qs) 0 - m) < eps).
Proof.
  split.
  - intros qs i m Hi Hmax.
    assert (Hm : Tensor.max (nth i qs []) = m).
    { apply (is_max_unique _ _ (nth i qs [])); [|exact Hmax].
      apply max_is_max; destruct Hmax as [Hin _].
      intro Hnil; rewrite Hnil in Hin; destruct Hin. }
    rewrite next_q_soft_nth, Hm by assumption.
    split; [now apply log_sum_exp_ge_max | now apply log_sum_exp_eq_max_iff].
  - intros n eps Heps.
    exists (- ln (eps / INR (S n))).
    intros d qs i m HD Hi Hlen Hmax Hspread.
    assert (Hm : Tensor.max (nth i qs []) = m).
    { apply (is_max_unique _ _ (nth i qs [])); [|exact Hmax].
      apply max_is_max; destruct Hmax as [Hin _].
      intro Hnil; rewrite Hnil in Hin; destruct Hin. }
    rewrite next_q_soft_nth, Hm by assumption.
    pose proof (log_sum_exp_ge_max m _ Hmax) as Hge.
    pose proof (log_sum_exp_spread m _ d Hspread) as Hle.
    rewrite Hlen in Hle.
    assert (HSn : 0 < INR (S n)) by (apply lt_0_INR; lia).
    assert (Hq : 0 < eps / INR (S n)) by (apply Rdiv_lt_0_compat; lra).
    assert (Hexp : exp (- d) <= eps / INR (S n)).
    { rewrite <- (exp_ln (eps / INR (S n))) by exact Hq.
      apply exp_le_mono; lra. }
    assert (Hn : INR (n - 1) < INR (S n)) by (apply lt_INR; lia).
    assert (Hn0 : 0 <= INR (n - 1)) by apply pos_INR.
    assert (Hbound : INR (n - 1) * exp (- d) < eps).
    { apply Rle_lt_trans with (INR (n - 1) * (eps / INR (S n))).
      - apply Rmult_le_compat_l; assumption.
      - apply Rlt_le_trans with (INR (S n) * (eps / INR (S n))).
        + apply Rmult_lt_compat_r; assumption.
        + right; field; lra. }
    rewrite Rabs_right by lra.
    lra.
Qed.
End Target.

Section TargetWitnesses.
Local Open Scope R_scope.

Lemma is_max_flat : is_max 0 [0; 0].
Proof.
  split; [left; reflexivity|].
  intros x [<-|[<-|[]]]; lra.
Qed.

Lemma running_row_wf : batch_wf running_row.
Proof. repeat split. Qed.

Lemma terminal_row_wf : batch_wf terminal_row.
Proof. repeat split. Qed.

Lemma compute_target_values_soft_bellman_witness :
  batch_wf running_row /\
  nth 0 (_compute_target_values flat_net running_row) 0
  = 1 + / 2 * (1 - 0) * (0 + ln (Tensor.sum [exp (0 - 0); exp (0 - 0)])).
Proof.
  split; [exact running_row_wf|].
  apply (proj1 (proj2 (compute_target_values_soft_bellman flat_net
                         running_row running_row_wf)
                 O 0 (Nat.lt_0_succ 0) is_max_flat)).
Defined.

Lemma terminal_target_is_reward_witness :
  nth 0 (_compute_target_values flat_net terminal_row) 0 = 1.
Proof.
  apply (terminal_target_is_reward flat_net terminal_row O).
  - exact terminal_row_wf.
  - simpl; lia.
  - reflexivity.
Defined.

Lemma soft_value_dominates_hard_max_witness :
  0 <= nth 0 (next_q_soft [[0; 0]]) 0 /\
  exists D, forall (d : R) (qs : list (list R)) (i : nat) (m : R),
    D <= d ->
    (i < List.length qs)%nat ->
    List.length (nth i qs []) = 2%nat ->
    is_max m (nth i qs []) ->
    spread_at_least d (nth i qs []) m ->
    Rabs (nth i (next_q_soft qs) 0 - m) < 1.
Proof.
  split.
  - apply (proj1 soft_value_dominates_hard_max [[0; 0]] O 0).
    + simpl; lia.
    + exact is_max_flat.
  - apply (proj2 soft_value_dominates_hard_max 2%nat 1); lra.
Defined.
End TargetWitnesses.

(** ** The blended loss *)

Section BlendedLoss.
Local Open Scope R_scope.
Context {B : Type}.
Implicit Type a : SQIL B.

(** Whether [__compute_loss] raises depends on the agent only. *)
Lemma __compute_loss_raise a e d x :
  __compute_loss a e = Raise x -> __compute_loss a d = Raise x.
Proof.
  unfold __compute_loss.
  destruct (target_model a) as [tm|]; [|auto].
  destruct (_compute_y_and_t (model a) tm e) as [y t0].
  destruct (_compute_y_and_t (model a) tm d) as [y' t'].
  unfold compute_weighted_value_loss, compute_value_loss.
  destruct (accumulator_ok (batch_accumulator (hyper a))); simpl.
  - destruct (batch_weights e); destruct (clip_delta (hyper a)); discriminate.
  - destruct (batch_weights e); destruct (batch_weights d); auto.
Qed.

Lemma _compute_loss_ok a e d le ld :
  __compute_loss a e = Ok le -> __compute_loss a d = Ok ld ->
  _compute_loss a e d = Ok ((le * experience_lambda (hyper a) + ld) / 2).
Proof. intros He Hd; unfold _compute_loss; rewrite He, Hd; reflexivity. Qed.

Lemma _compute_loss_swap_lambda_1 a e d :
  experience_lambda (hyper a) = 1 ->
  _compute_loss a e d = _compute_loss a d e.
Proof.
  intro Hl; unfold _compute_loss.
  destruct (__compute_loss a e) as [le|x] eqn:He;
    destruct (__compute_loss a d) as [ld|y] eqn:Hd; simpl.
  - rewrite Hl; f_equal; lra.
  - reflexivity.
  - rewrite (__compute_loss_raise a e d x He) in Hd; discriminate.
  - rewrite (__compute_loss_raise a e d x He) in Hd; congruence.
Qed.

Lemma _compute_loss_asymmetric a e d le ld :
  experience_lambda (hyper a) <> 1 ->
  __compute_loss a e = Ok le -> __compute_loss a d = Ok ld -> le <> ld ->
  _compute_loss a e d <> _compute_loss a d e.
Proof.
  intros Hl He Hd Hne.
  rewrite (_compute_loss_ok a e d le ld He Hd).
  rewrite (_compute_loss_ok a d e ld le Hd He).
  intro Heq; injection Heq as Heq.
  apply Hl.
  apply (Rmult_eq_reg_r (le - ld)); [|lra].
  lra.
Qed.

(** Two one-row terminal batches with losses 0 and 1/2. *)
Lemma terminal_single_target tm s act r ns d :
  _compute_target_values tm (mkBatch [s] [act] [r] [ns] [1] [d] None) = [r].
Proof.
  unfold _compute_target_values, forward; simpl.
  rewrite next_q_soft_cons.
  unfold Tensor.add, Tensor.mul, Tensor.rsub; simpl.
  f_equal; ring.
Qed.

Lemma single_row_loss y t0 clip acc :
  accumulator_ok acc = true ->
  compute_value_loss [y] [t0] clip acc
  = Ok (if clip then smooth_l1 y t0 else mse y t0 / 2).
Proof.
  intro Hacc; unfold compute_value_loss; rewrite Hacc; simpl.
  unfold reduce; destruct (String.eqb acc "mean"); destruct clip;
    simpl; f_equal; field.
Qed.

Lemma smooth_l1_same y : smooth_l1 y y = 0.
Proof.
  unfold smooth_l1; rewrite Rminus_diag, Rabs_R0.
  destruct (Rlt_dec 0 1); lra.
Qed.

Lemma smooth_l1_one y : smooth_l1 y (y + 1) = / 2.
Proof.
  unfold smooth_l1.
  replace (y - (y + 1)) with (- (1)) by ring.
  rewrite Rabs_Ropp, Rabs_R1.
  destruct (Rlt_dec 1 1); lra.
Qed.

Lemma exists_losses a tm :
  target_model a = Some tm ->
  accumulator_ok (batch_accumulator (hyper a)) = true ->
  exists e d, __compute_loss a e = Ok 0 /\ __compute_loss a d = Ok (/ 2).
Proof.
  intros Htm Hacc.
  set (y0 := nth O (arch (model a) (weights (model a)) []) 0).
  exists (mkBatch [[]] [O] [y0] [[]] [1] [0] None),
         (mkBatch [[]] [O] [y0 + 1] [[]] [1] [0] None).
  unfold __compute_loss, _compute_y_and_t; rewrite Htm.
  rewrite !terminal_single_target.
  unfold forward, evaluate_actions.
  cbn [map Tensor.zip_with batch_state batch_action batch_weights].
  fold y0.
  rewrite !single_row_loss by exact Hacc.
  destruct (clip_delta (hyper a)).
  - rewrite smooth_l1_same, smooth_l1_one; auto.
  - unfold mse; split; f_equal; field.
Qed.

(** C2: the combined loss is (loss(exp) * experience_lambda + loss(demo)) / 2;
    with experience_lambda = 1 swapping the two batches never changes it,
    with experience_lambda <> 1 it changes for every pair of batches with
    different losses, and such pairs exist: swapping is harmless for all
    pairs exactly when experience_lambda = 1. *)
Theorem combined_loss_blend_and_swap a :
  (forall e d le ld,
      __compute_loss a e = Ok le -> __compute_loss a d = Ok ld ->
      _compute_loss a e d
      = Ok ((le * experience_lambda (hyper a) + ld) / 2)) /\
  (experience_lambda (hyper a) = 1 ->
   forall e d, _compute_loss a e d = _compute_loss a d e) /\
  (experience_lambda (hyper a) <> 1 ->
   forall e d le ld,
     __compute_loss a e = Ok le -> __compute_loss a d = Ok ld -> le <> ld ->
     _compute_loss a e d <> _compute_loss a d e) /\
  (forall tm,
      target_model a = Some tm ->
      accumulator_ok (batch_accumulator (hyper a)) = true ->
      ((forall e d, _compute_loss a e d = _compute_loss a d e)
       <-> experience_lambda (hyper a) = 1)).
Proof.
  split; [apply _compute_loss_ok|].
  split; [intros Hl e d; now apply _compute_loss_swap_lambda_1|].
  split; [intros Hl e d le ld; now apply _compute_loss_asymmetric|].
  intros tm Htm Hacc; split.
  - intro Hswap.
    destruct (exists_losses a tm Htm Hacc) as (e & d & He & Hd).
    specialize (Hswap e d).
    rewrite (_compute_loss_ok a e d _ _ He Hd) in Hswap.
    rewrite (_compute_loss_ok a d e _ _ Hd He) in Hswap.
    injection Hswap as Hswap; lra.
  - intros Hl e d; now apply _compute_loss_swap_lambda_1.
Qed.
End BlendedLoss.

Section BlendedLossWitness.
Local Open Scope R_scope.

Lemma combined_loss_blend_and_swap_witness :
  _compute_loss plain_agent running_row terminal_row
  = _compute_loss plain_agent terminal_row running_row /\
  ((forall e d, _compute_loss plain_agent e d = _compute_loss plain_agent d e)
   <-> experience_lambda (hyper plain_agent) = 1).
Proof.
  split.
  - apply (proj1 (proj2 (combined_loss_blend_and_swap plain_agent))).
    reflexivity.
  - apply (proj2 (proj2 (proj2 (combined_loss_blend_and_swap plain_agent)))
             (clone_eval flat_net)); reflexivity.
Defined.
End BlendedLossWitness.

(** ** The reward-based sampler *)

Section PolicyIndex.
Local Open Scope R_scope.
Import RewardBasedSampler.

Lemma gtb_true_iff x y : gtb x y = true <-> y < x.
Proof. unfold gtb; destruct (Rlt_dec y x); split; auto; discriminate. Qed.

Lemma gtb_false_iff x y : gtb x y = false <-> x <= y.
Proof.
  unfold gtb; destruct (Rlt_dec y x); split; intro; try discriminate; lra.
Qed.

Lemma count_true_le bs : (count_true bs <= List.length bs)%nat.
Proof. induction bs as [|[] bs IH]; simpl; lia. Qed.





End PolicyIndex.

Section SamplerSample.
Import RewardBasedSampler.

(** The index of a classified observation selects a bucket. *)
Lemma policy_index_bound bs ob k :
  _policy_index bs ob = Ok k -> k <= List.length bs.
Proof.
  unfold _policy_index.
  destruct (last_channel_scalar ob) as [c|e]; [|discriminate]; simpl.
  destruct (rev bs) as [|b_last r]; [discriminate|].
  intro Hk; injection Hk as <-.
  pose proof (count_true_le
                (map (fun b => gtb c (b / b_last - tolerance)%R) bs)) as Hle.
  rewrite length_map in Hle; exact Hle.
Qed.

(** *** Buckets only grow *)

Lemma append_grows b tr : grows b (ReplayBuffer.append b tr).
Proof.
  unfold grows, ReplayBuffer.append, ReplayBuffer.len.
  destruct (ReplayBuffer.capacity b) as [c|]; simpl.
  - destruct (Nat.ltb c _); simpl.
    + destruct (ReplayBuffer.memory b); simpl; [lia|].
      rewrite length_app; simpl; lia.
    + rewrite length_app; simpl; lia.
  - rewrite length_app; simpl; lia.
Qed.

Lemma grows_refl_all bufs : Forall2 grows bufs bufs.
Proof. induction bufs; constructor; unfold grows; auto. Qed.

Lemma grows_trans_all b1 : forall b2 b3,
  Forall2 grows b1 b2 -> Forall2 grows b2 b3 -> Forall2 grows b1 b3.
Proof.
  induction b1 as [|x b1 IH]; intros b2 b3 H12 H23;
    inversion H12; subst; inversion H23; subst; constructor.
  - unfold grows in *; lia.
  - eapply IH; eassumption.
Qed.

Lemma append_at_grows bufs : forall k tr bufs',
  append_at bufs k tr = Ok bufs' -> Forall2 grows bufs bufs'.
Proof.
  induction bufs as [|b bufs IH]; intros k tr bufs' Happ; simpl in Happ.
  - destruct k; discriminate.
  - destruct k as [|k].
    + injection Happ as <-.
      constructor; [apply append_grows | apply grows_refl_all].
    + destruct (append_at bufs k tr) as [rest|e] eqn:Hrest; [|discriminate].
      injection Happ as <-.
      constructor; [unfold grows; lia | eapply IH; eassumption].
Qed.

Lemma append_at_ok bufs : forall k tr,
  k < List.length bufs -> exists bufs', append_at bufs k tr = Ok bufs'.
Proof.
  induction bufs as [|b bufs IH]; intros k tr Hk; simpl in Hk; [lia|].
  destruct k as [|k]; simpl; [eauto|].
  destruct (IH k tr) as [rest Hrest]; [lia|].
  rewrite Hrest; simpl; eauto.
Qed.

Lemma update_buffer_inv n : forall s s' r,
  _update_buffer s n = (s', r) ->
  reward_boundaries s' = reward_boundaries s /\
  Forall2 grows (replay_buffers s) (replay_buffers s').
Proof.
  induction n as [|n IH]; intros s s' r Hup; simpl in Hup.
  - injection Hup as <- _; split; [reflexivity | apply grows_refl_all].
  - unfold dataset_sample in Hup.
    destruct (draws (expert_dataset s) (cursor (expert_dataset s)))
      as [[[[ob act] r0] next_ob] done].
    destruct (_policy_index (reward_boundaries s) ob) as [k|e]; simpl in Hup.
    + destruct (append_at (replay_buffers s) k _) as [bufs|e] eqn:Happ.
      * apply IH in Hup; simpl in Hup; destruct Hup as [Hbs Hgrow].
        split; [exact Hbs|].
        eapply grows_trans_all; [|exact Hgrow].
        eapply append_at_grows; eassumption.
      * injection Hup as <- _; simpl.
        split; [reflexivity | apply grows_refl_all].
    + injection Hup as <- _; simpl.
      split; [reflexivity | apply grows_refl_all].
Qed.

Lemma update_buffer_ok n : forall s,
  List.length (replay_buffers s) = List.length (reward_boundaries s) + 1 ->
  (forall j, j < n ->
     exists k, _policy_index (reward_boundaries s)
                 (coming_obs (expert_dataset s) j) = Ok k) ->
  exists s', _update_buffer s n = (s', Ok tt).
Proof.
  induction n as [|n IH]; intros s Hlen Hcls; simpl; [eauto|].
  destruct (Hcls O) as [k Hk]; [lia|].
  unfold coming_obs in Hk; rewrite Nat.add_0_r in Hk.
  unfold dataset_sample.
  destruct (draws (expert_dataset s) (cursor (expert_dataset s)))
    as [[[[ob act] r0] next_ob] done] eqn:Hdraw.
  rewrite Hk; simpl.
  destruct (append_at_ok (replay_buffers s) k
              (mkTransition ob act (reward_scale s) next_ob None done None))
    as [bufs Hbufs].
  { apply policy_index_bound in Hk; lia. }
  rewrite Hbufs.
  apply IH; simpl.
  - apply append_at_grows, Forall2_length in Hbufs; lia.
  - intros j Hj.
    destruct (Hcls (S j)) as [k' Hk']; [lia|].
    exists k'; unfold coming_obs in *; simpl.
    rewrite Nat.add_succ_r in Hk'; exact Hk'.
Qed.

(** *** Counting the experiences per bucket *)

Lemma incr_at_inv ns : forall k ns',
  incr_at ns k = Ok ns' ->
  List.length ns' = List.length ns /\
  (forall j, nth j ns' 0 = nth j ns 0 + (if Nat.eqb k j then 1 else 0)).
Proof.
  induction ns as [|n ns IH]; intros k ns' Hin; simpl in Hin.
  - destruct k; discriminate.
  - destruct k as [|k].
    + injection Hin as <-; split; [reflexivity|].
      intros [|j]; simpl; lia.
    + destruct (incr_at ns k) as [rest|e] eqn:Hrest; [|discriminate].
      injection Hin as <-.
      destruct (IH k rest Hrest) as [Hlen Hnth].
      split; [simpl; congruence|].
      intros [|j]; simpl; [lia | apply Hnth].
Qed.

Lemma incr_at_ok ns : forall k,
  k < List.length ns -> exists ns', incr_at ns k = Ok ns'.
Proof.
  induction ns as [|n ns IH]; intros k Hk; simpl in Hk; [lia|].
  destruct k as [|k]; simpl; [eauto|].
  destruct (IH k) as [rest Hrest]; [lia|].
  rewrite Hrest; simpl; eauto.
Qed.

Lemma count_samples_inv bs exps : forall ns0 ns,
  count_samples bs exps ns0 = Ok ns ->
  List.length ns = List.length ns0 /\
  (forall j, nth j ns 0 = nth j ns0 0 + bucket_count bs exps j) /\
  Forall (fun frame => exists k, policy_bucket bs frame = Some k
                                 /\ k < List.length ns0) exps.
Proof.
  induction exps as [|frame exps IH]; intros ns0 ns Hc; simpl in Hc.
  - injection Hc as <-.
    split; [reflexivity|]; split; [|constructor].
    intro j; unfold bucket_count; simpl; lia.
  - destruct frame as [|tr rest]; [discriminate|].
    destruct (_policy_index bs (state tr)) as [k|e] eqn:Hk; [|discriminate].
    simpl in Hc.
    destruct (incr_at ns0 k) as [ns1|e] eqn:Hincr; [|discriminate].
    simpl in Hc.
    destruct (incr_at_inv ns0 k ns1 Hincr) as [Hlen1 Hnth1].
    destruct (IH ns1 ns Hc) as (Hlen & Hnth & Hall).
    split; [congruence|]; split.
    + intro j; rewrite Hnth, Hnth1.
      unfold bucket_count; simpl; rewrite Hk.
      destruct (Nat.eqb k j); simpl; lia.
    + constructor.
      * exists k; simpl; rewrite Hk; split; [reflexivity|].
        destruct (le_lt_dec (List.length ns0) k) as [Hge|]; [|assumption].
        exfalso; clear - Hincr Hge.
        revert k Hincr Hge; revert ns1.
        induction ns0 as [|n ns0 IH0]; intros ns1 k Hincr Hge.
        -- destruct k; discriminate.
        -- destruct k as [|k]; simpl in *; [lia|].
           destruct (incr_at ns0 k) as [r|] eqn:Hr; [|discriminate].
           apply (IH0 r k Hr); lia.
      * rewrite Hlen1 in Hall; exact Hall.
Qed.

Lemma count_samples_ok bs exps : forall ns0,
  List.length ns0 = List.length bs + 1 ->
  Forall (fun frame => policy_bucket bs frame <> None) exps ->
  exists ns, count_samples bs exps ns0 = Ok ns.
Proof.
  induction exps as [|frame exps IH]; intros ns0 Hlen Hall; simpl; [eauto|].
  inversion Hall as [|? ? Hframe Hrest]; subst.
  destruct frame as [|tr rest]; [exfalso; apply Hframe; reflexivity|].
  simpl in Hframe.
  destruct (_policy_index bs (state tr)) as [k|e] eqn:Hk;
    [|exfalso; apply Hframe; reflexivity].
  simpl.
  destruct (incr_at_ok ns0 k) as [ns1 Hns1].
  { apply policy_index_bound in Hk; lia. }
  rewrite Hns1; simpl.
  apply IH; [|exact Hrest].
  apply incr_at_inv in Hns1; destruct Hns1 as [Hl _]; lia.
Qed.

(** *** Drawing from the buckets *)

Lemma in_firstn_in {A} (x : A) n l : In x (firstn n l) -> In x l.
Proof.
  intro Hin; rewrite <- (firstn_skipn n l); apply in_or_app; auto.
Qed.

Lemma in_skipn_in {A} (x : A) n l : In x (skipn n l) -> In x l.
Proof.
  intro Hin; rewrite <- (firstn_skipn n l); apply in_or_app; auto.
Qed.

Lemma pick_distinct_S g pool k :
  pick_distinct g pool (S k)
  = let j := Nat.modulo (tape g (pos g)) (List.length pool) in
    let (rest, g2) :=
      pick_distinct (mkRng (tape g) (S (pos g)))
        (firstn j pool ++ skipn (S j) pool) k in
    (nth j pool O :: rest, g2).
Proof. reflexivity. Qed.

Lemma pick_distinct_spec k : forall g pool,
  k <= List.length pool ->
  List.length (fst (pick_distinct g pool k)) = k /\
  Forall (fun i => In i pool) (fst (pick_distinct g pool k)).
Proof.
  induction k as [|k IH]; intros g pool Hk; [simpl; auto|].
  rewrite pick_distinct_S; cbv zeta.
  set (j := Nat.modulo (tape g (pos g)) (List.length pool)).
  assert (Hj : j < List.length pool) by (apply Nat.mod_upper_bound; lia).
  specialize (IH (mkRng (tape g) (S (pos g)))
                (firstn j pool ++ skipn (S j) pool)).
  destruct (pick_distinct (mkRng (tape g) (S (pos g)))
              (firstn j pool ++ skipn (S j) pool) k) as [rest g2].
  cbn [fst] in *.
  assert (Hpool : k <= List.length (firstn j pool ++ skipn (S j) pool)).
  { rewrite length_app, length_firstn, length_skipn; lia. }
  destruct (IH Hpool) as [Hlen Hin].
  split; [simpl; congruence|].
  constructor; [apply nth_In; exact Hj|].
  eapply Forall_impl; [|exact Hin].
  intros i Hi; apply in_app_or in Hi as [Hi|Hi];
    [eapply in_firstn_in | eapply in_skipn_in]; eassumption.
Qed.

Lemma sample_inv rbuf g n xs g' :
  ReplayBuffer.sample rbuf g n = Ok (xs, g') ->
  List.length xs = n /\
  Forall (fun x => In x (ReplayBuffer.memory rbuf)) xs.
Proof.
  unfold ReplayBuffer.sample, sample_n_k, assert.
  destruct (Nat.leb n (ReplayBuffer.len rbuf)) eqn:Hle; [|discriminate].
  simpl; intro Hs; injection Hs as <- _.
  apply Nat.leb_le in Hle.
  destruct (pick_distinct_spec n g (seq 0 (ReplayBuffer.len rbuf)))
    as [Hlen Hin]; [rewrite length_seq; exact Hle|].
  split; [rewrite length_map; exact Hlen|].
  apply Forall_map.
  eapply Forall_impl; [|exact Hin].
  intros i Hi; apply in_seq in Hi.
  apply nth_In; unfold ReplayBuffer.len in Hi; lia.
Qed.

Lemma sample_ok rbuf g n :
  n <= ReplayBuffer.len rbuf ->
  exists xs g', ReplayBuffer.sample rbuf g n = Ok (xs, g').
Proof.
  intro Hle; unfold ReplayBuffer.sample, sample_n_k, assert.
  apply Nat.leb_le in Hle; rewrite Hle; simpl.
  eexists; eexists; reflexivity.
Qed.

Lemma sample_short rbuf g n :
  ReplayBuffer.len rbuf < n ->
  ReplayBuffer.sample rbuf g n = Raise AssertionError.
Proof.
  intro Hlt; unfold ReplayBuffer.sample, assert.
  apply Nat.leb_gt in Hlt; rewrite Hlt; reflexivity.
Qed.

Lemma draw_all_inv bufs : forall ns g ret0 g' ret,
  List.length bufs = List.length ns ->
  draw_all bufs ns g ret0 = (g', Ok ret) ->
  exists parts,
    ret = ret0 ++ List.concat parts /\
    Forall2 (fun part n => List.length part = n) parts ns /\
    Forall2 (fun part rbuf =>
               Forall (fun x => In x (ReplayBuffer.memory rbuf)) part)
            parts bufs.
Proof.
  induction bufs as [|rbuf bufs IH]; intros [|n ns] g ret0 g' ret Hlen Hd;
    simpl in Hlen; try discriminate; simpl in Hd.
  - injection Hd as _ <-.
    exists []; simpl; rewrite app_nil_r; auto.
  - destruct (ReplayBuffer.sample rbuf g n) as [[samples g1]|e] eqn:Hs;
      [|discriminate].
    destruct (sample_inv _ _ _ _ _ Hs) as [Hn Hin].
    destruct (IH ns g1 (ret0 ++ samples) g' ret) as (parts & Hret & Hl & Hm);
      [lia | exact Hd |].
    exists (samples :: parts); simpl.
    rewrite Hret, <- app_assoc.
    split; [reflexivity|]; split; constructor; assumption.
Qed.

Lemma draw_all_ok bufs : forall ns g ret0,
  Forall2 (fun rbuf n => n <= ReplayBuffer.len rbuf) bufs ns ->
  exists g' ret, draw_all bufs ns g ret0 = (g', Ok ret).
Proof.
  induction bufs as [|rbuf bufs IH]; intros ns g ret0 Hall;
    inversion Hall as [|? n ? ns' Hn Hrest]; subst; simpl; [eauto|].
  destruct (sample_ok rbuf g n Hn) as (xs & g1 & Hs).
  rewrite Hs; apply IH; exact Hrest.
Qed.

Lemma zeros_length n : List.length (map (fun _ => O) (seq 0 n)) = n.
Proof. rewrite length_map, length_seq; reflexivity. Qed.

Lemma zeros_nth n j : nth j (map (fun _ : nat => O) (seq 0 n)) 0 = 0.
Proof.
  generalize 0 at 2; revert j.
  induction n as [|n IH]; intros [|j] start; simpl; auto.
Qed.

Lemma lengths_per_bucket (f : nat -> nat) parts : forall ns start,
  Forall2 (fun (part : list Experience) n => List.length part = n) parts ns ->
  (forall j, nth j ns 0 = f (start + j)) ->
  Forall2 (fun part k => List.length part = f k) parts
          (seq start (List.length ns)).
Proof.
  induction parts as [|part parts IH]; intros ns start Hall Hf;
    inversion Hall as [|? n ? ns' Hn Hrest]; subst; simpl; constructor.
  - specialize (Hf O); simpl in Hf; rewrite Nat.add_0_r in Hf; exact Hf.
  - apply IH; [exact Hrest|].
    intro j; specialize (Hf (S j)); simpl in Hf.
    rewrite Nat.add_succ_r in Hf; exact Hf.
Qed.

Lemma bucket_count_cons bs frame exps j :
  bucket_count bs (frame :: exps) j
  = match policy_bucket bs frame with
    | Some k => if Nat.eqb k j then 1 else 0
    | None => 0
    end + bucket_count bs exps j.
Proof.
  unfold bucket_count; simpl.
  destruct (policy_bucket bs frame) as [k|]; [destruct (Nat.eqb k j)|];
    reflexivity.
Qed.

Lemma list_sum_hit (f : nat -> nat) (k : nat) (l : list nat) :
  NoDup l ->
  list_sum (map (fun j => (if Nat.eqb k j then 1 else 0) + f j) l)
  = (if in_dec Nat.eq_dec k l then 1 else 0) + list_sum (map f l).
Proof.
  induction l as [|j l IH]; intro Hnd; [reflexivity|].
  inversion Hnd as [|? ? Hnotin Hnd']; subst.
  simpl map; simpl list_sum; rewrite (IH Hnd').
  destruct (Nat.eqb_spec k j) as [->|Hne].
  - destruct (in_dec Nat.eq_dec j l) as [Hin|_]; [contradiction|].
    destruct (in_dec Nat.eq_dec j (j :: l)) as [_|Hout];
      [lia | exfalso; apply Hout; left; reflexivity].
  - destruct (in_dec Nat.eq_dec k l) as [Hin|Hout];
      destruct (in_dec Nat.eq_dec k (j :: l)) as [Hin'|Hout']; try lia.
    + exfalso; apply Hout'; right; exact Hin.
    + destruct Hin' as [Heq|Hin']; [congruence | contradiction].
Qed.

(** The per-bucket counts of classified experiences add up to their
    number. *)
Lemma bucket_counts_total bs exps : forall nb,
  Forall (fun frame => exists k, policy_bucket bs frame = Some k /\ k < nb)
         exps ->
  list_sum (map (bucket_count bs exps) (seq 0 nb)) = List.length exps.
Proof.
  induction exps as [|frame exps IH]; intros nb Hall.
  - unfold bucket_count; simpl.
    induction (seq 0 nb); simpl; auto.
  - inversion Hall as [|? ? (k & Hk & Hlt) Hrest]; subst.
    specialize (IH nb Hrest).
    rewrite (map_ext _ (fun j => (if Nat.eqb k j then 1 else 0)
                                 + bucket_count bs exps j))
      by (intro j; rewrite bucket_count_cons, Hk; reflexivity).
    rewrite list_sum_hit by apply seq_NoDup.
    rewrite IH.
    destruct (in_dec Nat.eq_dec k (seq 0 nb)) as [_|Hout]; simpl; [lia|].
    exfalso; apply Hout, in_seq; lia.
Qed.
End SamplerSample.

Section SamplerTheorem.
Import RewardBasedSampler.

Lemma total_of_buckets (f : nat -> nat) (parts : list (list Experience)) :
  forall ks,
    Forall2 (fun part k => List.length part = f k) parts ks ->
    List.length (List.concat parts) = list_sum (map f ks).
Proof.
  induction parts as [|part parts IH]; intros ks Hall;
    inversion Hall as [|? k ? ks' Hk Hrest]; subst; simpl; [reflexivity|].
  rewrite length_app, Hk, (IH ks' Hrest); reflexivity.
Qed.

Lemma bucket_count_le bs exps k : bucket_count bs exps k <= List.length exps.
Proof. unfold bucket_count; apply filter_length_le. Qed.

Lemma grows_keeps_floor N bufs : forall bufs',
  Forall2 grows bufs bufs' ->
  Forall (fun rbuf => N <= ReplayBuffer.len rbuf) bufs ->
  Forall (fun rbuf => N <= ReplayBuffer.len rbuf) bufs'.
Proof.
  induction bufs as [|b bufs IH]; intros bufs' Hg Hall;
    inversion Hg; subst; inversion Hall; subst; constructor.
  - unfold grows in *; lia.
  - now apply IH.
Qed.

Lemma enough_in_every_bucket N bufs : forall ns,
  List.length bufs = List.length ns ->
  Forall (fun rbuf => N <= ReplayBuffer.len rbuf) bufs ->
  Forall (fun n => n <= N) ns ->
  Forall2 (fun rbuf n => n <= ReplayBuffer.len rbuf) bufs ns.
Proof.
  induction bufs as [|b bufs IH]; intros [|n ns] Hlen Hb Hn;
    simpl in Hlen; try discriminate; constructor;
    inversion Hb; subst; inversion Hn; subst.
  - lia.
  - apply IH; auto.
Qed.

Lemma draw_all_short bufs : forall ns g ret0,
  List.length bufs = List.length ns ->
  ~ Forall2 (fun rbuf n => n <= ReplayBuffer.len rbuf) bufs ns ->
  snd (draw_all bufs ns g ret0) = Raise AssertionError.
Proof.
  induction bufs as [|rbuf bufs IH]; intros [|n ns] g ret0 Hlen Hnot;
    simpl in Hlen; try discriminate.
  - exfalso; apply Hnot; constructor.
  - simpl.
    destruct (le_lt_dec n (ReplayBuffer.len rbuf)) as [Hle|Hlt].
    + destruct (sample_ok rbuf g n Hle) as (xs & g1 & Hs); rewrite Hs.
      apply IH; [lia|].
      intro Hrest; apply Hnot; constructor; assumption.
    + rewrite (sample_short rbuf g n Hlt); reflexivity.
Qed.

(** The numbers asked of the buckets are the bucket counts. *)
Lemma requests_are_counts (f : nat -> nat) bufs : forall ns k0,
  (forall j, j < List.length ns -> nth j ns 0 = f (k0 + j)) ->
  (Forall2 (fun rbuf n => n <= ReplayBuffer.len rbuf) bufs ns
   <-> Forall2 (fun rbuf k => f k <= ReplayBuffer.len rbuf) bufs
         (seq k0 (List.length ns))).
Proof.
  induction bufs as [|b bufs IH]; intros [|n ns] k0 Hnth; simpl.
  - split; constructor.
  - split; intro HF; inversion HF.
  - split; intro HF; inversion HF.
  - assert (Hn : n = f k0).
    { specialize (Hnth O ltac:(simpl; lia)); simpl in Hnth.
      rewrite Nat.add_0_r in Hnth; exact Hnth. }
    assert (Htl : forall j, j < List.length ns -> nth j ns 0 = f (S k0 + j)).
    { intros j Hj; specialize (Hnth (S j) ltac:(simpl; lia)).
      simpl in Hnth; rewrite Nat.add_succ_r in Hnth; exact Hnth. }
    specialize (IH ns (S k0) Htl).
    split; intro HF; inversion HF; subst; constructor;
      try assumption; apply IH; assumption.
Qed.

(** C3 (amended): whenever [sample] returns, it returns one demonstration
    per input experience, made of one part per bucket in bucket order,
    part k holding as many demonstrations of bucket k as there are input
    experiences of policy index k.  When the states of the input
    experiences and the next len(experiences) draws of the expert dataset
    have a policy index, the refill with these draws shrinks no bucket,
    and then [sample] returns if no bucket is asked for more
    demonstrations than it holds after the refill, and raises
    AssertionError otherwise. *)
Theorem sample_matches_bucket_counts (s : t) (exps : list Experience) :
  List.length (replay_buffers s) = List.length (reward_boundaries s) + 1 ->
  (forall s' ret,
      sample s exps = (s', Ok ret) ->
      List.length ret = List.length exps /\
      exists parts,
        ret = List.concat parts /\
        Forall2 (fun part k =>
                   List.length part
                   = bucket_count (reward_boundaries s) exps k)
                parts (seq 0 (List.length (reward_boundaries s) + 1)) /\
        Forall2 (fun part rbuf =>
                   Forall (fun x => In x (ReplayBuffer.memory rbuf)) part)
                parts (replay_buffers s')) /\
  ((forall j, j < List.length exps ->
      exists k, _policy_index (reward_boundaries s)
                  (coming_obs (expert_dataset s) j) = Ok k) ->
   Forall (fun frame => policy_bucket (reward_boundaries s) frame <> None)
          exps ->
   Forall2 (fun rbuf rbuf' => ReplayBuffer.len rbuf <= ReplayBuffer.len rbuf')
           (replay_buffers s)
           (replay_buffers (fst (_update_buffer s (List.length exps)))) /\
   (Forall2 (fun rbuf k =>
               bucket_count (reward_boundaries s) exps k
               <= ReplayBuffer.len rbuf)
            (replay_buffers (fst (_update_buffer s (List.length exps))))
            (seq 0 (List.length (reward_boundaries s) + 1)) ->
    exists s' ret, sample s exps = (s', Ok ret)) /\
   (~ Forall2 (fun rbuf k =>
                 bucket_count (reward_boundaries s) exps k
                 <= ReplayBuffer.len rbuf)
              (replay_buffers (fst (_update_buffer s (List.length exps))))
              (seq 0 (List.length (reward_boundaries s) + 1)) ->
    snd (sample s exps) = Raise AssertionError)).
Proof.
  intro Hnb; split.
  - intros s' ret Hs; unfold sample in Hs.
    destruct (_update_buffer s (List.length exps)) as [s1 [[]|e]] eqn:Hup;
      [|discriminate].
    destruct (update_buffer_inv _ _ _ _ Hup) as [Hbs Hgrow].
    apply Forall2_length in Hgrow.
    destruct (count_samples (reward_boundaries s1) exps _) as [ns|e] eqn:Hc;
      [|discriminate].
    destruct (count_samples_inv _ _ _ _ Hc) as (Hlen & Hnth & Hcls).
    rewrite zeros_length in Hlen, Hcls.
    destruct (draw_all (replay_buffers s1) ns (rng s1) []) as [g r] eqn:Hd.
    injection Hs as <- ->.
    assert (Hsame : List.length (replay_buffers s1) = List.length ns)
      by (rewrite Hlen, Hbs; lia).
    destruct (draw_all_inv _ _ _ _ _ _ Hsame Hd)
      as (parts & Hret & Hparts & Hmem).
    simpl in Hret; subst ret.
    assert (Hper : Forall2
                     (fun part k =>
                        List.length part
                        = bucket_count (reward_boundaries s1) exps k)
                     parts (seq 0 (List.length ns))).
    { apply lengths_per_bucket; [exact Hparts|].
      intro j; rewrite Hnth, zeros_nth; reflexivity. }
    rewrite Hlen, Hbs in Hper.
    split.
    + rewrite (total_of_buckets _ _ _ Hper).
      apply bucket_counts_total.
      rewrite <- Hbs; exact Hcls.
    + exists parts; auto.
  - intros Hdraws Hframes; unfold sample.
    destruct (update_buffer_ok _ s Hnb Hdraws) as [s1 Hup]; rewrite Hup.
    cbn [fst].
    destruct (update_buffer_inv _ _ _ _ Hup) as [Hbs Hgrow].
    split; [exact Hgrow|].
    destruct (count_samples_ok (reward_boundaries s1) exps
                (map (fun _ => O)
                   (seq 0 (List.length (reward_boundaries s1) + 1))))
      as [ns Hc].
    { apply zeros_length. }
    { rewrite Hbs; exact Hframes. }
    rewrite Hc.
    destruct (count_samples_inv _ _ _ _ Hc) as (Hlen & Hnth & _).
    rewrite zeros_length in Hlen.
    assert (Hsame : List.length (replay_buffers s1) = List.length ns).
    { apply Forall2_length in Hgrow; rewrite Hlen, Hbs; lia. }
    pose proof (requests_are_counts
                  (bucket_count (reward_boundaries s) exps)
                  (replay_buffers s1) ns O) as Hiff.
    rewrite Hlen, Hbs in Hiff.
    assert (Hreq : forall j, j < List.length (reward_boundaries s) + 1 ->
                     nth j ns 0
                     = bucket_count (reward_boundaries s) exps (0 + j)).
    { intros j _; rewrite Hnth, zeros_nth, Hbs; reflexivity. }
    specialize (Hiff Hreq).
    split.
    + intro Hfit.
      destruct (draw_all_ok (replay_buffers s1) ns (rng s1) [])
        as (g' & ret & Hd).
      { apply Hiff; exact Hfit. }
      rewrite Hd; eauto.
    + intro Hshort.
      pose proof (draw_all_short (replay_buffers s1) ns (rng s1) [] Hsame)
        as Hraise.
      destruct (draw_all (replay_buffers s1) ns (rng s1) []) as [g r].
      simpl; apply Hraise.
      intro Hall; apply Hshort, Hiff; exact Hall.
Qed.

(** A constructed sampler has one full bucket per interval. *)
Lemma fill_full fuel : forall s max_buffer_size s',
  fill fuel s max_buffer_size = Some (Ok s') ->
  List.length (replay_buffers s') = List.length (replay_buffers s) /\
  reward_boundaries s' = reward_boundaries s /\
  Forall (fun rbuf => max_buffer_size <= ReplayBuffer.len rbuf)
         (replay_buffers s').
Proof.
  induction fuel as [|fuel IH]; intros s m s' Hfill; simpl in Hfill;
    destruct (update_needed (replay_buffers s) m) eqn:Hneed;
    try discriminate.
  - injection Hfill as <-; split; [reflexivity|]; split; [reflexivity|].
    apply Forall_forall; intros rbuf Hin.
    unfold update_needed in Hneed.
    destruct (le_lt_dec m (ReplayBuffer.len rbuf)) as [|Hlt]; [assumption|].
    assert (existsb (fun r => Nat.ltb (ReplayBuffer.len r) m)
                    (replay_buffers s) = true).
    { apply existsb_exists; exists rbuf; split; [exact Hin|].
      now apply Nat.ltb_lt. }
    congruence.
  - destruct (_update_buffer s m) as [s1 [[]|e]] eqn:Hup; [|discriminate].
    destruct (update_buffer_inv _ _ _ _ Hup) as [Hbs Hgrow].
    apply Forall2_length in Hgrow.
    destruct (IH s1 m s' Hfill) as (Hl & Hb & Hf).
    split; [congruence|]; split; [congruence | exact Hf].
  - injection Hfill as <-; split; [reflexivity|]; split; [reflexivity|].
    apply Forall_forall; intros rbuf Hin.
    unfold update_needed in Hneed.
    destruct (le_lt_dec m (ReplayBuffer.len rbuf)) as [|Hlt]; [assumption|].
    assert (existsb (fun r => Nat.ltb (ReplayBuffer.len r) m)
                    (replay_buffers s) = true).
    { apply existsb_exists; exists rbuf; split; [exact Hin|].
      now apply Nat.ltb_lt. }
    congruence.
Qed.

Lemma init_full fuel d bs max_buffer_size r g s :
  __init__ fuel d bs max_buffer_size r g = Some (Ok s) ->
  List.length (replay_buffers s) = List.length bs + 1 /\
  reward_boundaries s = bs /\
  Forall (fun rbuf => max_buffer_size <= ReplayBuffer.len rbuf)
         (replay_buffers s).
Proof.
  unfold __init__; intro Hfill.
  apply fill_full in Hfill; simpl in Hfill.
  rewrite length_map, length_seq in Hfill; exact Hfill.
Qed.
End SamplerTheorem.

Section SamplerExamplesFacts.
Import RewardBasedSampler.
Local Open Scope R_scope.

Lemma policy_index_early : _policy_index [1] (obs_of 0) = Ok O.
Proof.
  unfold _policy_index; simpl.
  rewrite (proj2 (gtb_false_iff 0 (1 / 1 - tolerance))); [reflexivity|].
  unfold tolerance; lra.
Qed.

Lemma policy_index_late : _policy_index [1] (obs_of 1) = Ok 1%nat.
Proof.
  unfold _policy_index; simpl.
  rewrite (proj2 (gtb_true_iff 1 (1 / 1 - tolerance))); [reflexivity|].
  unfold tolerance; lra.
Qed.

(** Two rounds of the filling loop build [tiny_sampler]. *)
Lemma tiny_sampler_constructed :
  __init__ 2 alternating_dataset [1] 1 1 zero_rng = Some (Ok tiny_sampler).
Proof.
  unfold __init__.
  cbn -[_policy_index obs_of IZR].
  rewrite policy_index_early.
  cbn -[_policy_index obs_of IZR].
  rewrite policy_index_late.
  reflexivity.
Qed.

(** Counterexample to C3 as stated: two experiences of bucket 0 are asked
    from a sampler whose buckets hold one demonstration each; the bucket's
    [sample(2)] fails its assertion and nothing is returned. *)
Lemma sample_oversized_batch_raises :
  snd (sample tiny_sampler [early_experience; early_experience])
  = Raise AssertionError /\
  ~ (exists ret,
        snd (sample tiny_sampler [early_experience; early_experience]) = Ok ret
        /\ List.length ret = 2%nat).
Proof.
  assert (Hraise : snd (sample tiny_sampler [early_experience; early_experience])
                   = Raise AssertionError).
  { unfold sample, tiny_sampler, early_experience.
    cbn -[_policy_index obs_of IZR].
    rewrite policy_index_early.
    cbn -[_policy_index obs_of IZR].
    rewrite policy_index_late.
    cbn -[_policy_index obs_of IZR].
    rewrite policy_index_early.
    reflexivity. }
  split; [exact Hraise|].
  intros (ret & Hret & _); rewrite Hraise in Hret; discriminate.
Qed.

(** Topping [tiny_sampler] up with two draws replaces the demonstration
    of each bucket; each bucket still holds one. *)
Lemma tiny_sampler_refilled :
  replay_buffers (fst (_update_buffer tiny_sampler 2))
  = replay_buffers tiny_sampler.
Proof.
  unfold tiny_sampler.
  cbn -[_policy_index obs_of IZR].
  rewrite policy_index_early.
  cbn -[_policy_index obs_of IZR].
  rewrite policy_index_late.
  reflexivity.
Qed.

Lemma mixed_batch_counts (k : nat) :
  bucket_count [1] [early_experience; late_experience] k
  = if Nat.ltb k 2 then 1%nat else 0%nat.
Proof.
  unfold bucket_count, policy_bucket, early_experience, late_experience.
  cbn -[_policy_index obs_of IZR Nat.ltb].
  rewrite policy_index_early, policy_index_late.
  destruct k as [|[|k]]; reflexivity.
Qed.

Lemma sample_matches_bucket_counts_witness :
  exists s' ret,
    sample tiny_sampler [early_experience; late_experience] = (s', Ok ret).
Proof.
  destruct (sample_matches_bucket_counts tiny_sampler
              [early_experience; late_experience] eq_refl) as [_ Hprogress].
  destruct Hprogress as (_ & Hreturns & _).
  - intros j Hj.
    destruct j as [|[|j]];
      [exists O; exact policy_index_early
      |exists 1%nat; exact policy_index_late
      |simpl in Hj; lia].
  - repeat constructor;
      unfold policy_bucket, early_experience, late_experience;
      cbn -[_policy_index obs_of IZR];
      rewrite ?policy_index_early, ?policy_index_late; discriminate.
  - apply Hreturns.
    cbn [List.length reward_boundaries tiny_sampler Nat.add seq].
    rewrite tiny_sampler_refilled.
    unfold tiny_sampler; cbn [replay_buffers].
    apply Forall2_cons; [rewrite mixed_batch_counts; apply Nat.le_refl|].
    apply Forall2_cons; [rewrite mixed_batch_counts; apply Nat.le_refl|].
    apply Forall2_nil.
Defined.

End SamplerExamplesFacts.

(** ** Target synchronisation *)

Section TargetSyncFacts.
Local Open Scope R_scope.
Context {B : Type}.
Implicit Type a : SQIL B.

Lemma blend_strictly_between tau u v :
  0 < tau < 1 -> u <> v ->
  strictly_between u v ((1 - tau) * u + tau * v).
Proof.
  intros [Hlo Hhi] Hne; unfold strictly_between, Rmin, Rmax.
  destruct (Rle_dec u v) as [Hle|Hgt]; split; nra.
Qed.

Lemma soft_copy_nth tau dst_w src_w i :
  (i < List.length dst_w)%nat -> (i < List.length src_w)%nat ->
  nth i (soft_copy tau dst_w src_w) 0
  = (1 - tau) * nth i dst_w 0 + tau * nth i src_w 0.
Proof.
  intros Hd Hs; unfold soft_copy.
  apply (nth_zip_with (fun tv sv => (1 - tau) * tv + tau * sv)); assumption.
Qed.

(** C8 (amended): the first sync installs a copy of the online network in
    evaluation mode; afterwards a hard sync makes the target weights equal
    to the online weights, and a soft sync replaces every target weight by
    (1 - tau) * target + tau * online, which lies strictly between the old
    target weight and the online weight when they differ and
    0 < tau < 1. *)
Theorem sync_target_network_modes a :
  (target_model a = None ->
   sync_target_network a
   = (set_target_model a (Some (clone_eval (model a))), Ok tt) /\
   arch (clone_eval (model a)) = arch (model a) /\
   weights (clone_eval (model a)) = weights (model a) /\
   training_mode (clone_eval (model a)) = false) /\
  (forall tm,
      target_model a = Some tm ->
      target_update_method (hyper a) = "hard"%string ->
      exists tm',
        sync_target_network a = (set_target_model a (Some tm'), Ok tt) /\
        weights tm' = weights (model a) /\
        training_mode tm' = training_mode tm) /\
  (forall tm,
      target_model a = Some tm ->
      target_update_method (hyper a) = "soft"%string ->
      List.length (weights tm) = List.length (weights (model a)) ->
      exists tm',
        sync_target_network a = (set_target_model a (Some tm'), Ok tt) /\
        List.length (weights tm') = List.length (weights tm) /\
        forall i,
          (i < List.length (weights tm))%nat ->
          nth i (weights tm') 0
          = (1 - soft_update_tau (hyper a)) * nth i (weights tm) 0
            + soft_update_tau (hyper a) * nth i (weights (model a)) 0 /\
          (0 < soft_update_tau (hyper a) < 1 ->
           nth i (weights tm) 0 <> nth i (weights (model a)) 0 ->
           strictly_between (nth i (weights tm) 0)
             (nth i (weights (model a)) 0) (nth i (weights tm') 0))).
Proof.
  split; [|split].
  - intro Hnone; unfold sync_target_network; rewrite Hnone.
    repeat split.
  - intros tm Htm Hhard; unfold sync_target_network, synchronize_parameters.
    rewrite Htm, Hhard; simpl.
    eexists; repeat split.
  - intros tm Htm Hsoft Hlen.
    unfold sync_target_network, synchronize_parameters.
    rewrite Htm, Hsoft; simpl.
    eexists; split; [reflexivity|]; simpl.
    split; [unfold soft_copy; rewrite zip_with_length; lia|].
    intros i Hi.
    rewrite soft_copy_nth by lia.
    split; [reflexivity|].
    intros Htau Hne; now apply blend_strictly_between.
Qed.
End TargetSyncFacts.

Section TargetSyncExamples.
Local Open Scope R_scope.

(** Counterexample to C8 as stated: in soft mode with tau = 1 the target
    weight 0 and the online weight 1 differ, yet the synchronised weight is
    the online weight 1, not a value strictly between the two. *)
Lemma soft_sync_tau_one_not_between :
  target_update_method (hyper (soft_agent 1)) = "soft"%string /\
  exists tm',
    target_model (fst (sync_target_network (soft_agent 1))) = Some tm' /\
    weights tm' = [(1 - 1) * 0 + 1 * 1] /\
    ~ strictly_between 0 1 (nth O (weights tm') 0).
Proof.
  split; [reflexivity|].
  eexists; split; [reflexivity|]; split; [reflexivity|].
  simpl; unfold strictly_between, Rmin, Rmax.
  destruct (Rle_dec 0 1); lra.
Qed.

Lemma sync_target_network_modes_witness :
  exists tm',
    sync_target_network (soft_agent (/ 2))
    = (set_target_model (soft_agent (/ 2)) (Some tm'), Ok tt) /\
    List.length (weights tm') = 1%nat /\
    forall i,
      (i < 1)%nat ->
      nth i (weights tm') 0
      = (1 - / 2) * nth i [0] 0 + / 2 * nth i [1] 0 /\
      (0 < / 2 < 1 ->
       nth i [0] 0 <> nth i [1] 0 ->
       strictly_between (nth i [0] 0) (nth i [1] 0) (nth i (weights tm') 0)).
Proof.
  apply (proj2 (proj2 (sync_target_network_modes (soft_agent (/ 2))))
           (one_weight 0)); reflexivity.
Defined.
End TargetSyncExamples.

(** ** Counters of the agent *)

Section Counters.
Context {B : Type} `{ReplayBufferLike B}.
Implicit Type a : SQIL B.


Lemma same_steps_trans a1 a2 a3 :
  same_steps a1 a2 -> same_steps a2 a3 -> same_steps a1 a3.
Proof.
  unfold same_steps; intros (? & ? & ?) (? & ? & ?); repeat split; congruence.
Qed.

Lemma no_update_refl a : no_update a a.
Proof. repeat split. Qed.

Lemma no_update_trans a1 a2 a3 :
  no_update a1 a2 -> no_update a2 a3 -> no_update a1 a3.
Proof.
  intros [Hs1 Ho1] [Hs2 Ho2]; split;
    [eapply same_steps_trans; eassumption | congruence].
Qed.

Ltac split_cases :=
  repeat match goal with
         | |- context [match ?x with _ => _ end] => destruct x
         end.

Lemma sync_no_update a : no_update a (fst (sync_target_network a)).
Proof. unfold sync_target_network; split_cases; repeat split. Qed.

Lemma batch_act_no_update a obs : no_update a (fst (batch_act a obs)).
Proof. unfold batch_act; split_cases; repeat split. Qed.

Lemma record_transition_no_update a i obs rew done reset :
  no_update a (fst (record_transition a i obs rew done reset)).
Proof. unfold record_transition; split_cases; repeat split. Qed.





(** While the buffer is below the start size the scheduler does nothing. *)
Lemma update_if_necessary_below a n :
  (Z.of_nat (rb_len (replay_buffer a))
   < ru_replay_start_size (replay_updater (hyper a)))%Z ->
  update_if_necessary a n = (a, Ok tt).
Proof.
  intro Hlt; unfold update_if_necessary.
  apply Z.ltb_lt in Hlt; rewrite Hlt; reflexivity.
Qed.

(** One slot advances both step counters by one, before the scheduler
    runs. *)
Lemma before_update_steps a i obs rew done reset :
  let a' := fst (before_update a i obs rew done reset) in
  t a' = (t a + 1)%Z /\
  _cumulative_steps a' = (_cumulative_steps a + 1)%Z /\
  hyper a' = hyper a /\ optim_t a' = optim_t a.
Proof.
  unfold before_update.
  set (a2 := set_cumulative_steps (set_t a (t a + 1)%Z)
               (_cumulative_steps (set_t a (t a + 1)%Z) + 1)%Z).
  destruct (_ =? _)%Z; [repeat split|].
  assert (Hsync : no_update a2
                    (fst (if (t a2 mod target_update_interval (hyper a2)
                              =? 0)%Z
                          then sync_target_network a2 else (a2, Ok tt)))).
  { destruct (_ =? _)%Z; [apply sync_no_update | apply no_update_refl]. }
  destruct (if (t a2 mod target_update_interval (hyper a2) =? 0)%Z
            then sync_target_network a2 else (a2, Ok tt)) as [a3 [[]|e]];
    simpl in Hsync.
  - pose proof (record_transition_no_update a3 i obs rew done reset) as Hrec.
    destruct (no_update_trans _ _ _ Hsync Hrec) as [(Ht & Hc & Hh) Ho].
    simpl; rewrite Ht, Hc, Hh, Ho; repeat split.
  - destruct Hsync as [(Ht & Hc & Hh) Ho].
    simpl; rewrite Ht, Hc, Hh, Ho; repeat split.
Qed.







(** A constructed agent starts with every counter at 0 and with the
    scheduler's start size equal to its own. *)
Lemma init_fresh fuel cuda g args a :
  __init__ fuel cuda g args = Some (Ok a) ->
  t a = 0%Z /\ _cumulative_steps a = 0%Z /\ optim_t a = 0%Z /\
  hyper a = hyper_of args /\
  (exists tm, target_model a = Some tm).
Proof.
  unfold __init__; intro Hinit.
  assert (Hfin : forall sampler dataset,
             finish_init args sampler dataset = Ok a ->
             t a = 0%Z /\ _cumulative_steps a = 0%Z /\ optim_t a = 0%Z /\
             hyper a = hyper_of args /\
             (exists tm, target_model a = Some tm)).
  { intros sampler dataset; unfold finish_init, sync_target_network; simpl.
    destruct (rb_capacity _) as [c|].
    - destruct (_ <? _)%Z; [discriminate|].
      intro Ha; injection Ha as <-; simpl; repeat split; eauto.
    - intro Ha; injection Ha as <-; simpl; repeat split; eauto. }
  destruct (_ && _); [discriminate|].
  destruct (negb (accumulator_ok _)); [discriminate|].
  destruct (_ =? _)%Z; [discriminate|].
  destruct (negb _); [discriminate|].
  destruct (Args.reward_boundaries args) as [bs|];
    destruct (Args.expert_dataset args) as [d|];
    try (injection Hinit as Hinit; eapply Hfin; eassumption).
  destruct (RewardBasedSampler.__init__ _ _ _ _ _ _) as [[s|e]|];
    try discriminate.
  injection Hinit as Hinit; eapply Hfin; eassumption.
Qed.

(** A constructed agent can evaluate its loss: it has a target network and
    a known batch accumulator. *)
Lemma init_loss_ready fuel cuda g args a :
  __init__ fuel cuda g args = Some (Ok a) ->
  (exists tm, target_model a = Some tm) /\
  accumulator_ok (batch_accumulator (hyper a)) = true.
Proof.
  intro Hinit.
  destruct (init_fresh _ _ _ _ _ Hinit) as (_ & _ & _ & Hh & Htm).
  split; [exact Htm|].
  rewrite Hh; simpl.
  unfold __init__ in Hinit.
  destruct (_ && _); [discriminate|].
  destruct (accumulator_ok (Args.batch_accumulator args));
    [reflexivity | discriminate].
Qed.

End Counters.

(** ** The update scheduler *)

Section Scheduler.
Context {B : Type} `{ReplayBufferLike B}.
Implicit Type a : SQIL B.

Lemma can_start_replay_iff a : _can_start_replay a = false <-> below_start a.
Proof.
  unfold _can_start_replay, below_start.
  destruct (Z.ltb_spec (Z.of_nat (rb_len (replay_buffer a)))
              (replay_start_size (hyper a))); split; intro; auto;
    try discriminate; lia.
Qed.

Lemma observe_loop_quiet slots obs rew done reset : forall a,
  start_size_shared a ->
  Forall below_start (scheduler_calls_loop a slots obs rew done reset) ->
  optim_t (fst (observe_loop a slots obs rew done reset)) = optim_t a /\
  hyper (fst (observe_loop a slots obs rew done reset)) = hyper a.
Proof.
  induction slots as [|i slots IH]; intros a Hshared Hbelow; simpl in *;
    [auto|].
  unfold observe_slot.
  pose proof (before_update_steps a i obs rew done reset) as Hb.
  destruct (before_update a i obs rew done reset) as [a4 [[]|e]];
    simpl in Hb; destruct Hb as (_ & _ & Hh & Ho); [|simpl; auto].
  inversion Hbelow as [|? ? Hnow Hlater]; subst.
  assert (Hidle : update_if_necessary a4 (t a4) = (a4, Ok tt)).
  { apply update_if_necessary_below.
    unfold below_start in Hnow; unfold start_size_shared in Hshared.
    rewrite Hh, Hshared, <- Hh; exact Hnow. }
  rewrite Hidle in *.
  destruct (IH a4) as [Ho' Hh']; [| exact Hlater |].
  - unfold start_size_shared in *; rewrite Hh; exact Hshared.
  - split; congruence.
Qed.

Lemma run_op_quiet a op :
  is_update op = false ->
  start_size_shared a ->
  Forall below_start (scheduler_calls a op) ->
  optim_t (run_op a op) = optim_t a /\ hyper (run_op a op) = hyper a.
Proof.
  intros Hop Hshared Hbelow; destruct op; simpl in *; try discriminate;
    auto.
  - destruct (batch_act_no_update a batch_obs) as [(_ & _ & Hh) Ho]; auto.
  - unfold batch_observe, _batch_observe_train, _batch_observe_eval.
    destruct (training a); [|auto].
    now apply observe_loop_quiet.
  - destruct (sync_no_update a) as [(_ & _ & Hh) Ho]; auto.
Qed.

Lemma run_ops_quiet ops : forall a,
  forallb (fun op => negb (is_update op)) ops = true ->
  start_size_shared a ->
  Forall below_start (scheduler_calls_ops a ops) ->
  optim_t (run_ops a ops) = optim_t a.
Proof.
  induction ops as [|op ops IH]; intros a Hops Hshared Hbelow; simpl in *;
    [reflexivity|].
  apply andb_prop in Hops as [Hop Hops].
  apply negb_true_iff in Hop.
  apply Forall_app in Hbelow as [Hnow Hlater].
  destruct (run_op_quiet a op Hop Hshared Hnow) as [Ho Hh].
  rewrite (IH (run_op a op)); auto.
  unfold start_size_shared in *; rewrite Hh; exact Hshared.
Qed.

(** C4: from a freshly constructed agent, along any sequence of operations
    other than a direct call of [update], if at every call of the update
    scheduler the replay buffer holds fewer than replay_start_size
    transitions, then the update counter, reported as n_updates, is
    still 0. *)
Theorem no_update_below_replay_start_size
    fuel cuda g (args : Args.t B) a (ops : list Op) :
  __init__ fuel cuda g args = Some (Ok a) ->
  forallb (fun op => negb (is_update op)) ops = true ->
  Forall (fun c =>
            (Z.of_nat (rb_len (replay_buffer c))
             < replay_start_size (hyper c))%Z)
         (scheduler_calls_ops a ops) ->
  optim_t (run_ops a ops) = 0%Z /\
  snd (fst (get_statistics (run_ops a ops))) = 0%Z.
Proof.
  intros Hinit Hops Hbelow.
  destruct (init_fresh _ _ _ _ _ Hinit) as (_ & _ & Ho & Hh & _).
  assert (Hquiet : optim_t (run_ops a ops) = 0%Z).
  { rewrite (run_ops_quiet ops a Hops); [exact Ho | | exact Hbelow].
    unfold start_size_shared; rewrite Hh; reflexivity. }
  split; [exact Hquiet | exact Hquiet].
Qed.
End Scheduler.

(** ** Construction *)

Section ConstructionChecks.
Context {B : Type} `{ReplayBufferLike B}.



End ConstructionChecks.

Section AgentExamplesFacts.
Local Open Scope R_scope.

Lemma plain_agent_constructed :
  __init__ 0 false zero_rng plain_args = Some (Ok plain_agent).
Proof. reflexivity. Qed.



Lemma no_update_below_replay_start_size_witness :
  optim_t (run_ops plain_agent one_step) = 0%Z /\
  snd (fst (get_statistics (run_ops plain_agent one_step))) = 0%Z.
Proof.
  apply (no_update_below_replay_start_size 0%nat false zero_rng plain_args
           plain_agent one_step).
  - reflexivity.
  - reflexivity.
  - repeat constructor.
Defined.


(** After the step the buffer holds one transition and the scheduler was
    called once. *)
Lemma one_step_recorded :
  rb_len (replay_buffer (run_ops plain_agent one_step)) = 1%nat /\
  List.length (scheduler_calls_ops plain_agent one_step) = 1%nat /\
  t (run_ops plain_agent one_step) = 1%Z.
Proof. repeat split. Qed.
End AgentExamplesFacts.

(* ================================================================== *)
(** * Part III: further properties                                     *)
(* ================================================================== *)

(** ** The soft value and the stabilisation trick *)

Section SoftValueStability.
Local Open Scope R_scope.

Lemma sum_exp_shift m q :
  Tensor.sum (map (fun x => exp (x - m)) q)
  = exp (- m) * Tensor.sum (map exp q).
Proof.
  induction q as [|x q IH]; simpl; [ring|].
  rewrite IH.
  replace (x - m) with (x + - m) by ring.
  rewrite exp_plus; ring.
Qed.

Lemma sum_exp_le_count m q :
  (forall x, In x q -> x <= m) ->
  Tensor.sum (map (fun x => exp (x - m)) q) <= INR (List.length q).
Proof.
  induction q as [|x q IH]; intro Hub; [simpl; lra|].
  change (List.length (x :: q)) with (S (List.length q)).
  rewrite S_INR; simpl Tensor.sum.
  assert (exp (x - m) <= 1).
  { rewrite <- exp_0; apply exp_le_mono.
    specialize (Hub x (or_introl eq_refl)); lra. }
  assert (Tensor.sum (map (fun y => exp (y - m)) q) <= INR (List.length q))
    by (apply IH; intros y Hy; apply Hub; right; exact Hy).
  simpl in *; lra.
Qed.

(** X1: for a non-empty row the stabilised soft value computed by the
    tensor pipeline is the plain log(sum exp(q)), and it is at most the
    largest entry plus the logarithm of the number of actions. *)
Theorem soft_value_is_log_sum_exp (qs : list (list R)) (i : nat) :
  (i < List.length qs)%nat ->
  nth i qs [] <> [] ->
  nth i (next_q_soft qs) 0 = plain_log_sum_exp (nth i qs []) /\
  nth i (next_q_soft qs) 0
  <= Tensor.max (nth i qs []) + ln (INR (List.length (nth i qs []))).
Proof.
  intros Hi Hne.
  rewrite next_q_soft_nth by exact Hi.
  set (q := nth i qs []) in *.
  destruct (max_is_max q Hne) as [Hin Hub].
  unfold log_sum_exp, plain_log_sum_exp.
  assert (Hpos : 0 < Tensor.sum (map exp q)).
  { apply (sum_map_pos exp exp_pos q Hne). }
  split.
  - rewrite sum_exp_shift, ln_mult by (assumption || apply exp_pos).
    rewrite ln_exp; ring.
  - apply Rplus_le_compat_l, ln_le_mono.
    + apply (sum_map_pos _ (exp_shift_pos (Tensor.max q)) q Hne).
    + now apply sum_exp_le_count.
Qed.

Lemma soft_value_is_log_sum_exp_witness :
  nth 0 (next_q_soft [[0; 0]]) 0 = plain_log_sum_exp [0; 0] /\
  nth 0 (next_q_soft [[0; 0]]) 0 <= Tensor.max [0; 0] + ln (INR 2).
Proof.
  apply (soft_value_is_log_sum_exp [[0; 0]] O).
  - simpl; lia.
  - discriminate.
Defined.
End SoftValueStability.

(** ** The value losses *)

Section ValueLosses.
Local Open Scope R_scope.

Lemma smooth_l1_nonneg y t0 : 0 <= smooth_l1 y t0.
Proof.
  unfold smooth_l1.
  pose proof (Rabs_pos (y - t0)).
  destruct (Rlt_dec (Rabs (y - t0)) 1); nra.
Qed.

Lemma mse_nonneg y t0 : 0 <= mse y t0.
Proof. unfold mse; apply (Rle_0_sqr (y - t0)). Qed.

Lemma mse_abs y t0 : mse y t0 = Rabs (y - t0) * Rabs (y - t0).
Proof.
  rewrite <- Rabs_mult, Rabs_pos_eq; [reflexivity|].
  apply (Rle_0_sqr (y - t0)).
Qed.

Lemma smooth_l1_le_half_mse y t0 : smooth_l1 y t0 <= mse y t0 / 2.
Proof.
  rewrite mse_abs; unfold smooth_l1.
  pose proof (Rabs_pos (y - t0)).
  destruct (Rlt_dec (Rabs (y - t0)) 1); nra.
Qed.

Lemma smooth_l1_zero_iff y t0 : smooth_l1 y t0 = 0 <-> Rabs (y - t0) = 0.
Proof.
  unfold smooth_l1.
  pose proof (Rabs_pos (y - t0)).
  destruct (Rlt_dec (Rabs (y - t0)) 1); split; intro; nra.
Qed.

Lemma half_mse_zero_iff y t0 : mse y t0 / 2 = 0 <-> Rabs (y - t0) = 0.
Proof.
  rewrite mse_abs.
  pose proof (Rabs_pos (y - t0)); split; intro; nra.
Qed.

Lemma sum_zip_le (f g : R -> R -> R) y : forall t0,
  (forall a b, f a b <= g a b) ->
  Tensor.sum (Tensor.zip_with f y t0) <= Tensor.sum (Tensor.zip_with g y t0).
Proof.
  induction y as [|a y IH]; intros [|b t0] Hfg; simpl; try lra.
  specialize (IH t0 Hfg); specialize (Hfg a b); lra.
Qed.

Lemma sum_zip_nonneg (f : R -> R -> R) y : forall t0,
  (forall a b, 0 <= f a b) -> 0 <= Tensor.sum (Tensor.zip_with f y t0).
Proof.
  induction y as [|a y IH]; intros [|b t0] Hf; simpl; try lra.
  specialize (IH t0 Hf); specialize (Hf a b); lra.
Qed.

Lemma sum_zip_zero_iff (f g : R -> R -> R) y : forall t0,
  (forall a b, 0 <= f a b) ->
  (forall a b, f a b = 0 <-> g a b = 0) ->
  (Tensor.sum (Tensor.zip_with f y t0) = 0
   <-> Forall (fun e => e = 0) (Tensor.zip_with g y t0)).
Proof.
  induction y as [|a y IH]; intros [|b t0] Hf Hfg; simpl;
    try (split; [constructor | reflexivity]).
  pose proof (sum_zip_nonneg f y t0 Hf) as Hrest.
  pose proof (Hf a b) as Hab.
  specialize (IH t0 Hf Hfg).
  split.
  - intro Hsum.
    constructor; [apply Hfg; lra | apply IH; lra].
  - intro Hall; inversion Hall as [|? ? Hhead Htail]; subst.
    apply Hfg in Hhead; apply IH in Htail; lra.
Qed.

Lemma sum_zip_half (f : R -> R -> R) y : forall t0,
  Tensor.sum (Tensor.zip_with (fun a b => f a b / 2) y t0)
  = Tensor.sum (Tensor.zip_with f y t0) / 2.
Proof.
  induction y as [|a y IH]; intros [|b t0]; simpl; try lra.
  rewrite IH; lra.
Qed.

Lemma reduce_mono acc n u v : u <= v -> reduce acc n u <= reduce acc n v.
Proof.
  intro Huv; unfold reduce.
  destruct (String.eqb acc "mean"); [|exact Huv].
  unfold Rdiv; apply Rmult_le_compat_r; [|exact Huv].
  destruct n as [|n]; [simpl; rewrite Rinv_0; lra|].
  left; apply Rinv_0_lt_compat, lt_0_INR; lia.
Qed.

Lemma reduce_zero acc n : reduce acc n 0 = 0.
Proof. unfold reduce; destruct (String.eqb acc "mean"); lra. Qed.

Lemma reduce_half acc n u : reduce acc n u / 2 = reduce acc n (u / 2).
Proof. unfold reduce; destruct (String.eqb acc "mean"); lra. Qed.

Lemma reduce_zero_iff acc n u :
  (0 < n)%nat -> (reduce acc n u = 0 <-> u = 0).
Proof.
  intro Hn; unfold reduce.
  destruct (String.eqb acc "mean"); [|tauto].
  assert (0 < INR n) by (apply lt_0_INR; exact Hn).
  split; intro Hu.
  - apply (Rmult_eq_reg_r (/ INR n)); [|apply Rinv_neq_0_compat; lra].
    unfold Rdiv in Hu; lra.
  - subst u; lra.
Qed.

(** X2: both value losses are non-negative, and with clip_delta set (Huber
    loss) the loss never exceeds the loss without it (half the squared
    error), for either accumulator. *)
Theorem clipped_loss_below_unclipped (y t0 : list R) (acc : string)
    (clipped unclipped : R) :
  compute_value_loss y t0 true acc = Ok clipped ->
  compute_value_loss y t0 false acc = Ok unclipped ->
  0 <= clipped <= unclipped.
Proof.
  unfold compute_value_loss.
  destruct (accumulator_ok acc); [|discriminate]; simpl.
  intros Hc Hu; injection Hc as <-; injection Hu as <-.
  split.
  - rewrite <- (reduce_zero acc (List.length y)).
    apply reduce_mono, sum_zip_nonneg, smooth_l1_nonneg.
  - rewrite reduce_half; apply reduce_mono.
    rewrite <- sum_zip_half.
    apply sum_zip_le; intros a b; apply smooth_l1_le_half_mse.
Qed.

Lemma clipped_loss_below_unclipped_witness :
  0 <= smooth_l1 1 3 <= mse 1 3 / 2.
Proof.
  apply (clipped_loss_below_unclipped [1] [3] "sum").
  - apply (single_row_loss 1 3 true "sum"); reflexivity.
  - apply (single_row_loss 1 3 false "sum"); reflexivity.
Defined.

Lemma zip_mul_const (c : R) (l : list R) : forall w,
  (List.length l <= List.length w)%nat ->
  Forall (fun x => x = c) w ->
  Tensor.sum (Tensor.mul l w) = c * Tensor.sum l.
Proof.
  unfold Tensor.mul.
  induction l as [|x l IH]; intros [|v w] Hlen Hw; simpl in *;
    try lra; try lia.
  inversion Hw; subst.
  rewrite IH by (assumption || lia); lra.
Qed.

Lemma reduce_scale acc n c u : reduce acc n (c * u) = c * reduce acc n u.
Proof. unfold reduce; destruct (String.eqb acc "mean"); lra. Qed.

(** X3: when every importance weight is the same number c, the weighted
    loss is c times the plain loss; with unit weights the two coincide. *)
Theorem uniform_weights_scale_loss (y t0 w : list R) (clip : bool)
    (acc : string) (c plain : R) :
  List.length y = List.length t0 ->
  List.length w = List.length y ->
  Forall (fun x => x = c) w ->
  compute_value_loss y t0 clip acc = Ok plain ->
  compute_weighted_value_loss y t0 w clip acc = Ok (c * plain).
Proof.
  intros Hyt Hw Hc.
  unfold compute_value_loss, compute_weighted_value_loss.
  destruct (accumulator_ok acc); [|discriminate]; simpl.
  assert (Hlen : forall f : R -> R -> R,
             (List.length (Tensor.zip_with f y t0) <= List.length w)%nat).
  { intro f; rewrite zip_with_length; lia. }
  destruct clip; intro Hp; injection Hp as <-; f_equal.
  - rewrite zip_mul_const with (c := c) by auto.
    apply reduce_scale.
  - rewrite zip_mul_const with (c := c);
      [|rewrite length_map; apply Hlen | exact Hc].
    rewrite reduce_scale, reduce_half.
    f_equal; f_equal.
    clear; revert t0; induction y as [|a y IH]; intros [|b t0]; simpl;
      try lra.
    rewrite IH; lra.
Qed.

Lemma uniform_weights_scale_loss_witness :
  compute_weighted_value_loss [1] [1] [3] true "mean" = Ok (3 * 0).
Proof.
  apply (uniform_weights_scale_loss [1] [1] [3] true "mean" 3 0).
  - reflexivity.
  - reflexivity.
  - repeat constructor.
  - rewrite single_row_loss by reflexivity.
    rewrite smooth_l1_same; reflexivity.
Defined.
End ValueLosses.

(** ** TD errors *)

Section TdErrors.
Local Open Scope R_scope.
Context {B : Type}.

Lemma mse_zero_iff y t0 : mse y t0 = 0 <-> Rabs (y - t0) = 0.
Proof.
  rewrite mse_abs.
  pose proof (Rabs_pos (y - t0)); split; intro; nra.
Qed.

Lemma td_errors_nonneg y : forall t0, Forall (fun e => 0 <= e) (td_errors y t0).
Proof.
  unfold td_errors.
  induction y as [|a y IH]; intros [|b t0]; simpl; constructor;
    [apply Rabs_pos | apply IH].
Qed.

(** X4: for a well-formed, non-empty batch without importance weights, the
    errors written to errors_out are one non-negative number per row, and
    the loss of the batch is zero exactly when all of them are zero. *)
Theorem zero_loss_iff_no_td_error (a : SQIL B) (b : Batch) (l : R)
    (errs : list R) :
  batch_wf b ->
  batch_weights b = None ->
  batch_reward b <> [] ->
  __compute_loss a b = Ok l ->
  __compute_loss_errors a b = Ok errs ->
  List.length errs = List.length (batch_reward b) /\
  Forall (fun e => 0 <= e) errs /\
  (l = 0 <-> Forall (fun e => e = 0) errs).
Proof.
  intros Hwf Hw Hne.
  pose proof Hwf as (Hs & Ha & _).
  unfold __compute_loss, __compute_loss_errors, _compute_y_and_t.
  destruct (target_model a) as [tm|]; [|discriminate].
  rewrite Hw.
  set (y := evaluate_actions (forward (model a) (batch_state b))
              (batch_action b)).
  set (t0 := _compute_target_values tm b).
  assert (Hy : List.length y = List.length (batch_reward b)).
  { unfold y, evaluate_actions, forward.
    rewrite zip_with_length, length_map; lia. }
  assert (Ht : List.length t0 = List.length (batch_reward b))
    by (apply target_values_length; exact Hwf).
  assert (Hpos : (0 < List.length y)%nat).
  { rewrite Hy; destruct (batch_reward b); [congruence | simpl; lia]. }
  unfold compute_value_loss.
  destruct (accumulator_ok _); [|discriminate]; simpl.
  intros Hl He; injection He as <-.
  split; [unfold td_errors; rewrite zip_with_length; lia|].
  split; [apply td_errors_nonneg|].
  unfold td_errors.
  destruct (clip_delta (hyper a)); injection Hl as <-.
  - rewrite reduce_zero_iff by exact Hpos.
    apply sum_zip_zero_iff;
      [apply smooth_l1_nonneg | apply smooth_l1_zero_iff].
  - rewrite reduce_half, reduce_zero_iff by exact Hpos.
    rewrite <- sum_zip_half.
    apply sum_zip_zero_iff; [|apply half_mse_zero_iff].
    intros u v; pose proof (mse_nonneg u v); lra.
Qed.
End TdErrors.

Section TdErrorsWitness.
Local Open Scope R_scope.

Lemma zero_loss_iff_no_td_error_witness :
  List.length [Rabs (0 - 1)] = 1%nat /\
  Forall (fun e => 0 <= e) [Rabs (0 - 1)] /\
  (/ 2 = 0 <-> Forall (fun e => e = 0) [Rabs (0 - 1)]).
Proof.
  apply (zero_loss_iff_no_td_error plain_agent terminal_row).
  - exact terminal_row_wf.
  - reflexivity.
  - discriminate.
  - unfold __compute_loss, _compute_y_and_t, plain_agent, terminal_row.
    cbn [target_model batch_weights float_of_bool].
    rewrite terminal_single_target.
    unfold forward, evaluate_actions.
    cbn [map Tensor.zip_with batch_state batch_action flat_net arch weights
         model clone_eval nth].
    rewrite single_row_loss by reflexivity.
    cbn [clip_delta hyper hyper_of plain_args Args.clip_delta].
    replace 1 with (0 + 1) at 1 by ring.
    rewrite smooth_l1_one; reflexivity.
  - unfold __compute_loss_errors, _compute_y_and_t, plain_agent, terminal_row.
    cbn [target_model float_of_bool].
    rewrite terminal_single_target.
    reflexivity.
Defined.
End TdErrorsWitness.

(** ** Statistics *)

Section MeanOrNan.
Local Open Scope R_scope.

Lemma sum_bounds lo hi xs :
  (forall x, In x xs -> lo <= x <= hi) ->
  INR (List.length xs) * lo <= Tensor.sum xs <= INR (List.length xs) * hi.
Proof.
  induction xs as [|x xs IH]; intro Hb; [simpl; lra|].
  change (List.length (x :: xs)) with (S (List.length xs)).
  rewrite S_INR; simpl Tensor.sum.
  pose proof (Hb x (or_introl eq_refl)).
  assert (INR (List.length xs) * lo <= Tensor.sum xs
          <= INR (List.length xs) * hi)
    by (apply IH; intros y Hy; apply Hb; right; exact Hy).
  simpl in *; lra.
Qed.

(** X5: _mean_or_nan returns NaN exactly for the empty sequence; for a
    non-empty one it returns a number between any lower and upper bound of
    the entries. *)
Theorem mean_or_nan_between (xs : list R) :
  (_mean_or_nan xs = None <-> xs = []) /\
  (forall m lo hi,
      _mean_or_nan xs = Some m ->
      (forall x, In x xs -> lo <= x <= hi) ->
      lo <= m <= hi).
Proof.
  split.
  - destruct xs; simpl; split; intro; congruence.
  - intros m lo hi Hm Hb.
    destruct xs as [|x xs]; [discriminate|].
    injection Hm as <-.
    pose proof (sum_bounds lo hi (x :: xs) Hb) as Hsum.
    assert (Hn : 0 < INR (List.length (x :: xs)))
      by (apply lt_0_INR; simpl; lia).
    assert (Hdiv : forall n s, 0 < n -> n * lo <= s <= n * hi ->
                               lo <= s / n <= hi).
    { intros n s Hpos Hs; split; apply (Rmult_le_reg_l n); try exact Hpos;
        replace (n * (s / n)) with s by (field; lra); lra. }
    apply Hdiv; [exact Hn | exact Hsum].
Qed.

Lemma mean_or_nan_between_witness :
  1 <= (1 + (3 + 0)) / INR 2 <= 3.
Proof.
  apply (proj2 (mean_or_nan_between [1; 3]) _ 1 3).
  - reflexivity.
  - intros x [<-|[<-|[]]]; lra.
Defined.
End MeanOrNan.

(** ** Episode ends *)

Section EpisodeEndsFacts.

Lemma nth_shift {A} (l : list A) (x dflt : A) i k :
  k < i -> nth (i - k) (x :: l) dflt = nth (i - k - 1) l dflt.
Proof.
  intro Hlt.
  destruct (i - k) as [|j] eqn:Hj; [lia|].
  simpl; rewrite Nat.sub_0_r; reflexivity.
Qed.

Lemma indices_from_spec ds : forall rs k i,
  In i (indices_that_ended_from k ds rs) <->
  k <= i /\ i - k < List.length ds /\ i - k < List.length rs /\
  (nth (i - k) ds false || nth (i - k) rs false) = true.
Proof.
  induction ds as [|d ds IH]; intros [|r rs] k i;
    cbn [indices_that_ended_from List.length];
    try (split; [intros [] | intros (_ & ? & ? & _); lia]).
  assert (Hstep : In i (indices_that_ended_from (S k) ds rs) <->
                  S k <= i /\ i - k - 1 < List.length ds /\
                  i - k - 1 < List.length rs /\
                  (nth (i - k - 1) ds false || nth (i - k - 1) rs false)
                  = true).
  { rewrite IH; replace (i - S k) with (i - k - 1) by lia; tauto. }
  destruct (Nat.lt_trichotomy i k) as [Hlt|[->|Hgt]].
  - split; [|lia].
    intro Hin.
    destruct (d || r); [destruct Hin as [Heq|Hin]; [lia|]|];
      apply Hstep in Hin; lia.
  - rewrite Nat.sub_diag; cbn [nth].
    destruct (d || r) eqn:Hdr.
    + split; [intros _; repeat split; lia | intros _; left; reflexivity].
    + rewrite Hstep; split; [lia | intros (_ & _ & _ & ?); discriminate].
  - rewrite !(nth_shift _ _ _ i k Hgt).
    destruct (d || r); cbn [In]; rewrite Hstep.
    + split.
      * intros [Heq|(Hle & Hd & Hr & Hb)]; [lia|].
        repeat split; try lia; exact Hb.
      * intros (Hle & Hd & Hr & Hb); right.
        repeat split; try lia; exact Hb.
    + split; intros (Hle & Hd & Hr & Hb); repeat split; try lia; exact Hb.
Qed.

Lemma indices_from_sorted ds : forall rs k,
  StronglySorted lt (indices_that_ended_from k ds rs).
Proof.
  induction ds as [|d ds IH]; intros [|r rs] k; simpl; try constructor.
  destruct (d || r); [|apply IH].
  constructor; [apply IH|].
  apply Forall_forall; intros i Hi.
  apply indices_from_spec in Hi; lia.
Qed.

(** X6: the slots whose recurrent state is reset are exactly the positions
    present in both flag lists at which done or reset is set, in
    increasing order; when there is none the recurrent states are returned
    as they are, otherwise they are masked at exactly those slots. *)
Theorem episode_end_resets_exactly_ended_slots
    (batch_done batch_reset : list bool) :
  (forall i,
      In i (indices_that_ended batch_done batch_reset) <->
      i < List.length batch_done /\ i < List.length batch_reset /\
      (nth i batch_done false || nth i batch_reset false) = true) /\
  StronglySorted lt (indices_that_ended batch_done batch_reset) /\
  (forall (S : Type) (mask : S -> list nat -> S) (states : S),
      (indices_that_ended batch_done batch_reset = [] ->
       _batch_reset_recurrent_states_when_episodes_end mask batch_done
         batch_reset states = states) /\
      (indices_that_ended batch_done batch_reset <> [] ->
       _batch_reset_recurrent_states_when_episodes_end mask batch_done
         batch_reset states
       = mask states (indices_that_ended batch_done batch_reset))).
Proof.
  split; [|split].
  - intro i; unfold indices_that_ended.
    rewrite indices_from_spec, Nat.sub_0_r.
    split; [tauto | intros (? & ? & ?); repeat split; auto; lia].
  - apply indices_from_sorted.
  - intros S mask states;
      unfold _batch_reset_recurrent_states_when_episodes_end.
    destruct (indices_that_ended batch_done batch_reset);
      split; intro; congruence.
Qed.

Lemma episode_end_resets_exactly_ended_slots_witness :
  _batch_reset_recurrent_states_when_episodes_end
    (fun (s : list nat) idx => idx) [false; true; false] [false; false; true]
    []
  = indices_that_ended [false; true; false] [false; false; true].
Proof.
  apply (proj2 (proj2 (proj2 (episode_end_resets_exactly_ended_slots
                               [false; true; false] [false; false; true]))
                  (list nat) (fun s idx => idx) [])).
  discriminate.
Defined.
End EpisodeEndsFacts.

(** ** Loading demonstrations *)

Section LoadDemonstrations.

Lemma load_loop_spec n : forall d reward,
  List.length (fst (load_loop d n reward)) = n /\
  cursor (snd (load_loop d n reward)) = cursor d + n /\
  draws (snd (load_loop d n reward)) = draws d /\
  forall j, j < n ->
    nth j (fst (load_loop d n reward)) []
    = [demonstration_of reward (draws d (cursor d + j))].
Proof.
  induction n as [|n IH]; intros d reward; simpl.
  - split; [reflexivity|]; split; [lia|]; split; [reflexivity|].
    intros j Hj; lia.
  - unfold dataset_sample.
    destruct (draws d (cursor d)) as [[[[ob act] r0] next_ob] done] eqn:Hd.
    specialize (IH (mkExpertDataset (draws d) (S (cursor d))) reward).
    destruct (load_loop (mkExpertDataset (draws d) (S (cursor d))) n reward)
      as [ret d2].
    simpl in *.
    destruct IH as (Hlen & Hcur & Hdraws & Hnth).
    split; [lia|]; split; [lia|]; split; [exact Hdraws|].
    intros [|j] Hj.
    + rewrite Nat.add_0_r, Hd; reflexivity.
    + rewrite Hnth by lia.
      rewrite Nat.add_succ_r; reflexivity.
Qed.

(** X7: without an expert dataset loading raises ValueError; with one it
    returns exactly batch_size one-transition experiences, the j-th built
    from the j-th next draw and labelled with the given reward and no next
    action, and the dataset has advanced by batch_size draws. *)
Theorem load_experiences_from_demonstrations_spec :
  (forall batch_size reward,
      load_experiences_from_demonstrations None batch_size reward
      = Raise ValueError) /\
  (forall d batch_size reward,
      exists ret d',
        load_experiences_from_demonstrations (Some d) batch_size reward
        = Ok (ret, d') /\
        List.length ret = batch_size /\
        cursor d' = cursor d + batch_size /\
        draws d' = draws d /\
        forall j, j < batch_size ->
          nth j ret [] = [demonstration_of reward (draws d (cursor d + j))]).
Proof.
  split; [reflexivity|].
  intros d n reward; unfold load_experiences_from_demonstrations.
  pose proof (load_loop_spec n d reward) as Hspec.
  destruct (load_loop d n reward) as [ret d'].
  exists ret, d'; split; [reflexivity | exact Hspec].
Qed.
End LoadDemonstrations.

(** ** More on the policy index *)

Section PolicyIndexOrder.
Import RewardBasedSampler.
Local Open Scope R_scope.




End PolicyIndexOrder.

(** ** Invariants of the buckets *)

Section BucketInvariants.
Import RewardBasedSampler.

Lemma Forall_tl {A} (P : A -> Prop) (l : list A) :
  Forall P l -> Forall P (tl l).
Proof. intro H; destruct H; simpl; [constructor | assumption]. Qed.

Lemma append_memory_Forall (P : Experience -> Prop) b tr :
  Forall P (ReplayBuffer.memory b) -> P [tr] ->
  Forall P (ReplayBuffer.memory (ReplayBuffer.append b tr)).
Proof.
  intros Hmem Htr.
  assert (Hall : Forall P (ReplayBuffer.memory b ++ [[tr]])).
  { apply Forall_app; split; [exact Hmem | repeat constructor; exact Htr]. }
  unfold ReplayBuffer.append.
  destruct (ReplayBuffer.capacity b) as [c|]; [|exact Hall].
  destruct (Nat.ltb c _); simpl; [apply Forall_tl|]; exact Hall.
Qed.

Lemma append_bounded size b tr :
  ReplayBuffer.capacity b = Some size /\ ReplayBuffer.len b <= size ->
  ReplayBuffer.capacity (ReplayBuffer.append b tr) = Some size /\
  ReplayBuffer.len (ReplayBuffer.append b tr) <= size.
Proof.
  intros [Hcap Hlen]; unfold ReplayBuffer.append, ReplayBuffer.len in *.
  rewrite Hcap.
  destruct (Nat.ltb_spec size (List.length (ReplayBuffer.memory b ++ [[tr]])))
    as [Hlt|Hge]; simpl; split; auto.
  - rewrite length_app in Hlt; simpl in Hlt.
    destruct (ReplayBuffer.memory b); simpl in *; [lia|].
    rewrite length_app; simpl; lia.
Qed.

Lemma append_at_Forall (P : ReplayBuffer.t -> Prop) :
  (forall b tr, P b -> P (ReplayBuffer.append b tr)) ->
  forall bufs k tr bufs',
    Forall P bufs -> append_at bufs k tr = Ok bufs' -> Forall P bufs'.
Proof.
  intro Hstep; induction bufs as [|b bufs IH]; intros k tr bufs' Hall Happ;
    simpl in Happ.
  - destruct k; discriminate.
  - inversion Hall as [|? ? Hb Hrest]; subst.
    destruct k as [|k].
    + injection Happ as <-; constructor; auto.
    + destruct (append_at bufs k tr) as [rest|e] eqn:Hr; [|discriminate].
      injection Happ as <-; constructor; [exact Hb|].
      eapply IH; eassumption.
Qed.

Lemma update_buffer_Forall (P : ReplayBuffer.t -> Prop) :
  (forall b tr, P b -> P (ReplayBuffer.append b tr)) ->
  forall n s s' r,
    Forall P (replay_buffers s) -> _update_buffer s n = (s', r) ->
    Forall P (replay_buffers s').
Proof.
  intro Hstep; induction n as [|n IH]; intros s s' r Hall Hup; simpl in Hup.
  - injection Hup as <- _; exact Hall.
  - unfold dataset_sample in Hup.
    destruct (draws (expert_dataset s) (cursor (expert_dataset s)))
      as [[[[ob act] r0] next_ob] done].
    destruct (_policy_index (reward_boundaries s) ob) as [k|e]; simpl in Hup.
    + destruct (append_at (replay_buffers s) k _) as [bufs|e] eqn:Happ.
      * apply IH in Hup; [exact Hup|]; simpl.
        eapply append_at_Forall; eassumption.
      * injection Hup as <- _; exact Hall.
    + injection Hup as <- _; exact Hall.
Qed.

Lemma update_buffer_cursor n : forall s s',
  _update_buffer s n = (s', Ok tt) ->
  cursor (expert_dataset s') = cursor (expert_dataset s) + n /\
  draws (expert_dataset s') = draws (expert_dataset s).
Proof.
  induction n as [|n IH]; intros s s' Hup; simpl in Hup.
  - injection Hup as <-; split; [lia | reflexivity].
  - unfold dataset_sample in Hup.
    destruct (draws (expert_dataset s) (cursor (expert_dataset s)))
      as [[[[ob act] r0] next_ob] done].
    destruct (_policy_index (reward_boundaries s) ob) as [k|e]; simpl in Hup;
      [|discriminate].
    destruct (append_at (replay_buffers s) k _) as [bufs|e]; [|discriminate].
    apply IH in Hup; simpl in Hup.
    destruct Hup as [Hc Hd]; split; [lia | exact Hd].
Qed.

Lemma append_at_stratified bs rs bufs : forall k0 k tr bufs',
  stratified_from bs rs k0 bufs ->
  append_at bufs k tr = Ok bufs' ->
  sorted_frame bs rs (k0 + k) [tr] ->
  stratified_from bs rs k0 bufs'.
Proof.
  induction bufs as [|b bufs IH]; intros k0 k tr bufs' Hs Happ Htr;
    simpl in Happ.
  - destruct k; discriminate.
  - destruct Hs as [Hb Hrest].
    destruct k as [|k].
    + injection Happ as <-; split; [|exact Hrest].
      rewrite Nat.add_0_r in Htr.
      now apply append_memory_Forall.
    + destruct (append_at bufs k tr) as [rest|e] eqn:Hr; [|discriminate].
      injection Happ as <-; split; [exact Hb|].
      apply (IH (S k0) k tr rest Hrest Hr).
      rewrite Nat.add_succ_comm; exact Htr.
Qed.

Lemma update_buffer_stratified n : forall s s' r,
  stratified s -> _update_buffer s n = (s', r) -> stratified s'.
Proof.
  induction n as [|n IH]; intros s s' r Hs Hup; simpl in Hup.
  - injection Hup as <- _; exact Hs.
  - unfold dataset_sample in Hup.
    destruct (draws (expert_dataset s) (cursor (expert_dataset s)))
      as [[[[ob act] r0] next_ob] done].
    destruct (_policy_index (reward_boundaries s) ob) as [k|e] eqn:Hk;
      simpl in Hup.
    + destruct (append_at (replay_buffers s) k _) as [bufs|e] eqn:Happ.
      * apply IH in Hup; [exact Hup|].
        unfold stratified; simpl.
        eapply append_at_stratified; [exact Hs | exact Happ |].
        eexists; repeat split; exact Hk.
      * injection Hup as <- _; exact Hs.
    + injection Hup as <- _; exact Hs.
Qed.

Lemma fill_keeps (P : t -> Prop) :
  (forall n s s' r, P s -> _update_buffer s n = (s', r) -> P s') ->
  forall fuel s size s', P s -> fill fuel s size = Some (Ok s') -> P s'.
Proof.
  intro Hstep; induction fuel as [|fuel IH]; intros s size s' Hs Hfill;
    simpl in Hfill;
    destruct (update_needed (replay_buffers s) size); try discriminate;
    try (injection Hfill as <-; exact Hs).
  destruct (_update_buffer s size) as [s1 [[]|e]] eqn:Hup; [|discriminate].
  eapply IH; [|exact Hfill].
  eapply Hstep; eassumption.
Qed.

Lemma empty_buckets_stratified bs rs size n : forall k,
  stratified_from bs rs k
    (map (fun _ => ReplayBuffer.new size) (seq k n)).
Proof.
  induction n as [|n IH]; intro k; simpl; [exact I|].
  split; [constructor | apply IH].
Qed.

(** What a call of [sample] leaves behind is what its first step, the
    refill of the buckets, leaves behind. *)
Lemma sample_state s exps s' r :
  sample s exps = (s', r) ->
  exists s1 r1,
    _update_buffer s (List.length exps) = (s1, r1) /\
    replay_buffers s' = replay_buffers s1 /\
    reward_boundaries s' = reward_boundaries s1 /\
    reward_scale s' = reward_scale s1 /\
    expert_dataset s' = expert_dataset s1 /\
    (forall ret, r = Ok ret -> r1 = Ok tt).
Proof.
  unfold sample; intro Hs.
  destruct (_update_buffer s (List.length exps)) as [s1 [[]|e]] eqn:Hup.
  - exists s1, (Ok tt); split; [reflexivity|].
    destruct (count_samples _ _ _) as [ns|e].
    + destruct (draw_all _ _ _ _) as [g r2].
      injection Hs as <- <-; simpl; repeat split.
    + injection Hs as <- <-; repeat split.
  - exists s1, (Raise e); split; [reflexivity|].
    injection Hs as <- <-; repeat split; discriminate.
Qed.

(** X9: after construction every bucket k holds only single
    demonstrations labelled reward_scale whose state has policy index k,
    and every call of sample, returning or raising, keeps it so. *)
Theorem buckets_stay_stratified :
  (forall fuel d bs size r g s,
      __init__ fuel d bs size r g = Some (Ok s) -> stratified s) /\
  (forall s exps s' r,
      stratified s -> sample s exps = (s', r) -> stratified s').
Proof.
  split.
  - intros fuel d bs size r g s Hinit; unfold __init__ in Hinit.
    eapply (fill_keeps stratified update_buffer_stratified);
      [|exact Hinit].
    apply empty_buckets_stratified.
  - intros s exps s' r Hs Hsample.
    destruct (sample_state _ _ _ _ Hsample)
      as (s1 & r1 & Hup & Hbufs & Hbs & Hrs & _).
    pose proof (update_buffer_stratified _ _ _ _ Hs Hup) as Hs1.
    unfold stratified in *; rewrite Hbufs, Hbs, Hrs; exact Hs1.
Qed.

Lemma buckets_stay_stratified_witness : stratified tiny_sampler.
Proof.
  apply (proj1 buckets_stay_stratified 2 alternating_dataset
           [1%R] 1 1%R zero_rng tiny_sampler).
  exact tiny_sampler_constructed.
Defined.

Lemma full_of_bounded size bufs :
  Forall (bounded_bucket size) bufs ->
  Forall (fun rbuf => size <= ReplayBuffer.len rbuf) bufs ->
  buckets_full size bufs.
Proof.
  unfold buckets_full; induction 1 as [|b bufs [Hc Hl] _ IH];
    intro Hge; inversion Hge; subst; constructor; auto.
  split; [exact Hc | lia].
Qed.

Lemma bounded_of_full size bufs :
  buckets_full size bufs ->
  Forall (bounded_bucket size) bufs /\
  Forall (fun rbuf => size <= ReplayBuffer.len rbuf) bufs.
Proof.
  unfold buckets_full; induction 1 as [|b bufs [Hc Hl] _ [IH1 IH2]];
    split; constructor; auto; try lia.
  split; [exact Hc | lia].
Qed.

(** X10: after construction there is one bucket per interval and every
    bucket holds exactly max_buffer_size demonstrations; sample keeps every
    bucket exactly full, and a call that returns has consumed exactly
    len(experiences) draws of the expert dataset. *)
Theorem buckets_stay_full :
  (forall fuel d bs size r g s,
      __init__ fuel d bs size r g = Some (Ok s) ->
      List.length (replay_buffers s) = List.length bs + 1 /\
      buckets_full size (replay_buffers s)) /\
  (forall size s exps s' r,
      buckets_full size (replay_buffers s) ->
      sample s exps = (s', r) ->
      buckets_full size (replay_buffers s') /\
      (forall ret, r = Ok ret ->
         cursor (expert_dataset s')
         = cursor (expert_dataset s) + List.length exps)).
Proof.
  split.
  - intros fuel d bs size r g s Hinit.
    destruct (init_full _ _ _ _ _ _ _ Hinit) as (Hlen & _ & Hfull).
    split; [exact Hlen|].
    apply full_of_bounded; [|exact Hfull].
    unfold __init__ in Hinit.
    eapply (fill_keeps (fun s => Forall (bounded_bucket size)
                                   (replay_buffers s)));
      [| |exact Hinit].
    + intros n s0 s1 r1; apply update_buffer_Forall.
      intros b tr; apply append_bounded.
    + simpl; apply Forall_map, Forall_forall; intros k _.
      split; [reflexivity | unfold ReplayBuffer.len; simpl; lia].
  - intros size s exps s' r Hfull Hsample.
    destruct (sample_state _ _ _ _ Hsample)
      as (s1 & r1 & Hup & Hbufs & _ & _ & Hds & Hok).
    destruct (bounded_of_full _ _ Hfull) as [Hb Hge].
    destruct (update_buffer_inv _ _ _ _ Hup) as [_ Hgrow].
    split.
    + rewrite Hbufs; apply full_of_bounded.
      * eapply update_buffer_Forall; [|exact Hb|exact Hup].
        intros b tr; apply append_bounded.
      * eapply grows_keeps_floor; eassumption.
    + intros ret Hret; rewrite (Hok ret Hret) in Hup.
      rewrite Hds; apply (update_buffer_cursor _ _ _ Hup).
Qed.

Lemma buckets_stay_full_witness :
  List.length (replay_buffers tiny_sampler) = List.length [1%R] + 1 /\
  buckets_full 1 (replay_buffers tiny_sampler).
Proof.
  apply (proj1 buckets_stay_full 2 alternating_dataset [1%R] 1 1%R zero_rng).
  exact tiny_sampler_constructed.
Defined.

Lemma parts_sorted bs rs parts : forall bufs k,
  Forall2 (fun part rbuf =>
             Forall (fun x => In x (ReplayBuffer.memory rbuf)) part)
          parts bufs ->
  stratified_from bs rs k bufs ->
  Forall2 (fun part j => Forall (sorted_frame bs rs j) part) parts
          (seq k (List.length bufs)).
Proof.
  induction parts as [|part parts IH]; intros bufs k Hmem Hs;
    inversion Hmem as [|? rbuf ? bufs' Hpart Hrest]; subst; simpl;
    constructor.
  - destruct Hs as [Hb _].
    apply Forall_forall; intros x Hx.
    rewrite Forall_forall in Hpart, Hb; auto.
  - destruct Hs as [_ Hs]; now apply IH.
Qed.

Lemma concat_Forall {A} (P : A -> Prop) (parts : list (list A)) :
  Forall (Forall P) parts -> Forall P (List.concat parts).
Proof.
  induction 1 as [|part parts Hp _ IH]; simpl; [constructor|].
  apply Forall_app; auto.
Qed.

(** X11: from stratified buckets, what sample returns is made of one part
    per bucket, in bucket order, and every demonstration of part k is a
    single transition labelled reward_scale whose state has policy index
    k. *)
Theorem sample_returns_sorted_demonstrations (s s' : t)
    (exps ret : list Experience) :
  List.length (replay_buffers s) = List.length (reward_boundaries s) + 1 ->
  stratified s ->
  sample s exps = (s', Ok ret) ->
  (exists parts,
      ret = List.concat parts /\
      Forall2 (fun part k =>
                 Forall (sorted_frame (reward_boundaries s) (reward_scale s) k)
                        part)
              parts (seq 0 (List.length (reward_boundaries s) + 1))) /\
  Forall (fun frame =>
            exists k, sorted_frame (reward_boundaries s) (reward_scale s) k
                        frame) ret.
Proof.
  intros Hnb Hs Hsample.
  assert (Hparts : exists parts,
             ret = List.concat parts /\
             Forall2 (fun part k =>
                        Forall (sorted_frame (reward_boundaries s)
                                  (reward_scale s) k) part)
                     parts (seq 0 (List.length (reward_boundaries s) + 1))).
  { unfold sample in Hsample.
    destruct (_update_buffer s (List.length exps)) as [s1 [[]|e]] eqn:Hup;
      [|discriminate].
    destruct (update_buffer_inv _ _ _ _ Hup) as [Hbs Hgrow].
    apply Forall2_length in Hgrow.
    pose proof (update_buffer_stratified _ _ _ _ Hs Hup) as Hs1.
    assert (Hrs : reward_scale s1 = reward_scale s).
    { clear - Hup; revert s s1 Hup.
      induction (List.length exps) as [|n IH]; intros s s1 Hup;
        simpl in Hup; [injection Hup as <-; reflexivity|].
      unfold dataset_sample in Hup.
      destruct (draws (expert_dataset s) (cursor (expert_dataset s)))
        as [[[[ob act] r0] next_ob] done].
      destruct (_policy_index (reward_boundaries s) ob) as [k|e];
        simpl in Hup; [|discriminate].
      destruct (append_at (replay_buffers s) k _) as [bufs|e];
        [|discriminate].
      apply IH in Hup; exact Hup. }
    destruct (count_samples (reward_boundaries s1) exps _) as [ns|e] eqn:Hc;
      [|discriminate].
    destruct (count_samples_inv _ _ _ _ Hc) as (Hlen & _ & _).
    rewrite zeros_length in Hlen.
    destruct (draw_all (replay_buffers s1) ns (rng s1) []) as [g r] eqn:Hd.
    injection Hsample as _ ->.
    assert (Hsame : List.length (replay_buffers s1) = List.length ns)
      by (rewrite Hlen, Hbs; lia).
    destruct (draw_all_inv _ _ _ _ _ _ Hsame Hd)
      as (parts & Hret & _ & Hmem).
    exists parts; split; [exact Hret|].
    unfold stratified in Hs1; rewrite Hbs, Hrs in Hs1.
    pose proof (parts_sorted _ _ _ _ _ Hmem Hs1) as Hsorted.
    rewrite <- Hgrow, Hnb in Hsorted; exact Hsorted. }
  split; [exact Hparts|].
  destruct Hparts as (parts & -> & Hsorted).
  apply concat_Forall.
  clear - Hsorted.
  induction Hsorted as [|part k parts ks Hpart _ IH]; constructor;
    [|exact IH].
  eapply Forall_impl; [|exact Hpart].
  intros frame Hf; exists k; exact Hf.
Qed.

Lemma tiny_sampler_stratified : stratified tiny_sampler.
Proof.
  pose proof tiny_sampler_constructed as Hinit; unfold __init__ in Hinit.
  eapply (fill_keeps stratified update_buffer_stratified); [|exact Hinit].
  apply empty_buckets_stratified.
Qed.

Lemma tiny_sample_one :
  exists s',
    sample tiny_sampler [early_experience] = (s', Ok [[demo_at 0]]).
Proof.
  eexists; unfold sample, tiny_sampler, early_experience.
  cbn -[_policy_index obs_of IZR].
  rewrite policy_index_early.
  cbn -[_policy_index obs_of IZR].
  rewrite policy_index_early.
  reflexivity.
Qed.

Lemma sample_returns_sorted_demonstrations_witness :
  Forall (fun frame => exists k, sorted_frame [1%R] 1%R k frame)
         [[demo_at 0]].
Proof.
  destruct tiny_sample_one as [s' Hs'].
  apply (proj2 (sample_returns_sorted_demonstrations tiny_sampler s'
                  [early_experience] [[demo_at 0]] eq_refl
                  tiny_sampler_stratified Hs')).
Defined.
End BucketInvariants.

(** ** Updates of the agent *)

Section UpdateOutcome.
Context {B : Type} `{ReplayBufferLike B}.
Implicit Type a : SQIL B.

Lemma only_demonstrations_drawn_refl a : only_demonstrations_drawn a a.
Proof. repeat split. Qed.



End UpdateOutcome.

Section UpdateOutcomeWitness.



End UpdateOutcomeWitness.

(** ** Demonstrations drawn by an update *)

Section DemoSize.
Import RewardBasedSampler.

Lemma sample_length s exps s' ret :
  List.length (replay_buffers s) = List.length (reward_boundaries s) + 1 ->
  sample s exps = (s', Ok ret) ->
  List.length ret = List.length exps.
Proof.
  intros Hnb Hs; unfold sample in Hs.
  destruct (_update_buffer s (List.length exps)) as [s1 [[]|e]] eqn:Hup;
    [|discriminate].
  destruct (update_buffer_inv _ _ _ _ Hup) as [Hbs Hgrow].
  apply Forall2_length in Hgrow.
  destruct (count_samples (reward_boundaries s1) exps _) as [ns|e] eqn:Hc;
    [|discriminate].
  destruct (count_samples_inv _ _ _ _ Hc) as (Hlen & Hnth & Hcls).
  rewrite zeros_length in Hlen, Hcls.
  destruct (draw_all (replay_buffers s1) ns (rng s1) []) as [g r] eqn:Hd.
  injection Hs as _ ->.
  assert (Hsame : List.length (replay_buffers s1) = List.length ns)
    by (rewrite Hlen, Hbs; lia).
  destruct (draw_all_inv _ _ _ _ _ _ Hsame Hd) as (parts & Hret & Hparts & _).
  simpl in Hret; subst ret.
  assert (Hper : Forall2
                   (fun part k =>
                      List.length part
                      = bucket_count (reward_boundaries s1) exps k)
                   parts (seq 0 (List.length ns))).
  { apply lengths_per_bucket; [exact Hparts|].
    intro j; rewrite Hnth, zeros_nth; reflexivity. }
  rewrite (total_of_buckets _ _ _ Hper), Hlen.
  now apply bucket_counts_total.
Qed.

Lemma load_loop_labelled n : forall d label,
  Forall (labelled_demonstration label) (fst (load_loop d n label)).
Proof.
  induction n as [|n IH]; intros d label; simpl; [constructor|].
  unfold dataset_sample.
  destruct (draws d (cursor d)) as [[[[ob act] r0] next_ob] done].
  specialize (IH (mkExpertDataset (draws d) (S (cursor d))) label).
  destruct (load_loop (mkExpertDataset (draws d) (S (cursor d))) n label)
    as [ret d2]; simpl in *.
  constructor; [|exact IH].
  eexists; repeat split.
Qed.

End DemoSize.

Section DemoSizeAgent.
Context {B : Type}.

(** X13: the demonstrations of an update.  Without a reward-based sampler
    they are replay_updater.batchsize single transitions labelled
    reward_scale, whatever the number of experiences; with one (one bucket
    per interval) there are as many demonstrations as experiences. *)
Theorem demo_experiences_size (a a' : SQIL B) (exps demo : list Experience) :
  demo_experiences a exps = (a', Ok demo) ->
  (reward_based_sampler a = None ->
   List.length demo = batchsize (replay_updater (hyper a)) /\
   Forall (labelled_demonstration (reward_scale (hyper a))) demo) /\
  (forall s,
      reward_based_sampler a = Some s ->
      List.length (RewardBasedSampler.replay_buffers s)
      = List.length (RewardBasedSampler.reward_boundaries s) + 1 ->
      List.length demo = List.length exps).
Proof.
  unfold demo_experiences; intro Hdemo; split.
  - intro Hnone; rewrite Hnone in Hdemo.
    unfold load_experiences_from_demonstrations in Hdemo.
    destruct (expert_dataset a) as [d|]; [|discriminate].
    pose proof (load_loop_spec (batchsize (replay_updater (hyper a))) d
                  (reward_scale (hyper a))) as (Hlen & _).
    pose proof (load_loop_labelled (batchsize (replay_updater (hyper a))) d
                  (reward_scale (hyper a))) as Hlab.
    destruct (load_loop d _ _) as [ret d'].
    injection Hdemo as _ <-; simpl in *; auto.
  - intros s Hs Hnb; rewrite Hs in Hdemo.
    destruct (RewardBasedSampler.sample s exps) as [s' r] eqn:Hsample.
    injection Hdemo as _ ->.
    eapply sample_length; eassumption.
Qed.
End DemoSizeAgent.

Section DemoSizeWitness.

Lemma demo_experiences_size_witness :
  List.length (fst (load_loop alternating_dataset 1 1%R))
  = batchsize (replay_updater (hyper taught_agent)) /\
  Forall (labelled_demonstration (reward_scale (hyper taught_agent)))
         (fst (load_loop alternating_dataset 1 1%R)).
Proof.
  apply (proj1 (demo_experiences_size taught_agent
                  (set_expert_dataset taught_agent
                     (Some (snd (load_loop alternating_dataset 1 1%R))))
                  [early_experience]
                  (fst (load_loop alternating_dataset 1 1%R)) eq_refl)
           eq_refl).
Defined.
End DemoSizeWitness.

(** ** What construction establishes *)

Section InitShape.
Context {B : Type} `{ReplayBufferLike B}.
Implicit Type a : SQIL B.

Lemma finish_init_shape (args : Args.t B) sampler dataset a :
  finish_init args sampler dataset = Ok a ->
  a = mkSQIL (hyper_of args) dataset (Args.q_function args)
        (Args.replay_buffer args) sampler 0%Z 0%Z 0%Z
        (Some (clone_eval (Args.q_function args))) None None true /\
  (forall c, rb_capacity (Args.replay_buffer args) = Some c ->
             (Args.replay_start_size args <= c)%Z).
Proof.
  unfold finish_init, sync_target_network; simpl.
  destruct (rb_capacity (Args.replay_buffer args)) as [c|].
  - destruct (Z.ltb_spec c (Args.replay_start_size args)); [discriminate|].
    intro Ha; injection Ha as <-; split; [reflexivity|].
    intros c' Hc'; injection Hc' as <-; assumption.
  - intro Ha; injection Ha as <-; split; [reflexivity|].
    intros c' Hc'; discriminate.
Qed.

(** X18: when construction returns an agent, every check has passed (known
    accumulator, target_update_interval a multiple of the non-zero
    update_interval, capacity at least replay_start_size); the agent starts
    in training mode with all counters 0, no cached observation and, as
    target network, a copy of the Q-function in evaluation mode; and it has
    a reward-based sampler exactly when both reward_boundaries and an
    expert dataset were given, with one full, stratified bucket per
    interval. *)
Theorem init_postconditions fuel cuda g (args : Args.t B) a :
  __init__ fuel cuda g args = Some (Ok a) ->
  (accumulator_ok (Args.batch_accumulator args) = true /\
   Args.update_interval args <> 0%Z /\
   (Args.target_update_interval args mod Args.update_interval args = 0)%Z /\
   (forall c, rb_capacity (Args.replay_buffer args) = Some c ->
              (Args.replay_start_size args <= c)%Z)) /\
  (hyper a = hyper_of args /\ model a = Args.q_function args /\
   replay_buffer a = Args.replay_buffer args /\
   t a = 0%Z /\ optim_t a = 0%Z /\ _cumulative_steps a = 0%Z /\
   target_model a = Some (clone_eval (Args.q_function args)) /\
   batch_last_obs a = None /\ batch_last_action a = None /\
   training a = true) /\
  (reward_based_sampler a <> None <->
   Args.reward_boundaries args <> None /\ Args.expert_dataset args <> None) /\
  (forall s,
      reward_based_sampler a = Some s ->
      Args.reward_boundaries args
      = Some (RewardBasedSampler.reward_boundaries s) /\
      List.length (RewardBasedSampler.replay_buffers s)
      = List.length (RewardBasedSampler.reward_boundaries s) + 1 /\
      buckets_full default_max_buffer_size
        (RewardBasedSampler.replay_buffers s) /\
      stratified s /\
      expert_dataset a = Some (RewardBasedSampler.expert_dataset s)).
Proof.
  unfold __init__; intro Hinit.
  destruct (_ && _); [discriminate|].
  destruct (accumulator_ok (Args.batch_accumulator args)) eqn:Hacc;
    [|discriminate].
  simpl in Hinit.
  destruct (Z.eqb_spec (Args.update_interval args) 0) as [|Hui];
    [discriminate|].
  destruct (Z.eqb_spec (Args.target_update_interval args
                          mod Args.update_interval args) 0) as [Hmod|];
    [|discriminate].
  simpl in Hinit.
  assert (Hcases :
            (exists dataset,
                finish_init args None dataset = Ok a /\
                (Args.reward_boundaries args = None
                 \/ Args.expert_dataset args = None)) \/
            (exists bs d s,
                Args.reward_boundaries args = Some bs /\
                Args.expert_dataset args = Some d /\
                RewardBasedSampler.__init__ fuel d bs default_max_buffer_size
                  (Args.reward_scale args) g = Some (Ok s) /\
                finish_init args (Some s)
                  (Some (RewardBasedSampler.expert_dataset s)) = Ok a)).
  { destruct (Args.reward_boundaries args) as [bs|];
      destruct (Args.expert_dataset args) as [d|];
      try (injection Hinit as Hinit; left; eauto; fail).
    destruct (RewardBasedSampler.__init__ fuel d bs default_max_buffer_size
                (Args.reward_scale args) g) as [[s|e]|] eqn:Hsampler;
      try discriminate.
    injection Hinit as Hinit; right; exists bs, d, s; auto. }
  clear Hinit.
  destruct Hcases as [(dataset & Hfin & Hmissing)
                     |(bs & d & s & Hbs & Hd & Hsampler & Hfin)];
    destruct (finish_init_shape _ _ _ _ Hfin) as [-> Hcap]; simpl.
  - split; [auto|]; split; [repeat split|]; split.
    + split; [intro Hs; congruence|].
      intros [Hb Hd]; destruct Hmissing; contradiction.
    + intros s Hs; discriminate.
  - destruct (init_full _ _ _ _ _ _ _ Hsampler) as (Hlen & Hbs' & Hfull).
    split; [auto|]; split; [repeat split|]; split.
    + rewrite Hbs, Hd.
      split; [intros _; split; discriminate | intros _; discriminate].
    + intros s0 Hs0; injection Hs0 as <-.
      split; [congruence|]; split; [congruence|]; split; [|split].
      * apply full_of_bounded; [|exact Hfull].
        unfold RewardBasedSampler.__init__ in Hsampler.
        eapply (fill_keeps
                  (fun s => Forall (bounded_bucket default_max_buffer_size)
                              (RewardBasedSampler.replay_buffers s)));
          [| |exact Hsampler].
        -- intros n s0 s1 r1; apply update_buffer_Forall.
           intros b tr; apply append_bounded.
        -- simpl; apply Forall_map, Forall_forall; intros k _.
           split; [reflexivity | unfold ReplayBuffer.len; simpl; lia].
      * unfold RewardBasedSampler.__init__ in Hsampler.
        eapply (fill_keeps stratified update_buffer_stratified);
          [|exact Hsampler].
        apply empty_buckets_stratified.
      * reflexivity.
Qed.
End InitShape.

Section InitShapeWitness.

Lemma init_postconditions_witness :
  target_model plain_agent = Some (clone_eval (Args.q_function plain_args)) /\
  batch_last_obs plain_agent = None /\
  (reward_based_sampler plain_agent <> None <->
   Args.reward_boundaries plain_args <> None
   /\ Args.expert_dataset plain_args <> None).
Proof.
  pose proof (init_postconditions 0 false zero_rng plain_args plain_agent
                plain_agent_constructed)
    as (_ & (_ & _ & _ & _ & _ & _ & Htm & Hlo & _) & Hs & _).
  auto.
Defined.
End InitShapeWitness.

(** ** Acting *)

Section Acting.
Context {B : Type} `{ReplayBufferLike B}.
Implicit Type a : SQIL B.

(** X14: batch_act returns one action per observation, the explorer's
    choice at the current step count from the greedy action and the action
    values of the online network; the actions do not depend on the mode.
    In training mode the observations and the actions are cached for the
    next observe and nothing else changes; in evaluation mode the agent is
    unchanged. *)
Theorem batch_act_caches a (obs : list Obs) a' (acts : list nat) :
  batch_act a obs = (a', acts) ->
  List.length acts = List.length obs /\
  (forall i, i < List.length obs ->
     nth i acts O
     = select_action (explorer (hyper a)) (t a)
         (argmax (arch (model a) (weights (model a)) (nth i obs [])))
         (arch (model a) (weights (model a)) (nth i obs []))) /\
  snd (batch_act (set_training a (negb (training a))) obs) = acts /\
  (training a = true ->
   batch_last_obs a' = Some (map Some obs) /\
   batch_last_action a' = Some (map Some acts) /\
   a' = set_batch_last a (Some (map Some obs)) (Some (map Some acts))) /\
  (training a = false -> a' = a).
Proof.
  unfold batch_act; intro Hact.
  set (choose := fun av : list R =>
                   select_action (explorer (hyper a)) (t a) (argmax av) av)
    in *.
  assert (Hacts : acts = map choose (forward (model a) obs)).
  { destruct (training a); injection Hact as _ <-; reflexivity. }
  split; [rewrite Hacts; unfold forward; rewrite !length_map; reflexivity|].
  split.
  { intros i Hi; rewrite Hacts; unfold forward.
    rewrite map_map.
    rewrite (nth_indep _ O (choose (arch (model a) (weights (model a)) [])))
      by (rewrite length_map; exact Hi).
    rewrite (map_nth (fun x => choose (arch (model a) (weights (model a)) x))).
    reflexivity. }
  split.
  { rewrite Hacts; simpl.
    destruct (negb (training a)); reflexivity. }
  split; intro Htrain; rewrite Htrain in Hact; injection Hact as <- <-.
  - repeat split.
  - reflexivity.
Qed.
End Acting.

Section ActingWitness.

Lemma batch_act_caches_witness :
  List.length (snd (batch_act plain_agent [obs_of 0; obs_of 1])) = 2.
Proof.
  apply (batch_act_caches plain_agent [obs_of 0; obs_of 1]
           (fst (batch_act plain_agent [obs_of 0; obs_of 1]))).
  reflexivity.
Defined.
End ActingWitness.

(** ** Observing *)

Section Observing.
Context {B : Type} `{ReplayBufferLike B}.
Implicit Type a : SQIL B.

Lemma sync_frame a a' r :
  sync_target_network a = (a', r) ->
  batch_last_obs a' = batch_last_obs a /\
  batch_last_action a' = batch_last_action a /\
  replay_buffer a' = replay_buffer a /\ model a' = model a /\
  training a' = training a /\ t a' = t a /\
  _cumulative_steps a' = _cumulative_steps a /\ optim_t a' = optim_t a /\
  hyper a' = hyper a.
Proof.
  unfold sync_target_network.
  destruct (target_model a) as [tm|].
  - destruct (synchronize_parameters _ _ _ _); intro Hs;
      injection Hs as <- _; repeat split.
  - intro Hs; injection Hs as <- _; repeat split.
Qed.

Lemma sync_returns a :
  target_model a = None \/
  target_update_method (hyper a) = "hard"%string \/
  target_update_method (hyper a) = "soft"%string ->
  exists a', sync_target_network a = (a', Ok tt).
Proof.
  unfold sync_target_network, synchronize_parameters.
  destruct (target_model a) as [tm|]; [|eauto].
  intros [Hn|[Hm|Hm]]; [discriminate| |]; rewrite Hm; simpl; eauto.
Qed.

Local Ltac observe_cases :=
  repeat match goal with |- _ /\ _ => split end;
  intros; first [reflexivity | congruence | idtac].

(** X15: observing in training mode before any batch_act (the cache does
    not exist yet, as after construction) always raises at the first slot,
    after both step counters have been advanced by one; no transition is
    recorded and no update runs.  The exception is ZeroDivisionError when
    target_update_interval is 0; KeyError when a target sync is due at that
    step, a target network exists and target_update_method is neither
    hard nor soft; AttributeError in every other case. *)
Theorem observe_before_act_raises a (obs : list Obs) (rew : list R)
    (done reset : list bool) :
  training a = true ->
  batch_last_obs a = None ->
  obs <> [] ->
  exists a' e,
    batch_observe a obs rew done reset = (a', Raise e) /\
    t a' = (t a + 1)%Z /\
    _cumulative_steps a' = (_cumulative_steps a + 1)%Z /\
    optim_t a' = optim_t a /\
    replay_buffer a' = replay_buffer a /\
    (target_update_interval (hyper a) = 0%Z -> e = ZeroDivisionError) /\
    (target_update_interval (hyper a) <> 0%Z ->
     ((t a + 1) mod target_update_interval (hyper a) = 0)%Z ->
     target_model a <> None ->
     target_update_method (hyper a) <> "hard"%string ->
     target_update_method (hyper a) <> "soft"%string ->
     e = KeyError) /\
    (target_update_interval (hyper a) <> 0%Z ->
     ((t a + 1) mod target_update_interval (hyper a) <> 0)%Z \/
     target_model a = None \/
     target_update_method (hyper a) = "hard"%string \/
     target_update_method (hyper a) = "soft"%string ->
     e = AttributeError).
Proof.
  intros Htrain Hcache Hobs.
  unfold batch_observe, _batch_observe_train; rewrite Htrain.
  destruct obs as [|o obs]; [congruence|].
  cbn [List.length seq observe_loop].
  unfold observe_slot, before_update.
  set (a2 := set_cumulative_steps (set_t a (t a + 1)%Z)
               (_cumulative_steps (set_t a (t a + 1)%Z) + 1)%Z).
  change (target_update_interval (hyper a2))
    with (target_update_interval (hyper a)).
  change (t a2) with (t a + 1)%Z.
  destruct (target_update_interval (hyper a) =? 0)%Z eqn:Htui.
  { apply Z.eqb_eq in Htui.
    exists a2, ZeroDivisionError. observe_cases. }
  apply Z.eqb_neq in Htui.
  assert (Hraise : exists e,
             record_transition a2 0 (o :: obs) rew done reset
             = (a2, Raise e) /\ e = AttributeError).
  { unfold record_transition.
    change (batch_last_obs a2) with (batch_last_obs a); rewrite Hcache.
    eauto. }
  destruct Hraise as (e0 & Hrec & ->).
  destruct ((t a + 1) mod target_update_interval (hyper a) =? 0)%Z eqn:Hdue.
  2:{ apply Z.eqb_neq in Hdue.
      rewrite Hrec.
      exists a2, AttributeError; observe_cases. }
  apply Z.eqb_eq in Hdue.
  unfold sync_target_network.
  change (target_model a2) with (target_model a).
  change (hyper a2) with (hyper a).
  destruct (target_model a) as [tm|] eqn:Htm.
  - unfold synchronize_parameters.
    destruct (String.eqb (target_update_method (hyper a)) "hard") eqn:Hhard.
    { apply String.eqb_eq in Hhard.
      unfold record_transition; cbn; rewrite Hcache.
      eexists; exists AttributeError; observe_cases. }
    destruct (String.eqb (target_update_method (hyper a)) "soft") eqn:Hsoft.
    { apply String.eqb_eq in Hsoft.
      unfold record_transition; cbn; rewrite Hcache.
      eexists; exists AttributeError; observe_cases. }
    apply String.eqb_neq in Hhard, Hsoft.
    exists a2, KeyError; observe_cases.
    match goal with
    | Hor : _ \/ _ |- _ => destruct Hor as [?|[?|[?|?]]]; congruence
    end.
  - unfold record_transition; cbn; rewrite Hcache.
    eexists; exists AttributeError; observe_cases.
Qed.
End Observing.

Section ObservingWitness.

Lemma observe_before_act_raises_witness :
  exists a',
    batch_observe plain_agent [obs_of 0] [0%R] [false] [false]
    = (a', Raise AttributeError) /\
    t a' = (t plain_agent + 1)%Z /\
    _cumulative_steps a' = (_cumulative_steps plain_agent + 1)%Z /\
    optim_t a' = optim_t plain_agent /\
    replay_buffer a' = replay_buffer plain_agent.
Proof.
  destruct (observe_before_act_raises plain_agent [obs_of 0] [0%R] [false]
              [false] eq_refl eq_refl ltac:(discriminate))
    as (a' & e & Hobs & Ht & Hc & Ho & Hb & _ & _ & Hattr).
  rewrite (Hattr ltac:(discriminate)
             (or_intror (or_intror (or_introl eq_refl)))) in Hobs.
  exists a'; repeat split; assumption.
Defined.
End ObservingWitness.

(** ** Recording transitions *)

Section Recording.
Context {B : Type} `{ReplayBufferLike B}.
Implicit Type a : SQIL B.

Lemma clear_at_same {A} (l : list (option A)) : forall i,
  i < List.length l -> nth_error (clear_at l i) i = Some None.
Proof.
  induction l as [|x l IH]; intros [|i] Hi; simpl in *;
    try lia; try reflexivity.
  apply IH; lia.
Qed.

Lemma clear_at_other {A} (l : list (option A)) : forall i j,
  j <> i -> nth_error (clear_at l i) j = nth_error l j.
Proof.
  induction l as [|x l IH]; intros [|i] [|j] Hne; simpl;
    try reflexivity; try congruence.
  apply IH; congruence.
Qed.

(** X16: for a slot without cached observation nothing is recorded.  For
    a slot with one, the transition appended to the replay buffer goes
    from the cached observation and action to the new observation with the
    given reward and is terminal exactly when done is set; when done or
    reset is set the slot's cache is cleared (other slots keep theirs) and
    the buffer is told to stop the episode, so that observing the slot
    again before the next batch_act records nothing. *)
Theorem record_transition_outcome a (i : nat) (obs : list Obs)
    (rew : list R) (done reset : list bool)
    (lo : list (option Obs)) (la : list (option nat)) :
  batch_last_obs a = Some lo ->
  batch_last_action a = Some la ->
  (nth_error lo i = Some None ->
   record_transition a i obs rew done reset = (a, Ok tt)) /\
  (forall s act r ob d rs,
      nth_error lo i = Some (Some s) ->
      nth_error la i = Some (Some act) ->
      nth_error rew i = Some r ->
      nth_error obs i = Some ob ->
      nth_error done i = Some d ->
      nth_error reset i = Some rs ->
      let tr := recorded_transition s act r ob d in
      (rs || d = false ->
       record_transition a i obs rew done reset
       = (set_replay_buffer a (rb_append (replay_buffer a) i tr), Ok tt)) /\
      (rs || d = true ->
       exists a',
         record_transition a i obs rew done reset = (a', Ok tt) /\
         replay_buffer a'
         = rb_stop_current_episode (rb_append (replay_buffer a) i tr) i /\
         batch_last_obs a' = Some (clear_at lo i) /\
         batch_last_action a' = Some (clear_at la i) /\
         nth_error (clear_at lo i) i = Some None /\
         (forall j, j <> i -> nth_error (clear_at lo i) j = nth_error lo j) /\
         forall obs2 rew2 done2 reset2,
           record_transition a' i obs2 rew2 done2 reset2 = (a', Ok tt))).
Proof.
  intros Hlo Hla; split.
  - intro Hnone; unfold record_transition; rewrite Hlo, Hnone; reflexivity.
  - intros s act r ob d rs Hs Hact Hr Hob Hd Hrs tr.
    assert (Hrec : record_transition a i obs rew done reset
                   = if rs || d
                     then (set_replay_buffer
                             (set_batch_last
                                (set_replay_buffer a
                                   (rb_append (replay_buffer a) i tr))
                                (Some (clear_at lo i)) (Some (clear_at la i)))
                             (rb_stop_current_episode
                                (rb_append (replay_buffer a) i tr) i),
                           Ok tt)
                     else (set_replay_buffer a
                             (rb_append (replay_buffer a) i tr), Ok tt)).
    { unfold record_transition.
      rewrite Hlo, Hs, Hla, Hact, Hr, Hob, Hd, Hrs; reflexivity. }
    split; intro Hflag; rewrite Hflag in Hrec; [exact Hrec|].
    eexists; split; [exact Hrec|]; simpl.
    assert (Hi : i < List.length lo).
    { apply nth_error_Some; congruence. }
    repeat split.
    + now apply clear_at_same.
    + intros j Hj; now apply clear_at_other.
    + intros obs2 rew2 done2 reset2; unfold record_transition; simpl.
      rewrite (clear_at_same lo i Hi); reflexivity.
Qed.

Lemma record_frame a i obs rew done reset :
  target_model (fst (record_transition a i obs rew done reset))
  = target_model a /\
  model (fst (record_transition a i obs rew done reset)) = model a.
Proof.
  unfold record_transition.
  repeat match goal with
         | |- context [match ?x with _ => _ end] => destruct x
         end; split; reflexivity.
Qed.

(** X17: while a slot is observed, the target network is synchronised
    exactly when the advanced step count is a multiple of
    target_update_interval (in hard mode its weights then equal the online
    weights); otherwise it is left alone; the online network is never
    touched; and a target_update_interval of 0 raises ZeroDivisionError
    after the step counter has been advanced. *)
Theorem target_sync_on_schedule a (i : nat) (obs : list Obs) (rew : list R)
    (done reset : list bool) a' r :
  before_update a i obs rew done reset = (a', r) ->
  model a' = model a /\
  (target_update_interval (hyper a) = 0%Z ->
   r = Raise ZeroDivisionError /\ target_model a' = target_model a /\
   t a' = (t a + 1)%Z) /\
  (target_update_interval (hyper a) <> 0%Z ->
   ((t a + 1) mod target_update_interval (hyper a) <> 0)%Z ->
   target_model a' = target_model a) /\
  (target_update_interval (hyper a) <> 0%Z ->
   ((t a + 1) mod target_update_interval (hyper a) = 0)%Z ->
   forall tm,
     target_model a = Some tm ->
     target_update_method (hyper a) = "hard"%string ->
     exists tm', target_model a' = Some tm' /\
                 weights tm' = weights (model a)).
Proof.
  unfold before_update.
  set (a2 := set_cumulative_steps (set_t a (t a + 1)%Z)
               (_cumulative_steps (set_t a (t a + 1)%Z) + 1)%Z).
  change (target_update_interval (hyper a2))
    with (target_update_interval (hyper a)).
  change (t a2) with (t a + 1)%Z.
  destruct (Z.eqb_spec (target_update_interval (hyper a)) 0) as [Hz|Hnz].
  - intro Hb; injection Hb as <- <-.
    split; [reflexivity|]; split; [auto|]; split; [contradiction|].
    contradiction.
  - destruct (Z.eqb_spec ((t a + 1) mod target_update_interval (hyper a)) 0)
      as [Hmod|Hmod].
    + destruct (sync_target_network a2) as [a3 [[]|e]] eqn:Hsync.
      * intro Hb.
        pose proof (record_frame a3 i obs rew done reset) as [Htm Hm].
        rewrite Hb in Htm, Hm; simpl in Htm, Hm.
        destruct (sync_frame _ _ _ Hsync) as (_ & _ & _ & Hm3 & _).
        split; [rewrite Hm, Hm3; reflexivity|]; split; [contradiction|];
          split; [contradiction|].
        intros _ _ tm Htarget Hhard.
        unfold sync_target_network, synchronize_parameters in Hsync.
        change (target_model a2) with (target_model a) in Hsync.
        change (target_update_method (hyper a2))
          with (target_update_method (hyper a)) in Hsync.
        rewrite Htarget, Hhard in Hsync; simpl in Hsync.
        injection Hsync as <-.
        eexists; split; [exact Htm | reflexivity].
      * intro Hb; injection Hb as <- <-.
        destruct (sync_frame _ _ _ Hsync) as (_ & _ & _ & Hm3 & _).
        split; [exact Hm3|]; split; [contradiction|];
          split; [contradiction|].
        intros _ _ tm Htarget Hhard.
        unfold sync_target_network, synchronize_parameters in Hsync.
        change (target_model a2) with (target_model a) in Hsync.
        change (target_update_method (hyper a2))
          with (target_update_method (hyper a)) in Hsync.
        rewrite Htarget, Hhard in Hsync; simpl in Hsync.
        discriminate.
    + intro Hb.
      pose proof (record_frame a2 i obs rew done reset) as [Htm Hm].
      rewrite Hb in Htm, Hm; simpl in Htm, Hm.
      split; [exact Hm|]; split; [contradiction|]; split; [auto|].
      contradiction.
Qed.
End Recording.

Section RecordingWitness.

Lemma record_transition_outcome_witness :
  record_transition (fst (batch_act plain_agent [obs_of 0])) 0
    [obs_of 1] [0%R] [false] [false]
  = (set_replay_buffer (fst (batch_act plain_agent [obs_of 0]))
       (rb_append (replay_buffer (fst (batch_act plain_agent [obs_of 0]))) 0
          (recorded_transition (obs_of 0)
             (nth 0 (snd (batch_act plain_agent [obs_of 0])) 0)
             0%R (obs_of 1) false)),
     Ok tt).
Proof.
  apply (proj2 (record_transition_outcome
                  (fst (batch_act plain_agent [obs_of 0])) 0
                  [obs_of 1] [0%R] [false] [false]
                  [Some (obs_of 0)]
                  [Some (nth 0 (snd (batch_act plain_agent [obs_of 0])) 0)]
                  eq_refl eq_refl)
           (obs_of 0) (nth 0 (snd (batch_act plain_agent [obs_of 0])) 0)
           0%R (obs_of 1) false false
           eq_refl eq_refl eq_refl eq_refl eq_refl eq_refl);
    reflexivity.
Defined.

Lemma target_sync_on_schedule_witness :
  exists tm',
    target_model (fst (before_update plain_agent 0 [obs_of 0] [0%R] [false]
                         [false])) = Some tm' /\
    weights tm' = weights (model plain_agent).
Proof.
  apply (proj2 (proj2 (proj2
           (target_sync_on_schedule plain_agent 0 [obs_of 0] [0%R] [false]
              [false]
              (fst (before_update plain_agent 0 [obs_of 0] [0%R] [false]
                      [false]))
              (snd (before_update plain_agent 0 [obs_of 0] [0%R] [false]
                      [false]))
              (surjective_pairing _))))
           ltac:(discriminate) eq_refl (clone_eval flat_net) eq_refl eq_refl).
Defined.
End RecordingWitness.

(** ** Edge cases of the sampler *)

Section SamplerEdges.
Import RewardBasedSampler.

Lemma policy_index_no_boundary ob : _policy_index [] ob = Raise IndexError.
Proof.
  unfold _policy_index.
  destruct (last_channel_scalar ob) as [c|e] eqn:Hc; simpl; [reflexivity|].
  unfold last_channel_scalar in Hc.
  destruct (rev ob) as [|[|[|v row] rows] chs]; congruence.
Qed.

(** An observation has an entry at [-1, 0, 0] exactly when its last channel
    starts with a non-empty row. *)
Lemma last_channel_scalar_none ob :
  (forall front v row rows, ob <> front ++ [(v :: row) :: rows]) ->
  last_channel_scalar ob = Raise IndexError.
Proof.
  intro Hnone; unfold last_channel_scalar.
  destruct (rev ob) as [|[|[|v row] rows] chs] eqn:Hrev; try reflexivity.
  exfalso; apply (Hnone (rev chs) v row rows).
  rewrite <- (rev_involutive ob), Hrev; reflexivity.
Qed.

(** X19: without any reward boundary, or on an observation without entry
    at [-1, 0, 0] (no channel, an empty last channel, or a last channel
    whose first row is empty), the policy index raises IndexError; hence a
    sampler with an empty reward_boundaries and a positive max_buffer_size
    is never constructed, its first draw raises IndexError, while with
    max_buffer_size 0 construction returns at once, without a draw, with
    one empty bucket per interval. *)
Theorem sampler_needs_a_boundary :
  (forall ob, _policy_index [] ob = Raise IndexError) /\
  (forall bs ob,
      (forall front v row rows, ob <> front ++ [(v :: row) :: rows]) ->
      _policy_index bs ob = Raise IndexError) /\
  (forall fuel d size r g,
      0 < size ->
      __init__ (S fuel) d [] size r g = Some (Raise IndexError)) /\
  (forall fuel d bs r g,
      exists s,
        __init__ fuel d bs 0 r g = Some (Ok s) /\
        expert_dataset s = d /\
        List.length (replay_buffers s) = List.length bs + 1 /\
        Forall (fun rbuf => ReplayBuffer.memory rbuf = []) (replay_buffers s)).
Proof.
  split; [exact policy_index_no_boundary|].
  split.
  { intros bs ob Hnone; unfold _policy_index.
    rewrite (last_channel_scalar_none ob Hnone); reflexivity. }
  split.
  - intros fuel d size r g Hsize; unfold __init__.
    destruct size as [|size]; [lia|].
    cbn [List.length Nat.add seq map fill update_needed existsb
         replay_buffers ReplayBuffer.new ReplayBuffer.len
         ReplayBuffer.memory Nat.ltb Nat.leb orb].
    cbn [_update_buffer].
    unfold dataset_sample.
    cbn [expert_dataset reward_boundaries].
    destruct (draws d (cursor d)) as [[[[ob act] r0] next_ob] done].
    rewrite policy_index_no_boundary; reflexivity.
  - intros fuel d bs r g; unfold __init__.
    assert (Hidle : forall n k,
               update_needed
                 (map (fun _ => ReplayBuffer.new 0) (seq k n)) 0 = false).
    { induction n as [|n IH]; intro k; simpl; [reflexivity | apply IH]. }
    eexists; split.
    + destruct fuel; simpl; rewrite Hidle; reflexivity.
    + simpl; split; [reflexivity|].
      split; [rewrite length_map, length_seq; reflexivity|].
      apply Forall_map, Forall_forall; intros k _; reflexivity.
Qed.

Lemma sampler_needs_a_boundary_witness :
  __init__ 1 alternating_dataset [] 1 1%R zero_rng = Some (Raise IndexError)
  /\ _policy_index [1%R] [[[1%R]]; [[]]] = Raise IndexError
  /\ _policy_index [1%R] [[[1%R]]; []] = Raise IndexError.
Proof.
  split; [|split].
  - apply (proj1 (proj2 (proj2 sampler_needs_a_boundary))
             0 alternating_dataset 1 1%R zero_rng).
    lia.
  - apply (proj1 (proj2 sampler_needs_a_boundary)).
    intros [|ch1 [|ch2 [|ch3 front]]] v row rows; discriminate.
  - apply (proj1 (proj2 sampler_needs_a_boundary)).
    intros [|ch1 [|ch2 [|ch3 front]]] v row rows; discriminate.
Defined.

(** *** When sample raises *)

Lemma Forall2_of_nth (size : nat) bufs : forall ns,
  List.length bufs = List.length ns ->
  Forall (fun rbuf => ReplayBuffer.len rbuf = size) bufs ->
  (Forall2 (fun rbuf n => n <= ReplayBuffer.len rbuf) bufs ns
   <-> forall k, k < List.length ns -> nth k ns 0 <= size).
Proof.
  induction bufs as [|rbuf bufs IH]; intros [|n ns] Hlen Hfull;
    simpl in Hlen; try discriminate.
  - split; [intros _ k Hk; simpl in Hk; lia | constructor].
  - inversion Hfull as [|? ? Hb Hrest]; subst.
    specialize (IH ns ltac:(lia) Hrest).
    split.
    + intros Hall k Hk; inversion Hall; subst.
      destruct k as [|k]; simpl; [assumption|].
      apply IH; [assumption | simpl in Hk; lia].
    + intro Hnth; constructor.
      * apply (Hnth O); simpl; lia.
      * apply IH; intros k Hk; apply (Hnth (S k)); simpl; lia.
Qed.

(** X20: with full buckets of size [size] and inputs that can be
    classified, sample returns exactly when no bucket is asked for more
    than [size] demonstrations, and raises AssertionError when some bucket
    is. *)
Theorem sample_raises_iff_bucket_short (s : t) (exps : list Experience)
    (size : nat) :
  List.length (replay_buffers s) = List.length (reward_boundaries s) + 1 ->
  buckets_full size (replay_buffers s) ->
  (forall j, j < List.length exps ->
     exists k, _policy_index (reward_boundaries s)
                 (coming_obs (expert_dataset s) j) = Ok k) ->
  Forall (fun frame => policy_bucket (reward_boundaries s) frame <> None)
         exps ->
  ((forall k, k < List.length (reward_boundaries s) + 1 ->
      bucket_count (reward_boundaries s) exps k <= size) ->
   exists s' ret, sample s exps = (s', Ok ret)) /\
  ((exists k, k < List.length (reward_boundaries s) + 1 /\
              size < bucket_count (reward_boundaries s) exps k) ->
   snd (sample s exps) = Raise AssertionError).
Proof.
  intros Hnb Hfull Hdraws Hframes.
  unfold sample.
  destruct (update_buffer_ok _ s Hnb Hdraws) as [s1 Hup]; rewrite Hup.
  destruct (update_buffer_inv _ _ _ _ Hup) as [Hbs Hgrow].
  destruct (count_samples_ok (reward_boundaries s1) exps
              (map (fun _ => O)
                 (seq 0 (List.length (reward_boundaries s1) + 1))))
    as [ns Hc].
  { apply zeros_length. }
  { rewrite Hbs; exact Hframes. }
  rewrite Hc.
  destruct (count_samples_inv _ _ _ _ Hc) as (Hlen & Hnth & _).
  rewrite zeros_length in Hlen.
  assert (Hsame : List.length (replay_buffers s1) = List.length ns).
  { apply Forall2_length in Hgrow; rewrite Hlen, Hbs; lia. }
  assert (Hfull1 : Forall (fun rbuf => ReplayBuffer.len rbuf = size)
                          (replay_buffers s1)).
  { destruct (bounded_of_full _ _ Hfull) as [Hb Hge].
    assert (Hf : buckets_full size (replay_buffers s1)).
    { apply full_of_bounded.
      - eapply update_buffer_Forall; [|exact Hb|exact Hup].
        intros b tr; apply append_bounded.
      - eapply grows_keeps_floor; eassumption. }
    eapply Forall_impl; [|exact Hf]; intros rbuf [_ Hl]; exact Hl. }
  pose proof (Forall2_of_nth size _ ns Hsame Hfull1) as Hiff.
  split.
  - intro Hcounts.
    destruct (draw_all_ok (replay_buffers s1) ns (rng s1) [])
      as (g' & ret & Hd).
    { apply Hiff; intros k Hk.
      rewrite Hnth, zeros_nth; simpl.
      rewrite Hbs; apply Hcounts; rewrite <- Hbs, <- Hlen; exact Hk. }
    rewrite Hd; eauto.
  - intros (k & Hk & Hmore).
    pose proof (draw_all_short (replay_buffers s1) ns (rng s1) [] Hsame)
      as Hshort.
    destruct (draw_all (replay_buffers s1) ns (rng s1) []) as [g r].
    simpl; apply Hshort.
    intro Hall.
    assert (Hk' : k < List.length ns) by (rewrite Hlen, Hbs; exact Hk).
    pose proof (proj1 Hiff Hall k Hk') as Hle.
    rewrite Hnth, zeros_nth, Hbs in Hle; simpl in Hle; lia.
Qed.

Lemma tiny_sampler_full : buckets_full 1 (replay_buffers tiny_sampler).
Proof. repeat constructor. Qed.

Lemma sample_raises_iff_bucket_short_witness :
  exists s' ret, sample tiny_sampler [early_experience] = (s', Ok ret).
Proof.
  apply (proj1 (sample_raises_iff_bucket_short tiny_sampler
                  [early_experience] 1 eq_refl tiny_sampler_full
                  (fun j Hj =>
                     match j as n return
                           (n < 1 ->
                            exists k,
                              _policy_index [1%R]
                                (coming_obs (expert_dataset tiny_sampler) n)
                              = Ok k)
                     with
                     | O => fun _ => ex_intro _ O policy_index_early
                     | S n => fun Hn =>
                         False_ind _ (Nat.nlt_0_r n (proj2 (Nat.succ_lt_mono n 0) Hn))
                     end Hj)
                  ltac:(constructor; [|constructor];
                        unfold policy_bucket, early_experience;
                        cbn -[_policy_index obs_of IZR];
                        rewrite policy_index_early; discriminate))).
  intros k Hk; unfold bucket_count; cbn [List.length filter].
  unfold policy_bucket, early_experience.
  cbn -[_policy_index obs_of IZR].
  rewrite policy_index_early.
  destruct (Nat.eqb 0 k); simpl; lia.
Defined.
End SamplerEdges.
